(** * Thorax loading: load:start / load:end coordination

    A shallow embedding of [static/loading/js/lib/thorax.loading.js]:
    - [LoadHandler]: the debounced start/end aggregator built by
      [Thorax.loadHandler], run over an explicit timer table;
    - [DataLoad]: the fetch queue, the route guard [bindToRoute] and the
      [fetch] / [load] / [sync] overrides of models and collections.
    - [ViewLoad]: the view's [onLoadStart] / [onLoadEnd] and the handler
      [Thorax.View.registerEvents] installs with them;
    - [ViewModel]: a view listening to the load events of a data object.

    Closures of the source are defunctionalised: every function value the
    code creates becomes a constructor that carries its captured variables,
    and an interpreter runs it against the state of the object. *)

From stdpp Require Import base option list strings.
From Stdlib Require Import Lia.

#[local] Set Warnings "-register-all".

(* ===================================================================== *)
(** * The load handler *)
(* ===================================================================== *)

Module LoadHandler.

(** Source objects are known by identity only; arrays live in a store and
    are held by reference, because the end timer closes over the [events]
    array itself. *)
Abbreviation Obj := nat (only parsing).
Abbreviation Ref := nat (only parsing).

(** [self._loadStart]: the fields of the object literal in the handler,
    plus [endTimeout] and [run], which are absent ([undefined]) until the
    code first assigns them. *)
Record Signal := mkSignal {
  events : Ref;
  timeout : nat;
  endTimeout : option nat;
  message : option string;
  background : bool;
  run : bool
}.

(** The two functions handed to [setTimeout]. The start action closes over
    [self] only; the end action also over the [events] array. *)
Inductive Action :=
| StartAction
| EndAction (evs : Ref).

Record Timer := mkTimer { tid : nat; due : nat; action : Action }.

(** What the handler does that the outside can see: the two UI callbacks,
    the [load:end] it triggers on the signal, and the assignments that
    create and discard [self._loadStart]. *)
Inductive Call :=
| Created
| OnStart (msg : option string) (bg : bool)
| OnEnd (bg : bool)
| SignalLoadEnd
| Discarded.

(** The object the handler runs on ([self]) together with the event bus
    and the timer table it uses. Durations are in milliseconds, i.e. the
    value of [loadingTimeout * 1000]; [None] is [undefined]. The log is
    kept newest first. *)
Record World := mkWorld {
  _loadStart : option Signal;
  _loadingTimeoutDuration : option nat;
  _loadingTimeoutEndDuration : option nat;
  arrays : list (list Obj);
  bound : list Obj;
  timers : list Timer;
  nextTimer : nat;
  now : nat;
  log : list Call
}.

(** [Thorax.View.prototype._loadingTimeoutDuration] (0.33 s) and
    [_loadingTimeoutEndDuration] (0.10 s), in milliseconds. *)
Definition View_loadingTimeoutDuration : nat := 330.
Definition View_loadingTimeoutEndDuration : nat := 100.

Definition set_timeout (id : nat) (s : Signal) : Signal :=
  mkSignal (events s) id (endTimeout s) (message s) (background s) (run s).
Definition set_endTimeout (id : option nat) (s : Signal) : Signal :=
  mkSignal (events s) (timeout s) id (message s) (background s) (run s).
Definition set_message (m : option string) (s : Signal) : Signal :=
  mkSignal (events s) (timeout s) (endTimeout s) m (background s) (run s).
Definition set_background (b : bool) (s : Signal) : Signal :=
  mkSignal (events s) (timeout s) (endTimeout s) (message s) b (run s).
Definition set_run (b : bool) (s : Signal) : Signal :=
  mkSignal (events s) (timeout s) (endTimeout s) (message s) (background s) b.

Definition set_loadStart (s : option Signal) (w : World) : World :=
  let '(mkWorld _ d e a b ts n t l) := w in mkWorld s d e a b ts n t l.
Definition set_arrays (a : list (list Obj)) (w : World) : World :=
  let '(mkWorld s d e _ b ts n t l) := w in mkWorld s d e a b ts n t l.
Definition set_bound (b : list Obj) (w : World) : World :=
  let '(mkWorld s d e a _ ts n t l) := w in mkWorld s d e a b ts n t l.
Definition set_timers (ts : list Timer) (w : World) : World :=
  let '(mkWorld s d e a b _ n t l) := w in mkWorld s d e a b ts n t l.
Definition set_nextTimer (n : nat) (w : World) : World :=
  let '(mkWorld s d e a b ts _ t l) := w in mkWorld s d e a b ts n t l.
Definition set_now (t : nat) (w : World) : World :=
  let '(mkWorld s d e a b ts n _ l) := w in mkWorld s d e a b ts n t l.
Definition add_log (c : Call) (w : World) : World :=
  let '(mkWorld s d e a b ts n t l) := w in mkWorld s d e a b ts n t (c :: l).

(** ** Timers *)

(** [clearTimeout(id)]: unknown, fired and cleared handles are ignored. *)
Definition clearTimeout (id : nat) (w : World) : World :=
  set_timers (filter (λ t, tid t ≠ id) (timers w)) w.

(** [clearTimeout(x)] where [x] may be [undefined]. *)
Definition clearTimeout_opt (id : option nat) (w : World) : World :=
  match id with
  | Some i => clearTimeout i w
  | None => w
  end.

(** [setTimeout(action, delay)] returns a fresh handle. *)
Definition setTimeout (a : Action) (delay : nat) (w : World) : nat * World :=
  (nextTimer w,
   set_nextTimer (S (nextTimer w))
     (set_timers (timers w ++ [mkTimer (nextTimer w) (now w + delay) a]) w)).

(** The delay [setTimeout] sees for [loadingTimeout * 1000]: when
    [loadingTimeout] is [undefined] the product is NaN, which [setTimeout]
    takes as 0. *)
Definition delay_of (loadingTimeout : option nat) : nat := default 0 loadingTimeout.

(** ** The handler returned by [Thorax.loadHandler(start, end)] *)

(** Reading a property of [self._loadStart] when it is [undefined] throws;
    [None] is that uncaught TypeError. *)
Definition startLoadTimeout (loadingTimeout : option nat) (w : World) : option World :=
  s ← _loadStart w;
  let w1 := clearTimeout (timeout s) w in
  let '(id, w2) := setTimeout StartAction (delay_of loadingTimeout) w1 in
  Some (set_loadStart (Some (set_timeout id s)) w2).

(** [events.indexOf(object)] followed by [events.splice(index, 1)]. *)
Fixpoint remove_first (x : Obj) (l : list Obj) : list Obj :=
  match l with
  | [] => []
  | y :: l' => if decide (x = y) then l' else y :: remove_first x l'
  end.

(** [var loadingTimeout] is local to one invocation of the handler and is
    assigned only on the branch that creates the signal: on the other
    branch [startLoadTimeout] reads it as [undefined]. *)
Definition handler (msg : option string) (bg : bool) (object : Obj) (w : World)
  : option World :=
  w1 ← match _loadStart w with
       | None =>
           let loadingTimeout :=
             default View_loadingTimeoutDuration (_loadingTimeoutDuration w) in
           let s := mkSignal (length (arrays w)) 0 None msg bg false in
           startLoadTimeout (Some loadingTimeout)
             (add_log Created
                (set_loadStart (Some s) (set_arrays (arrays w ++ [[]]) w)))
       | Some s =>
           let w1 := clearTimeout_opt (endTimeout s) w in
           let s1 := set_message msg s in
           if negb bg && background s1
           then startLoadTimeout None
                  (set_loadStart (Some (set_background false s1)) w1)
           else Some (set_loadStart (Some s1) w1)
       end;
  s ← _loadStart w1;
  evs ← arrays w1 !! events s;
  Some (set_bound (bound w1 ++ [object])
          (set_arrays (<[events s := evs ++ [object]]> (arrays w1)) w1)).

(** [endCallback], the listener bound to [load:end] of [object]. Every
    instance bound to the same object closes over the same [self] and
    [object], so [bound] keeps one entry per instance and unbinding an
    instance removes one entry. *)
Definition endCallback (object : Obj) (w : World) : option World :=
  let w0 := set_bound (remove_first object (bound w)) w in
  let loadingEndTimeout :=
    default View_loadingTimeoutEndDuration (_loadingTimeoutEndDuration w0) in
  s ← _loadStart w0;
  evs ← arrays w0 !! events s;
  let evs' := remove_first object evs in
  let w1 := set_arrays (<[events s := evs']> (arrays w0)) w0 in
  if length evs' =? 0
  then let '(id, w2) := setTimeout (EndAction (events s)) loadingEndTimeout w1 in
       Some (set_loadStart (Some (set_endTimeout (Some id) s)) w2)
  else Some w1.

(** The function armed by [startLoadTimeout]. *)
Definition startAction (w : World) : option World :=
  s ← _loadStart w;
  let s1 := set_run true s in
  Some (add_log (OnStart (message s1) (background s1)) (set_loadStart (Some s1) w)).

(** The function armed by [endCallback]; [evs] is the array it closed over. *)
Definition endAction (evs : Ref) (w : World) : option World :=
  l ← arrays w !! evs;
  if length l =? 0
  then s ← _loadStart w;
       let w1 := if run s
                 then add_log SignalLoadEnd (add_log (OnEnd (background s)) w)
                 else w in
       Some (add_log Discarded (set_loadStart None (clearTimeout (timeout s) w1)))
  else Some w.

(** ** The event loop *)

(** The pending timer that is due first; among equal due times the one
    created first ([timers] is in creation order). *)
Fixpoint earliest (ts : list Timer) : option Timer :=
  match ts with
  | [] => None
  | t :: ts' =>
      match earliest ts' with
      | Some t' => if due t' <? due t then Some t' else Some t
      | None => Some t
      end
  end.

Definition next_due (limit : nat) (ts : list Timer) : option Timer :=
  t ← earliest ts;
  if due t <=? limit then Some t else None.

Definition fire (t : Timer) (w : World) : option World :=
  let w1 := set_now (now w `max` due t) (clearTimeout (tid t) w) in
  match action t with
  | StartAction => startAction w1
  | EndAction evs => endAction evs w1
  end.

(** Runs the timers that fall due up to [limit], earliest first. Neither
    action arms a timer, so the number of pending timers bounds the number
    of rounds (see [run_timers_ok] and [elapse_ok]). *)
Fixpoint run_timers (fuel limit : nat) (w : World) : option World :=
  match fuel with
  | 0 => Some w
  | S fuel' =>
      match next_due limit (timers w) with
      | None => Some w
      | Some t => w' ← fire t w; run_timers fuel' limit w'
      end
  end.

Definition elapse (ms : nat) (w : World) : option World :=
  w' ← run_timers (length (timers w)) (now w + ms) w;
  Some (set_now (now w + ms) w').

(** [object.trigger('load:end')]: every [endCallback] bound to [object]
    when the trigger starts runs once, in registration order. *)
Fixpoint dispatch (n : nat) (object : Obj) (w : World) : option World :=
  match n with
  | 0 => Some w
  | S n' => w' ← endCallback object w; dispatch n' object w'
  end.

Definition trigger_loadEnd (object : Obj) (w : World) : option World :=
  dispatch (length (filter (λ o, o = object) (bound w))) object w.

(** What can happen to [self]: a [load:start] reaches the handler, a
    source object signals [load:end], or time passes. *)
Inductive Input :=
| LoadStart (msg : option string) (bg : bool) (object : Obj)
| LoadEnd (object : Obj)
| Elapse (ms : nat).

#[global] Instance Input_eq_dec : EqDecision Input.
Proof. solve_decision. Defined.

Definition step (i : Input) (w : World) : option World :=
  match i with
  | LoadStart msg bg object => handler msg bg object w
  | LoadEnd object => trigger_loadEnd object w
  | Elapse ms => elapse ms w
  end.

Fixpoint exec (ins : list Input) (w : World) : option World :=
  match ins with
  | [] => Some w
  | i :: ins' => w' ← step i w; exec ins' w'
  end.

(** An object that has not loaded yet; [d] and [e] are its own
    [_loadingTimeoutDuration] and [_loadingTimeoutEndDuration], if any.
    Timer handles start at 1. *)
Definition init (d e : option nat) : World :=
  mkWorld None d e [] [] [] 1 0 [].

(** The calls made since the signal in use was created, newest first. *)
Fixpoint episode (l : list Call) : list Call :=
  match l with
  | [] => []
  | Created :: _ => []
  | c :: l' => c :: episode l'
  end.

Definition is_callback (c : Call) : bool :=
  match c with
  | OnStart _ _ | OnEnd _ => true
  | _ => false
  end.

Definition callbacks (w : World) : list Call := filter (λ c, is_callback c = true) (log w).

(** ** Vocabulary of the proofs *)

(** Where the call log stands: no signal, a signal whose start timer has
    or has not fired, or a signal whose [onEnd] has just been called. *)
Inductive Phase := Idle | Open (started : bool) | Ended.

(** The calls the handler can make next in each phase. *)

Definition phase_step (c : Call) (p : Phase) : option Phase :=
  match c, p with
  | Created, Idle => Some (Open false)
  | OnStart _ _, Open _ => Some (Open true)
  | OnEnd _, Open true => Some Ended
  | SignalLoadEnd, Ended => Some Ended
  | Discarded, Open false => Some Idle
  | Discarded, Ended => Some Idle
  | _, _ => None
  end.

(** The phase a log (newest first) leaves the object in; [None] when the
    log is not one the handler can produce. *)
Fixpoint phase (l : list Call) : option Phase :=
  match l with
  | [] => Some Idle
  | c :: l' => p ← phase l'; phase_step c p
  end.

(** The phase a state is in. *)
Definition abs (w : World) : Phase :=
  match _loadStart w with
  | None => Idle
  | Some s => Open (run s)
  end.

(** A pending timer is the start timer recorded in the signal, or the end
    timer recorded there, armed on the signal's own array with no
    [endCallback] left bound. *)
Definition timer_ok (b : list Obj) (s : Signal) (t : Timer) : Prop :=
  match action t with
  | StartAction => tid t = timeout s
  | EndAction r => r = events s ∧ endTimeout s = Some (tid t) ∧ b = []
  end.

Definition starts_only (id : nat) (ts : list Timer) : Prop :=
  Forall (λ t, action t = StartAction ∧ tid t = id) ts.

(** What holds in every state the handler reaches: the log is in the
    phase of the state; without a signal nothing is bound or pending; with
    one, the bound [endCallback]s are the entries of [events], in order. *)
Definition Inv (w : World) : Prop :=
  phase (log w) = Some (abs w) ∧
  match _loadStart w with
  | None => bound w = [] ∧ timers w = []
  | Some s =>
      arrays w !! events s = Some (bound w) ∧
      Forall (timer_ok (bound w) s) (timers w)
  end.

(** How many [endCallback]s are bound to [o]. *)
Definition count (o : Obj) (l : list Obj) : nat := length (filter (λ x, x = o) l).

(** The fields of the signal that only the handler and the start timer
    write. *)
Definition same_signal (s s' : Signal) : Prop :=
  events s' = events s ∧ timeout s' = timeout s ∧ message s' = message s ∧
  background s' = background s ∧ run s' = run s.

(** The log, the clock and the configured delays. *)
Definition same_frame (w w' : World) : Prop :=
  log w' = log w ∧ now w' = now w ∧
  _loadingTimeoutDuration w' = _loadingTimeoutDuration w ∧
  _loadingTimeoutEndDuration w' = _loadingTimeoutEndDuration w.

(** [self._loadStart.events], when there is a signal. *)
Definition pending (w : World) : list Obj :=
  match _loadStart w with
  | Some s => default [] (arrays w !! events s)
  | None => []
  end.

Definition is_OnStart (c : Call) : Prop := ∃ m b, c = OnStart m b.

(** The states of a single start and end that beats the start timer:
    started, both timers pending, none. *)
Definition ending (d e : option nat) (msg : option string) (bg : bool) (t n : nat) : World :=
  mkWorld (Some (mkSignal 0 1 (Some 2) msg bg false)) d e [[]] []
    [mkTimer 1 (default View_loadingTimeoutDuration d) StartAction;
     mkTimer 2 (t + default View_loadingTimeoutEndDuration e) (EndAction 0)]
    3 n [Created].

Definition started (d e : option nat) (msg : option string) (bg : bool) (o : Obj) (n : nat)
  : World :=
  mkWorld (Some (mkSignal 0 1 None msg bg false)) d e [[o]] [o]
    [mkTimer 1 (default View_loadingTimeoutDuration d) StartAction]
    2 n [Created].

Definition ended (d e : option nat) (n : nat) : World :=
  mkWorld None d e [[]] [] [] 3 n [Discarded; Created].

End LoadHandler.

(* ===================================================================== *)
(** * Fetch queue, route guard and the data-object overrides *)
(* ===================================================================== *)

Module DataLoad.

Abbreviation Ref := nat (only parsing).

(** Arguments handed to callbacks. [VThis] is the model or collection
    itself; [VData] stands for values the code only passes on (a response,
    a request handle, the arguments of a route event). *)
Inductive Val :=
| VUndefined
| VBool (b : bool)
| VThis
| VData (n : nat).

Definition truthy (v : Val) : bool :=
  match v with
  | VUndefined => false
  | VBool b => b
  | VThis | VData _ => true
  end.

(** Functions a caller passes to [load] and [bindToRoute], and the
    closures [load] and [loadData] build around them. *)
Inductive Fn :=
| User (name : string)
| Bound (f : Fn) (flag : bool)
| LoadFailback (failback : option Fn).

(** What an options object can hold in [success], [error] and [complete]:
    a plain function, the trigger returned by [bindToRoute] for guard [g],
    or the wrapper [fetch] installs as [options.complete]. *)
Inductive Slot :=
| SFn (f : Fn)
| STrigger (g : Ref)
| SComplete (complete : option Slot).

Inductive Handler := OnSuccess | OnError | OnComplete.

(** The handlers the transport gets: the functions [flushQueue] returns
    and the [options.complete] wrapper of [Thorax.sync]. *)
Inductive Transport :=
| TFlush (q : Ref) (handler : Handler)
| TSync (complete : option Transport).

Record Options := mkOptions {
  success : option Slot;
  error : option Slot;
  complete : option Slot;
  background : Val;
  resetQueue : bool
}.

(** The variables one [bindToRoute] invocation closes over. *)
Record Guard := mkGuard {
  fragment : string;
  completed : bool;
  callback : Fn;
  failback : option Fn
}.

Record Request := mkRequest {
  rid : nat;
  rsuccess : option Transport;
  rerror : option Transport;
  rcomplete : option Transport
}.

Inductive Target := This | Exports.

Inductive Event :=
| Called (name : string) (args : list Val)
| Triggered (target : Target) (event : string) (args : list Val)
| Requested (r : nat)
| Aborted (r : nat).

(** One model or collection ([this]) with what it reaches: what its
    [isPopulated()] answers (the method is defined outside this file), the
    stores of arrays, options objects and guards (all held by reference),
    [Backbone.history] (current fragment and [route] listeners), the
    [load:start] forwarders bound to it, the requests handed to the
    transport and the log of calls that leave this file, newest first. *)
Record World := mkWorld {
  isPopulated : bool;
  this_fetchQueue : option Ref;
  _request : option nat;
  _aborted : option bool;
  queues : list (list Ref);
  objects : list Options;
  guards : list Guard;
  routeListeners : list Ref;
  history_fragment : string;
  forwards : list bool;
  requests : list Request;
  nextRequest : nat;
  log : list Event
}.

Definition set_fetchQueue (q : option Ref) (w : World) : World :=
  let '(mkWorld p _ r a qs os gs ls f fw rs n l) := w in
  mkWorld p q r a qs os gs ls f fw rs n l.
Definition set_request (r : option nat) (w : World) : World :=
  let '(mkWorld p q _ a qs os gs ls f fw rs n l) := w in
  mkWorld p q r a qs os gs ls f fw rs n l.
Definition set_aborted (a : option bool) (w : World) : World :=
  let '(mkWorld p q r _ qs os gs ls f fw rs n l) := w in
  mkWorld p q r a qs os gs ls f fw rs n l.
Definition set_queues (qs : list (list Ref)) (w : World) : World :=
  let '(mkWorld p q r a _ os gs ls f fw rs n l) := w in
  mkWorld p q r a qs os gs ls f fw rs n l.
Definition set_objects (os : list Options) (w : World) : World :=
  let '(mkWorld p q r a qs _ gs ls f fw rs n l) := w in
  mkWorld p q r a qs os gs ls f fw rs n l.
Definition set_guards (gs : list Guard) (w : World) : World :=
  let '(mkWorld p q r a qs os _ ls f fw rs n l) := w in
  mkWorld p q r a qs os gs ls f fw rs n l.
Definition set_routeListeners (ls : list Ref) (w : World) : World :=
  let '(mkWorld p q r a qs os gs _ f fw rs n l) := w in
  mkWorld p q r a qs os gs ls f fw rs n l.
Definition set_fragment (f : string) (w : World) : World :=
  let '(mkWorld p q r a qs os gs ls _ fw rs n l) := w in
  mkWorld p q r a qs os gs ls f fw rs n l.
Definition set_forwards (fw : list bool) (w : World) : World :=
  let '(mkWorld p q r a qs os gs ls f _ rs n l) := w in
  mkWorld p q r a qs os gs ls f fw rs n l.
Definition add_request (x : Request) (w : World) : World :=
  let '(mkWorld p q r a qs os gs ls f fw rs n l) := w in
  mkWorld p q r a qs os gs ls f fw (rs ++ [x]) (S n) l.
Definition add_log (e : Event) (w : World) : World :=
  let '(mkWorld p q r a qs os gs ls f fw rs n l) := w in
  mkWorld p q r a qs os gs ls f fw rs n (e :: l).

Definition add_logs (es : list Event) (w : World) : World :=
  let '(mkWorld p q r a qs os gs ls f fw rs n l) := w in
  mkWorld p q r a qs os gs ls f fw rs n (es ++ l).

(** [{}] *)
Definition emptyOptions : Options := mkOptions None None None VUndefined false.

(** The object a reference points to. References are only made by
    allocation, so the default is never read. *)
Definition deref (w : World) (o : Ref) : Options := default emptyOptions (objects w !! o).

Definition alloc (x : Options) (w : World) : Ref * World :=
  (length (objects w), set_objects (objects w ++ [x]) w).

(** ** Calling functions *)

(** [LoadFailback fb] is the function [load] hands to [loadData]:
    [function(isError) { if (!isError) { if (self._request) {
    self._aborted = true; self._request.abort(); } }
    failback && failback.apply && failback.apply(this, arguments); }].
    What [abort()] does inside the transport is not part of this file. *)
Fixpoint call_fn (f : Fn) (args : list Val) (w : World) : World :=
  match f with
  | User name => add_log (Called name args) w
  | Bound f' flag => call_fn f' (VBool flag :: args) w
  | LoadFailback fb =>
      let isError := truthy (hd VUndefined args) in
      let w1 :=
        if isError then w
        else match _request w with
             | Some r => add_log (Aborted r) (set_aborted (Some true) w)
             | None => w
             end in
      match fb with
      | Some f' => call_fn f' args w1
      | None => w1
      end
  end.

(** ** Route guard *)

(** [finalizer(isCanceled, ...args)] of guard [g]. *)
Definition finalizer (g : Ref) (isCanceled : bool) (args : list Val) (w : World) : World :=
  match guards w !! g with
  | None => w
  | Some gd =>
      let same := bool_decide (fragment gd = history_fragment w) in
      if completed gd then w
      else if isCanceled && same then w
      else
        let gd' := mkGuard (fragment gd) true (callback gd) (failback gd) in
        let w1 := set_guards (<[g := gd']> (guards w)) w in
        let w2 := set_routeListeners (filter (λ g', g' ≠ g) (routeListeners w1)) w1 in
        if negb isCanceled && same
        then call_fn (callback gd) args w2
        else match failback gd with
             | Some fb => call_fn fb args w2
             | None => w2
             end
  end.

(** [bindToRoute(callback, failback)]: a new guard, its [resetLoader]
    bound to [route], and the trigger it returns. *)
Definition bindToRoute (callback : Fn) (failback : option Fn) (w : World) : Slot * World :=
  let g := length (guards w) in
  (STrigger g,
   set_routeListeners (routeListeners w ++ [g])
     (set_guards (guards w ++ [mkGuard (history_fragment w) false callback failback]) w)).

(** [Backbone.history.trigger('route', ...args)]: the [resetLoader] of
    every guard bound when the trigger starts runs, unless an earlier
    listener has unbound it. *)
Definition resetLoader (g : Ref) (args : list Val) (w : World) : World :=
  if bool_decide (g ∈ routeListeners w) then finalizer g true args w else w.

Definition trigger_route (args : list Val) (w : World) : World :=
  foldl (λ w' g, resetLoader g args w') w (routeListeners w).

(** ** Load events *)

(** [this.trigger('load:start', message, background, this)], with the
    listeners [Thorax.forwardLoadEvents(this, exports, once)] has bound:
    each re-triggers on [exports] and the one-shot ones unbind. *)
Definition loadStart (message background : Val) (w : World) : World :=
  let args := [message; background; VThis] in
  let w1 := add_log (Triggered This "load:start" args) w in
  let w2 := add_logs ((λ _, Triggered Exports "load:start" args) <$> forwards w1) w1 in
  set_forwards (filter (λ once, once = false) (forwards w2)) w2.

(** [this.trigger('load:end', this)] *)
Definition loadEnd (w : World) : World :=
  add_log (Triggered This "load:end" [VThis]) w.

Definition forwardLoadEvents (once : bool) (w : World) : World :=
  set_forwards (forwards w ++ [once]) w.

(** ** Options slots *)

Fixpoint call_slot (s : Slot) (args : list Val) (w : World) : World :=
  match s with
  | SFn f => call_fn f args w
  | STrigger g => finalizer g false args w
  | SComplete c =>
      loadEnd match c with
              | Some c' => call_slot c' args w
              | None => w
              end
  end.

Definition handler_of (h : Handler) (o : Options) : option Slot :=
  match h with
  | OnSuccess => success o
  | OnError => error o
  | OnComplete => complete o
  end.

(** The body of the [forEach] in [flushQueue]: [options[handler]] is read
    when the entry is reached. *)
Definition replay (h : Handler) (args : list Val) (w : World) (o : Ref) : World :=
  match handler_of h (deref w o) with
  | Some s => call_slot s args w
  | None => w
  end.

(** The function [flushQueue(self, fetchQueue, handler)] returns; [q] is
    the array it closed over. *)
Definition flushQueue (q : Ref) (h : Handler) (args : list Val) (w : World) : World :=
  let w1 := foldl (replay h args) w (default [] (queues w !! q)) in
  if bool_decide (this_fetchQueue w1 = Some q) then set_fetchQueue None w1 else w1.

Fixpoint call_transport (t : Transport) (args : list Val) (w : World) : World :=
  match t with
  | TFlush q h => flushQueue q h args w
  | TSync c =>
      let w1 := set_aborted (Some false) (set_request None w) in
      match c with
      | Some c' => call_transport c' args w1
      | None => w1
      end
  end.

(** ** sync, fetch, load *)

(** [Thorax.sync], reached with the options of the call below it:
    [Backbone.sync] puts the request in flight and returns its handle. *)
Definition sync (s e c : option Transport) (w : World) : World :=
  let r := nextRequest w in
  let w1 := add_log (Requested r) (add_request (mkRequest r s e (Some (TSync c))) w) in
  add_log (Triggered This "request" [VData r]) (set_request (Some r) w1).

(** [$super]: the [fetch] of Backbone, which is not part of this
    repository; it passes the three handlers on to [this.sync], which the
    override sets to [Thorax.sync]. *)
Definition super_fetch (s e c : option Transport) (w : World) : World := sync s e c w.

Definition fetchQueue (options : Ref) (w : World) : World :=
  let w1 := if resetQueue (deref w options) then set_fetchQueue None w else w in
  match this_fetchQueue w1 with
  | None =>
      let q := length (queues w1) in
      let w2 := set_fetchQueue (Some q) (set_queues (queues w1 ++ [[options]]) w1) in
      super_fetch (Some (TFlush q OnSuccess)) (Some (TFlush q OnError))
        (Some (TFlush q OnComplete)) w2
  | Some q =>
      set_queues (<[q := default [] (queues w1 !! q) ++ [options]]> (queues w1)) w1
  end.

(** The [fetch] override. [options || {}] makes a new object only when
    the caller passed none; otherwise the caller's own object gets the
    wrapped [complete]. *)
Definition fetch (options : option Ref) (w : World) : World :=
  let '(o, w0) :=
    match options with
    | Some o => (o, w)
    | None => alloc emptyOptions w
    end in
  let x := deref w0 o in
  let x' := mkOptions (success x) (error x) (Some (SComplete (complete x)))
              (background x) (resetQueue x) in
  let w1 := set_objects (<[o := x']> (objects w0)) w0 in
  fetchQueue o (loadStart VUndefined (background x') w1).

(** [loadData], as [load] calls it: with three arguments, so the
    two-argument reshuffle is not taken; [failback = None] is [false]. *)
Definition loadData (callback : Fn) (failback : option Fn) (options : Ref) (w : World)
  : World :=
  if isPopulated w then call_fn callback [VThis] w
  else
    let '(trigger, w1) := bindToRoute callback ((λ f, Bound f false) <$> failback) w in
    let x := deref w1 options in
    let '(o, w2) :=
      alloc (mkOptions (Some trigger) ((λ f, SFn (Bound f true)) <$> failback)
               (complete x) (background x) (resetQueue x)) w1 in
    fetch (Some o) w2.

(** [load(callback, failback, options)]. [failback = None] covers a
    missing or non-function second argument, including the two-argument
    form [load(callback, options)], which the first lines turn into
    [failback = false] and [options]. *)
Definition load (callback : Fn) (failback : option Fn) (options : option Ref) (w : World)
  : World :=
  let '(o, w0) :=
    match options with
    | Some o => (o, w)
    | None => alloc emptyOptions w
    end in
  let w1 :=
    if negb (truthy (background (deref w0 o))) && negb (isPopulated w0)
    then forwardLoadEvents true w0
    else w0 in
  loadData callback (Some (LoadFailback failback)) o w1.

(** ** Resolving a guard *)



(** ** Reading the log *)

Definition is_loadEnd (e : Event) : bool :=
  match e with
  | Triggered This ev _ => bool_decide (ev = "load:end")
  | _ => false
  end.

Definition is_loadStart (e : Event) : bool :=
  match e with
  | Triggered This ev _ => bool_decide (ev = "load:start")
  | _ => false
  end.

Definition is_Requested (e : Event) : bool :=
  match e with
  | Requested _ => true
  | _ => false
  end.

Definition count_if (p : Event → bool) (l : list Event) : nat :=
  length (filter (λ e, p e = true) l).

(** A model or collection nothing has happened to yet. Request handles
    start at 1. *)
Definition init (populated : bool) (fragment : string) : World :=
  mkWorld populated None None None [] [] [] [] fragment [] [] 1 [].

(** ** Vocabulary of the proofs *)

(** Induction over functions, reaching under the optional failback. *)
Fixpoint Fn_induction (P : Fn → Prop)
    (HUser : ∀ name, P (User name))
    (HBound : ∀ f flag, P f → P (Bound f flag))
    (HNone : P (LoadFailback None))
    (HSome : ∀ f, P f → P (LoadFailback (Some f)))
    (f : Fn) : P f :=
  match f with
  | User name => HUser name
  | Bound f' flag => HBound f' flag (Fn_induction P HUser HBound HNone HSome f')
  | LoadFailback None => HNone
  | LoadFailback (Some f') => HSome f' (Fn_induction P HUser HBound HNone HSome f')
  end.

(** Everything but the log and [_aborted]. *)
Definition frame (w w' : World) : Prop :=
  isPopulated w' = isPopulated w ∧ this_fetchQueue w' = this_fetchQueue w ∧
  _request w' = _request w ∧ queues w' = queues w ∧ objects w' = objects w ∧
  guards w' = guards w ∧ routeListeners w' = routeListeners w ∧
  history_fragment w' = history_fragment w ∧ forwards w' = forwards w ∧
  requests w' = requests w ∧ nextRequest w' = nextRequest w.

(** Log entries made by calling a function. *)
Definition is_call (e : Event) : Prop :=
  match e with
  | Called _ _ | Aborted _ => True
  | _ => False
  end.

(** The log grows by calls of functions and aborts only. *)
Definition quiet (w w' : World) : Prop :=
  ∃ new, log w' = new ++ log w ∧ Forall is_call new.

(** What the finalizer does to the state before it runs a callback:
    [completed = true] and [resetLoader] unbound. *)
Definition finalize (g : Ref) (w : World) : World :=
  match guards w !! g with
  | Some gd =>
      set_routeListeners (filter (λ g', g' ≠ g) (routeListeners w))
        (set_guards (<[g := mkGuard (fragment gd) true (callback gd) (failback gd)]>
                       (guards w)) w)
  | None => w
  end.

(** The part of the state [loadStart], [fetchQueue] and [sync] leave alone. *)
Definition kept (w w' : World) : Prop :=
  isPopulated w' = isPopulated w ∧ _aborted w' = _aborted w ∧
  objects w' = objects w ∧ guards w' = guards w ∧
  routeListeners w' = routeListeners w ∧ history_fragment w' = history_fragment w.

(** Induction over handlers, reaching under the wrapped [complete]. *)
Fixpoint Slot_induction (P : Slot → Prop)
    (HFn : ∀ f, P (SFn f))
    (HTrigger : ∀ g, P (STrigger g))
    (HNone : P (SComplete None))
    (HSome : ∀ c, P c → P (SComplete (Some c)))
    (s : Slot) : P s :=
  match s with
  | SFn f => HFn f
  | STrigger g => HTrigger g
  | SComplete None => HNone
  | SComplete (Some c) => HSome c (Slot_induction P HFn HTrigger HNone HSome c)
  end.

(** How many [fetch] wrappers a handler carries. *)
Fixpoint wraps (s : Slot) : nat :=
  match s with
  | SComplete c => S (from_option wraps 0 c)
  | _ => 0
  end.

(** The queue, the stores and the requests: what no callback touches. *)
Definition stable (w w' : World) : Prop :=
  this_fetchQueue w' = this_fetchQueue w ∧ queues w' = queues w ∧
  objects w' = objects w ∧ requests w' = requests w ∧
  nextRequest w' = nextRequest w.

End DataLoad.

(* ===================================================================== *)
(** * Further vocabulary for the load handler *)
(* ===================================================================== *)

Module LoadHandlerMore.
Import LoadHandler.

(** The end delay an object uses: its own, or the one of
    [Thorax.View.prototype]. *)
Definition endDelay (w : World) : nat :=
  default View_loadingTimeoutEndDuration (_loadingTimeoutEndDuration w).

Definition is_start (t : Timer) : bool :=
  match action t with
  | StartAction => true
  | EndAction _ => false
  end.

Definition is_end (t : Timer) : bool := negb (is_start t).

Definition starts (w : World) : list Timer := filter (λ t, is_start t = true) (timers w).
Definition ends (w : World) : list Timer := filter (λ t, is_end t = true) (timers w).

(** What reachable states keep besides [Inv]: at most one start timer and
    one end timer are pending; the handles recorded in the signal are
    handles already given out, and differ; and a signal with nothing
    pending has its end timer armed, due within the end delay. *)
Definition Tidy (w : World) : Prop :=
  length (starts w) ≤ 1 ∧ length (ends w) ≤ 1 ∧
  match _loadStart w with
  | None => True
  | Some s =>
      timeout s < nextTimer w ∧
      (∀ id, endTimeout s = Some id → id < nextTimer w ∧ id ≠ timeout s) ∧
      (bound w = [] →
       ∃ t, t ∈ timers w ∧ action t = EndAction (events s) ∧ due t ≤ now w + endDelay w)
  end.

(** The states of a single load that outlasts the start delay: shown
    (start timer fired), hiding (source ended, end timer pending), hidden. *)
Definition shown (d e : option nat) (msg : option string) (bg : bool) (o : Obj) (n : nat)
  : World :=
  mkWorld (Some (mkSignal 0 1 None msg bg true)) d e [[o]] [o] [] 2 n
    [OnStart msg bg; Created].

Definition hiding (d e : option nat) (msg : option string) (bg : bool) (t n : nat) : World :=
  mkWorld (Some (mkSignal 0 1 (Some 2) msg bg true)) d e [[]] []
    [mkTimer 2 (t + default View_loadingTimeoutEndDuration e) (EndAction 0)]
    3 n [OnStart msg bg; Created].

Definition hidden (d e : option nat) (msg : option string) (bg : bool) (n : nat) : World :=
  mkWorld None d e [[]] [] [] 3 n
    [Discarded; SignalLoadEnd; OnEnd bg; OnStart msg bg; Created].

(** The state while [load:start] events gather before any time passes:
    one signal, the sources [os] pending, the start timer [id] due at
    [due]. *)
Definition gathering (d e : option nat) (msg : option string) (bg : bool)
    (os : list Obj) (id nx due : nat) : World :=
  mkWorld (Some (mkSignal 0 id None msg bg false)) d e [os] os
    [mkTimer id due StartAction] nx 0 [Created].

(** A [load:start] event as message, background flag and source. *)
Definition Start : Type := option string * bool * Obj.

Definition start_input (x : Start) : Input := LoadStart x.1.1 x.1.2 x.2.

(** An episode in which [onStart] ran is discarded only after [onEnd] and
    the signal's own [load:end], in that order. *)
Definition paired (l : list Call) : Prop :=
  ∀ newer older,
    l = newer ++ Discarded :: older →
    (∃ m b, OnStart m b ∈ episode older) →
    ∃ bg older', older = SignalLoadEnd :: OnEnd bg :: older'.

Definition is_start_call (b : bool) (c : Call) : bool :=
  match c with
  | OnStart _ b' => Bool.eqb b' b
  | _ => false
  end.

(** How often [onStart] was called with [background = b]. *)
Definition starts_called (b : bool) (l : list Call) : nat :=
  length (filter (λ c, is_start_call b c = true) l).

Definition once_each (l : list Call) : Prop :=
  ∀ newer older b, l = newer ++ older → starts_called b (episode older) ≤ 1.

(** While the signal is background no non-background [onStart] has run in
    its episode, and a pending start timer has not run yet for the
    signal's current background flag. *)
Definition Paced (w : World) : Prop :=
  once_each (log w) ∧
  match _loadStart w with
  | None => True
  | Some s =>
      (background s = true → starts_called false (episode (log w)) = 0) ∧
      (starts w ≠ [] → starts_called (background s) (episode (log w)) = 0)
  end.

End LoadHandlerMore.

(* ===================================================================== *)
(** * The view's loading class and its forwarding to [exports] *)
(* ===================================================================== *)

Module ViewLoad.
Import LoadHandler.

(** What [onLoadStart] and [onLoadEnd] read and write: the view's
    [nonBlockingLoad] and [_loadingClassName], the class list of
    [this.el], and the [load:start] events triggered on [exports] (message
    and background flag, newest first; the object passed along is always
    the signal). *)
Record View := mkView {
  nonBlockingLoad : bool;
  _loadingClassName : string;
  el : list string;
  exports_log : list (option string * bool)
}.

Definition set_el (l : list string) (v : View) : View :=
  mkView (nonBlockingLoad v) (_loadingClassName v) l (exports_log v).

Definition exports_trigger (msg : option string) (bg : bool) (v : View) : View :=
  mkView (nonBlockingLoad v) (_loadingClassName v) (el v) ((msg, bg) :: exports_log v).

(** [$(el).addClass(c)] and [$(el).removeClass(c)] for a single class
    name: a class is added only when absent, and every occurrence is
    removed. *)
Definition addClass (c : string) (l : list string) : list string :=
  if decide (c ∈ l) then l else l ++ [c].

Definition removeClass (c : string) (l : list string) : list string :=
  filter (λ x, x ≠ c) l.

Definition onLoadStart (msg : option string) (bg : bool) (v : View) : View :=
  let v1 := if negb (nonBlockingLoad v) && negb bg
            then exports_trigger msg bg v
            else v in
  set_el (addClass (_loadingClassName v1) (el v1)) v1.

Definition onLoadEnd (v : View) : View :=
  set_el (removeClass (_loadingClassName v) (el v)) v.

(** The view registers [Thorax.loadHandler] with [onLoadStart] as start
    callback and [onLoadEnd] as end callback; the other entries of the call
    log do not reach the view. *)
Definition view_call (c : Call) (v : View) : View :=
  match c with
  | OnStart msg bg => onLoadStart msg bg v
  | OnEnd _ => onLoadEnd v
  | _ => v
  end.

(** The view after the calls of a log (newest first). *)
Definition view_after (l : list Call) (v : View) : View := foldr view_call v l.

End ViewLoad.

(* ===================================================================== *)
(** * Further vocabulary for the data-object overrides *)
(* ===================================================================== *)

Module DataLoadMore.
Import DataLoad.

(** Induction over transport handlers, reaching under the wrapped
    [complete] of [Thorax.sync]. *)
Fixpoint Transport_induction (P : Transport → Prop)
    (HFlush : ∀ q h, P (TFlush q h))
    (HNone : P (TSync None))
    (HSome : ∀ c, P c → P (TSync (Some c)))
    (t : Transport) : P t :=
  match t with
  | TFlush q h => HFlush q h
  | TSync None => HNone
  | TSync (Some c) => HSome c (Transport_induction P HFlush HNone HSome c)
  end.

Definition is_abort (e : Event) : bool :=
  match e with
  | Aborted _ => true
  | _ => false
  end.

Definition is_exportsStart (e : Event) : bool :=
  match e with
  | Triggered Exports ev _ => bool_decide (ev = "load:start")
  | _ => false
  end.

(** With no request outstanding, nothing is aborted and [_aborted] stays. *)
Definition calm (w w' : World) : Prop :=
  _request w' = None ∧ _aborted w' = _aborted w ∧
  count_if is_abort (log w') = count_if is_abort (log w).

(** What [fetch] leaves in the caller's options object. *)
Definition wrapped (x : Options) : Options :=
  mkOptions (success x) (error x) (Some (SComplete (complete x))) (background x) (resetQueue x).

(** The state [load(callback, failback)] leaves behind when called with no
    options on an unpopulated object with no fetch in flight: two options
    objects, a guard and its route listener, one queue and one request. The
    one-shot forwarder [load] binds has fired and is gone. *)
Definition loading (w : World) (cb : Fn) (fb : option Fn) : World :=
  let o := length (objects w) in
  let g := length (guards w) in
  let q := length (queues w) in
  let r := nextRequest w in
  let args := [VUndefined; VUndefined; VThis] in
  mkWorld false (Some q) (Some r) (_aborted w)
    (queues w ++ [[S o]])
    (objects w ++
       [emptyOptions;
        mkOptions (Some (STrigger g)) (Some (SFn (Bound (LoadFailback fb) true)))
          (Some (SComplete None)) VUndefined false])
    (guards w ++
       [mkGuard (history_fragment w) false cb (Some (Bound (LoadFailback fb) false))])
    (routeListeners w ++ [g])
    (history_fragment w)
    (filter (λ once, once = false) (forwards w))
    (requests w ++
       [mkRequest r (Some (TFlush q OnSuccess)) (Some (TFlush q OnError))
          (Some (TSync (Some (TFlush q OnComplete))))])
    (S r)
    (Triggered This "request" [VData r] :: Requested r ::
       ((λ _ : bool, Triggered Exports "load:start" args) <$> (forwards w ++ [true])) ++
       Triggered This "load:start" args :: log w).

(** The load events a data object triggers on itself, as a listener
    bound to it sees them. [fetch] passes no message. *)
Inductive LoadEvent := Started (background : Val) | Ended.

Definition load_event (e : Event) : option LoadEvent :=
  match e with
  | Triggered This ev args =>
      if bool_decide (ev = "load:start")
      then match args with
           | [VUndefined; bg; VThis] => Some (Started bg)
           | _ => None
           end
      else if bool_decide (ev = "load:end") then Some Ended else None
  | _ => None
  end.

(** The load events of a log (newest first), oldest first. *)
Definition load_events (l : list Event) : list LoadEvent := omap load_event (rev l).

(** ** Sequences of operations *)

(** What can happen to a data object and its surroundings: a caller makes
    an options object, calls [fetch] or [load], the transport runs a
    handler, [Backbone.history] triggers [route], or the fragment changes. *)
Inductive Op :=
| NewOptions (x : Options)
| Fetch (options : option Ref)
| Load (callback : Fn) (failback : option Fn) (options : option Ref)
| Respond (t : Transport) (args : list Val)
| Route (args : list Val)
| Goto (fragment : string).

Definition apply_op (w : World) (op : Op) : World :=
  match op with
  | NewOptions x => (alloc x w).2
  | Fetch options => fetch options w
  | Load cb fb options => load cb fb options w
  | Respond t args => call_transport t args w
  | Route args => trigger_route args w
  | Goto f => set_fragment f w
  end.

Definition run (ops : list Op) (w : World) : World := foldl apply_op w ops.

(** One request per queue, carrying the flushers of that queue; the active
    queue is the newest one; no queue is empty. *)
Definition Queued (w : World) : Prop :=
  length (requests w) = length (queues w) ∧
  (∀ i r, requests w !! i = Some r →
     rsuccess r = Some (TFlush i OnSuccess) ∧ rerror r = Some (TFlush i OnError) ∧
     rcomplete r = Some (TSync (Some (TFlush i OnComplete)))) ∧
  (∀ q, this_fetchQueue w = Some q → S q = length (queues w)) ∧
  (∀ q l, queues w !! q = Some l → l ≠ []).

(** A guard listens to [route] exactly while it has not completed. *)
Definition Guarded (w : World) : Prop :=
  NoDup (routeListeners w) ∧
  ∀ g, g ∈ routeListeners w ↔ (completed <$> (guards w !! g)) = Some false.

(** ** The first resolution of a guard *)







(** ** Callers of [fetch] *)

(** A caller of [fetch] who passes an options object of its own, written
    out in the call: the functions it gives as [success], [error] and
    [complete], if any, and [background]. *)
Record Caller := mkCaller {
  on_success : option string;
  on_error : option string;
  on_complete : option string;
  caller_background : Val
}.

Definition options_of (c : Caller) : Options :=
  mkOptions ((λ n, SFn (User n)) <$> on_success c) ((λ n, SFn (User n)) <$> on_error c)
    ((λ n, SFn (User n)) <$> on_complete c) (caller_background c) false.

(** [this.fetch({success: ..., error: ..., complete: ..., background: ...})] *)
Definition fetch_with (c : Caller) (w : World) : World :=
  let '(o, w1) := alloc (options_of c) w in
  fetch (Some o) w1.

(** The call of a caller's function, if it gave one. *)
Definition called (name : option string) (args : list Val) : list Event :=
  from_option (λ n, [Called n args]) [] name.

(** What one caller sees when its [complete] runs: its own function, then
    the [load:end] of the wrapper [fetch] installed. *)
Definition completed_call (c : Caller) (args : list Val) : list Event :=
  called (on_complete c) args ++ [Triggered This "load:end" [VThis]].

(** The state after the callers [cs] have called [fetch] on an object that
    was idle in [w]. *)
Definition fetched (w : World) (cs : list Caller) (w' : World) : Prop :=
  objects w' = objects w ++ ((λ c, wrapped (options_of c)) <$> cs) ∧
  this_fetchQueue w' = Some (length (queues w)) ∧
  queues w' !! length (queues w) = Some (seq (length (objects w)) (length cs)) ∧
  requests w' = requests w ++
    [mkRequest (nextRequest w) (Some (TFlush (length (queues w)) OnSuccess))
       (Some (TFlush (length (queues w)) OnError))
       (Some (TSync (Some (TFlush (length (queues w)) OnComplete))))] ∧
  count_if is_Requested (log w') = 1 + count_if is_Requested (log w).

End DataLoadMore.

(* ===================================================================== *)
(** * A view bound to a model or collection *)
(* ===================================================================== *)

Module ViewModel.

(** The [model] and [collection] entries of [Thorax.View.registerEvents]
    re-trigger the data object's [load:start] on the view, with the data
    object as [object]: the view's handler sees every load of the object
    as coming from the one source [m], and binds its [endCallback] to the
    object's [load:end]. *)
Definition view_input (m : nat) (ev : DataLoadMore.LoadEvent) : LoadHandler.Input :=
  match ev with
  | DataLoadMore.Started bg => LoadHandler.LoadStart None (DataLoad.truthy bg) m
  | DataLoadMore.Ended => LoadHandler.LoadEnd m
  end.

Definition view_inputs (m : nat) (l : list DataLoad.Event) : list LoadHandler.Input :=
  view_input m <$> DataLoadMore.load_events l.

End ViewModel.

(* ===================================================================== *)
(** * Properties of the load handler *)
(* ===================================================================== *)

Module LoadHandlerFacts.
Import LoadHandler.

(** A load longer than the start delay, one that beats both timers, and
    one that ends within the start delay but too late for the end timer. *)

Example example_slow_load :
  log <$> exec [LoadStart None false 7; Elapse 400; LoadEnd 7; Elapse 100] (init None None)
  = Some [Discarded; SignalLoadEnd; OnEnd false; OnStart None false; Created].
Proof. reflexivity. Qed.

Example example_quick_load :
  log <$> exec [LoadStart None false 7; Elapse 100; LoadEnd 7; Elapse 100] (init None None)
  = Some [Discarded; Created].
Proof. reflexivity. Qed.

Example example_late_end :
  log <$> exec [LoadStart None false 7; Elapse 300; LoadEnd 7; Elapse 100] (init None None)
  = Some [Discarded; SignalLoadEnd; OnEnd false; OnStart None false; Created].
Proof. reflexivity. Qed.

(** ** The invariant of reachable states *)

Lemma count_pos_elem o l : 0 < count o l → o ∈ l.
Proof.
  unfold count. induction l as [|x l IH]; simpl; [lia|].
  rewrite filter_cons. destruct (decide (x = o)) as [->|]; simpl.
  - intros _. left.
  - intros H. right. auto.
Qed.

Lemma count_remove_first o l : count o (remove_first o l) = pred (count o l).
Proof.
  unfold count. induction l as [|x l IH]; simpl; [done|].
  rewrite filter_cons. destruct (decide (o = x)) as [->|Hne].
  - rewrite decide_True by done. done.
  - rewrite decide_False by congruence. rewrite filter_cons.
    rewrite decide_False by congruence. done.
Qed.

Lemma remove_first_other o x l : x ≠ o → x ∈ l → x ∈ remove_first o l.
Proof.
  intros Hne. induction l as [|y l IH]; simpl; [done|].
  intros Hin. destruct (decide (o = y)) as [->|].
  - apply elem_of_cons in Hin as [->|]; [done | done].
  - apply elem_of_cons in Hin as [->|]; [left | right; auto].
Qed.

Lemma starts_only_clear id ts : starts_only id ts → filter (λ t, tid t ≠ id) ts = [].
Proof.
  induction 1 as [|t ts [_ Ht] _ IH]; [done|].
  rewrite filter_cons. rewrite decide_False by (intros ?; congruence). done.
Qed.

Lemma timer_ok_nonempty b s ts :
  b ≠ [] → Forall (timer_ok b s) ts → starts_only (timeout s) ts.
Proof.
  intros Hb Hall. unfold starts_only. eapply Forall_impl; [exact Hall|].
  intros t. unfold timer_ok.
  destruct (action t); [done|]. intros (_ & _ & ?). done.
Qed.

Lemma starts_only_ok b s ts : starts_only (timeout s) ts → Forall (timer_ok b s) ts.
Proof.
  unfold starts_only. intros Hall. eapply Forall_impl; [exact Hall|].
  intros t [Ha Ht]. unfold timer_ok.
  by rewrite Ha.
Qed.

Lemma timer_ok_clear_end b s ts :
  Forall (timer_ok b s) ts →
  starts_only (timeout s)
    (match endTimeout s with
     | Some id => filter (λ t, tid t ≠ id) ts
     | None => ts
     end).
Proof.
  unfold starts_only. rewrite !Forall_forall. intros H.
  destruct (endTimeout s) as [id|] eqn:He.
  - intros t Ht. apply list_elem_of_filter in Ht as [Hne Ht].
    specialize (H t Ht). unfold timer_ok in H.
    destruct (action t); [done|]. destruct H as (_ & H & _). congruence.
  - intros t Ht. specialize (H t Ht). unfold timer_ok in H.
    destruct (action t); [done|]. destruct H as (_ & H & _). congruence.
Qed.

(** ** One call of the handler *)

Lemma handler_new w msg bg o :
  Inv w → _loadStart w = None →
  let d := default View_loadingTimeoutDuration (_loadingTimeoutDuration w) in
  let w' :=
    mkWorld (Some (mkSignal (length (arrays w)) (nextTimer w) None msg bg false))
      (_loadingTimeoutDuration w) (_loadingTimeoutEndDuration w)
      (arrays w ++ [[o]]) [o]
      [mkTimer (nextTimer w) (now w + d) StartAction]
      (S (nextTimer w)) (now w) (Created :: log w) in
  handler msg bg o w = Some w' ∧ Inv w'.
Proof.
  destruct w as [ls d e arr b ts nx nw lg]. unfold Inv, abs. simpl.
  intros [Hp H] ->. destruct H as [-> ->]. simpl in *.
  unfold handler, startLoadTimeout. simpl.
  rewrite lookup_app_r by lia. rewrite Nat.sub_diag. simpl.
  rewrite insert_app_r_alt by lia. rewrite Nat.sub_diag. simpl.
  split; [done|]. rewrite Hp. simpl. split; [done|]. split.
  - rewrite lookup_app_r by lia. by rewrite Nat.sub_diag.
  - by repeat constructor.
Qed.

Lemma handler_open w s msg bg o :
  Inv w → _loadStart w = Some s →
  ∃ w' s',
    handler msg bg o w = Some w' ∧ Inv w' ∧ _loadStart w' = Some s' ∧
    log w' = log w ∧ bound w' = bound w ++ [o] ∧ now w' = now w ∧
    _loadingTimeoutDuration w' = _loadingTimeoutDuration w ∧
    _loadingTimeoutEndDuration w' = _loadingTimeoutEndDuration w ∧
    events s' = events s ∧ endTimeout s' = endTimeout s ∧
    message s' = msg ∧ run s' = run s ∧
    if negb bg && background s
    then background s' = false ∧ timeout s' = nextTimer w ∧
         nextTimer w' = S (nextTimer w) ∧
         timers w' = [mkTimer (nextTimer w) (now w) StartAction]
    else background s' = background s ∧ timeout s' = timeout s ∧
         nextTimer w' = nextTimer w ∧
         timers w' = timers (clearTimeout_opt (endTimeout s) w) ∧
         starts_only (timeout s) (timers w').
Proof.
  destruct w as [ls d e arr b ts nx nw lg]. unfold Inv, abs. simpl.
  intros [Hp H] ->. destruct s as [ev to eto m sb r]. simpl in *.
  destruct H as [Harr Hts].
  assert (Hev : ev < length arr) by (by eapply lookup_lt_Some).
  pose proof (timer_ok_clear_end _ _ _ Hts) as Hso. simpl in Hso.
  unfold handler. simpl. destruct (negb bg && sb) eqn:Hc.
  - unfold startLoadTimeout. simpl.
    assert (Hnil : filter (λ t, tid t ≠ to)
              (timers (clearTimeout_opt eto (mkWorld (Some (mkSignal ev to eto m sb r))
                 d e arr b ts nx nw lg))) = []).
    { apply starts_only_clear. destruct eto; simpl; done. }
    destruct eto as [id|]; simpl in *; rewrite Hnil; simpl; rewrite Harr; simpl;
      (eexists _, _; split; [reflexivity|]); simpl;
      (repeat split; try done; try (by rewrite list_lookup_insert_eq);
       try (rewrite Nat.add_0_r; done));
      by repeat constructor.
  - destruct eto as [id|]; simpl in *; rewrite Harr; simpl;
      (eexists _, _; split; [reflexivity|]); simpl;
      (repeat split; try done; try (by rewrite list_lookup_insert_eq));
      by apply starts_only_ok.
Qed.

(** ** A source object signals load:end *)

Lemma endCallback_ok w s o :
  Inv w → _loadStart w = Some s → o ∈ bound w →
  ∃ w' s',
    endCallback o w = Some w' ∧ Inv w' ∧ _loadStart w' = Some s' ∧
    same_frame w w' ∧ same_signal s s' ∧
    bound w' = remove_first o (bound w) ∧
    starts_only (timeout s) (timers w) ∧
    match bound w' with
    | [] =>
        let e := default View_loadingTimeoutEndDuration (_loadingTimeoutEndDuration w) in
        timers w' = timers w ++ [mkTimer (nextTimer w) (now w + e) (EndAction (events s))] ∧
        endTimeout s' = Some (nextTimer w) ∧ nextTimer w' = S (nextTimer w)
    | _ :: _ =>
        timers w' = timers w ∧ endTimeout s' = endTimeout s ∧
        nextTimer w' = nextTimer w
    end.
Proof.
  destruct w as [ls d e arr b ts nx nw lg]. unfold Inv, abs, same_frame, same_signal.
  simpl. intros [Hp H] -> Hin. destruct s as [ev to eto m sb r]. simpl in *.
  destruct H as [Harr Hts].
  assert (Hev : ev < length arr) by (by eapply lookup_lt_Some).
  assert (Hb : b ≠ []) by (intros ->; by apply elem_of_nil in Hin).
  pose proof (timer_ok_nonempty _ _ _ Hb Hts) as Hso. simpl in Hso.
  unfold endCallback. simpl. rewrite Harr. simpl.
  destruct (remove_first o b) as [|x b'] eqn:Hrm; simpl.
  - eexists _, _; split; [reflexivity|]. simpl.
    repeat split; try done; try (by rewrite list_lookup_insert_eq).
    apply Forall_app. split.
    + by apply starts_only_ok.
    + repeat constructor.
  - eexists _, _; split; [reflexivity|]. simpl.
    repeat split; try done; try (by rewrite list_lookup_insert_eq).
    by apply starts_only_ok.
Qed.

Lemma dispatch_ok o n : ∀ w,
  Inv w → count o (bound w) = n →
  ∃ w',
    dispatch n o w = Some w' ∧ Inv w' ∧ same_frame w w' ∧
    abs w' = abs w ∧
    (∀ x, x ≠ o → x ∈ bound w → x ∈ bound w').
Proof.
  induction n as [|n IH]; intros w HI Hc; simpl.
  - exists w. unfold same_frame. done.
  - assert (Hin : o ∈ bound w) by (apply count_pos_elem; lia).
    destruct (_loadStart w) as [s|] eqn:Hs.
    2:{ destruct HI as [_ HI]. rewrite Hs in HI. destruct HI as [Hb _].
        rewrite Hb in Hin. by apply elem_of_nil in Hin. }
    destruct (endCallback_ok w s o HI Hs Hin)
      as (w1 & s1 & -> & HI1 & Hs1 & Hf1 & Hss & Hb1 & _). simpl.
    destruct (IH w1 HI1) as (w' & -> & HI' & Hf' & Ha' & Hx').
    { rewrite Hb1, count_remove_first. lia. }
    exists w'. split; [done|]. split; [done|]. split.
    { unfold same_frame in *. intuition congruence. }
    split.
    { rewrite Ha'. unfold abs. rewrite Hs, Hs1.
      destruct Hss as (_ & _ & _ & _ & ->). done. }
    intros x Hne Hx. apply Hx'; [done|]. rewrite Hb1. by apply remove_first_other.
Qed.

(** ** Timers falling due *)

Lemma earliest_elem ts t : earliest ts = Some t → t ∈ ts.
Proof.
  revert t. induction ts as [|t0 ts IH]; simpl; [done|].
  intros t. destruct (earliest ts) as [t'|].
  - destruct (due t' <? due t0); intros [= <-]; [right; auto | left].
  - intros [= <-]. left.
Qed.

Lemma earliest_none ts : earliest ts = None → ts = [].
Proof.
  destruct ts as [|t0 ts]; simpl; [done|].
  destruct (earliest ts) as [t'|]; [destruct (due t' <? due t0)|]; done.
Qed.

Lemma filter_none {A} (P : A → Prop) `{!∀ x, Decision (P x)} (l : list A) :
  Forall (λ x, ¬ P x) l → filter P l = [].
Proof.
  induction 1 as [|x l Hx _ IH]; [done|]. by rewrite filter_cons_False.
Qed.

Lemma earliest_le ts t : earliest ts = Some t → Forall (λ t', due t ≤ due t') ts.
Proof.
  revert t. induction ts as [|t0 ts IH]; simpl; [done|].
  intros t. destruct (earliest ts) as [t'|] eqn:He.
  - specialize (IH t' eq_refl).
    destruct (due t' <? due t0) eqn:Hlt; intros [= <-].
    + apply Nat.ltb_lt in Hlt. constructor; [lia | done].
    + apply Nat.ltb_ge in Hlt. constructor; [lia|].
      eapply Forall_impl; [exact IH|]. simpl. intros; lia.
  - intros [= <-]. apply earliest_none in He as ->. by repeat constructor.
Qed.

Lemma next_due_elem limit ts t : next_due limit ts = Some t → t ∈ ts ∧ due t ≤ limit.
Proof.
  unfold next_due. destruct (earliest ts) as [t'|] eqn:He; simpl; [|done].
  destruct (due t' <=? limit) eqn:Hle; [|done]. intros [= <-].
  split; [by apply earliest_elem | by apply Nat.leb_le].
Qed.

Lemma next_due_none limit ts :
  next_due limit ts = None → Forall (λ t, limit < due t) ts.
Proof.
  unfold next_due. destruct (earliest ts) as [t'|] eqn:He; simpl.
  - destruct (due t' <=? limit) eqn:Hle; [done|]. intros _.
    apply Nat.leb_gt in Hle. eapply Forall_impl; [by apply earliest_le|].
    simpl. intros; lia.
  - intros _. by apply earliest_none in He as ->.
Qed.

(** The start timer fires: [onStart] runs and the episode goes on. *)
Lemma fire_start w t :
  Inv w → t ∈ timers w → action t = StartAction →
  ∃ s,
    _loadStart w = Some s ∧
    let w' :=
      mkWorld (Some (set_run true s))
        (_loadingTimeoutDuration w) (_loadingTimeoutEndDuration w)
        (arrays w) (bound w) (filter (λ t', tid t' ≠ tid t) (timers w))
        (nextTimer w) (now w `max` due t)
        (OnStart (message s) (background s) :: log w) in
    fire t w = Some w' ∧ Inv w'.
Proof.
  destruct w as [ls d e arr b ts nx nw lg]. unfold Inv, abs. simpl.
  intros [Hp H] Hin Ha. destruct ls as [s|].
  2:{ destruct H as [_ ->]. by apply elem_of_nil in Hin. }
  exists s. split; [done|]. unfold fire. rewrite Ha. simpl.
  split; [done|]. destruct s as [ev to eto m sb r]. simpl in *.
  rewrite Hp. simpl. split; [done|]. destruct H as [Harr Hts]. split; [done|].
  apply Forall_forall. intros t' Ht'. apply list_elem_of_filter in Ht' as [_ Ht'].
  rewrite Forall_forall in Hts. specialize (Hts t' Ht').
  unfold timer_ok in *. simpl in *. done.
Qed.

(** The end timer fires: the episode closes, with [onEnd] exactly when the
    start timer had fired. *)
Lemma fire_end w t r :
  Inv w → t ∈ timers w → action t = EndAction r →
  ∃ s,
    _loadStart w = Some s ∧ bound w = [] ∧
    let w' :=
      mkWorld None
        (_loadingTimeoutDuration w) (_loadingTimeoutEndDuration w)
        (arrays w) [] [] (nextTimer w) (now w `max` due t)
        (Discarded ::
           (if run s then [SignalLoadEnd; OnEnd (background s)] else []) ++ log w) in
    fire t w = Some w' ∧ Inv w'.
Proof.
  destruct w as [ls d e arr b ts nx nw lg]. unfold Inv, abs. simpl.
  intros [Hp H] Hin Ha. destruct ls as [s|].
  2:{ destruct H as [_ ->]. by apply elem_of_nil in Hin. }
  exists s. split; [done|]. destruct H as [Harr Hts].
  pose proof Hts as Hall. rewrite Forall_forall in Hall.
  pose proof (Hall t Hin) as Ht. unfold timer_ok in Ht. rewrite Ha in Ht.
  destruct Ht as (-> & Het & ->). split; [done|].
  assert (Hnil : filter (λ t', tid t' ≠ timeout s)
                   (filter (λ t', tid t' ≠ tid t) ts) = []).
  { apply filter_none, Forall_forall. intros t' Ht'.
    apply list_elem_of_filter in Ht' as [Hne Ht'].
    specialize (Hall t' Ht'). unfold timer_ok in Hall.
    destruct (action t'); [intros ?; done|].
    destruct Hall as (_ & Hall & _). congruence. }
  unfold fire. rewrite Ha. unfold endAction. simpl. rewrite Harr. simpl.
  unfold clearTimeout.
  destruct (run s) eqn:Hr; simpl; rewrite Hnil, Hp; done.
Qed.

Lemma fire_ok w t :
  Inv w → t ∈ timers w →
  ∃ w', fire t w = Some w' ∧ Inv w' ∧ length (timers w') < length (timers w).
Proof.
  intros HI Hin. destruct (action t) as [|r] eqn:Ha.
  - destruct (fire_start w t HI Hin Ha) as (s & _ & Hf & HI').
    eexists; split; [exact Hf|]. split; [exact HI'|]. simpl.
    apply (length_filter_lt _ _ t); [done|]. intros ?; done.
  - destruct (fire_end w t r HI Hin Ha) as (s & _ & _ & Hf & HI').
    eexists; split; [exact Hf|]. split; [exact HI'|]. simpl.
    destruct (timers w); [by apply elem_of_nil in Hin | simpl; lia].
Qed.

Lemma run_timers_ok limit fuel : ∀ w,
  Inv w →
  ∃ w',
    run_timers fuel limit w = Some w' ∧ Inv w' ∧
    (length (timers w) ≤ fuel → next_due limit (timers w') = None).
Proof.
  induction fuel as [|fuel IH]; intros w HI; simpl.
  - exists w. split; [done|]. split; [done|]. intros Hlen.
    destruct (timers w); [done | simpl in Hlen; lia].
  - destruct (next_due limit (timers w)) as [t|] eqn:Hn.
    + apply next_due_elem in Hn as [Hin _].
      destruct (fire_ok w t HI Hin) as (w1 & -> & HI1 & Hlt). simpl.
      destruct (IH w1 HI1) as (w' & -> & HI' & Hdone).
      exists w'. split; [done|]. split; [done|]. intros Hlen. apply Hdone. lia.
    + exists w. done.
Qed.

Lemma Inv_set_now t w : Inv w → Inv (set_now t w).
Proof. destruct w. unfold Inv, abs. simpl. done. Qed.

(** Time passes: every timer due by then has run when [elapse] returns. *)
Lemma elapse_ok ms w :
  Inv w →
  ∃ w',
    elapse ms w = Some w' ∧ Inv w' ∧ now w' = now w + ms ∧
    Forall (λ t, now w' < due t) (timers w').
Proof.
  intros HI. unfold elapse.
  destruct (run_timers_ok (now w + ms) (length (timers w)) w HI)
    as (w1 & -> & HI1 & Hdone). simpl.
  eexists; split; [done|]. split; [by apply Inv_set_now|].
  destruct w1; simpl in *. split; [done|].
  apply next_due_none, Hdone. done.
Qed.

Lemma trigger_loadEnd_ok o w :
  Inv w →
  ∃ w',
    trigger_loadEnd o w = Some w' ∧ Inv w' ∧ same_frame w w' ∧
    abs w' = abs w ∧
    (∀ x, x ≠ o → x ∈ bound w → x ∈ bound w').
Proof. intros HI. by apply dispatch_ok. Qed.

Lemma handler_ok msg bg o w : Inv w → ∃ w', handler msg bg o w = Some w' ∧ Inv w'.
Proof.
  intros HI. destruct (_loadStart w) as [s|] eqn:Hs.
  - destruct (handler_open w s msg bg o HI Hs) as (w' & s' & Hh & HI' & _). eauto.
  - destruct (handler_new w msg bg o HI Hs) as [Hh HI']. eauto.
Qed.

Lemma step_ok i w : Inv w → ∃ w', step i w = Some w' ∧ Inv w'.
Proof.
  intros HI. destruct i as [msg bg o|o|ms]; simpl.
  - by apply handler_ok.
  - destruct (trigger_loadEnd_ok o w HI) as (w' & ? & ? & _). eauto.
  - destruct (elapse_ok ms w HI) as (w' & ? & ? & _). eauto.
Qed.

(** No sequence of inputs makes the handler or a timer throw. *)
Lemma exec_ok ins : ∀ w, Inv w → ∃ w', exec ins w = Some w' ∧ Inv w'.
Proof.
  induction ins as [|i ins IH]; intros w HI; simpl; [eauto|].
  destruct (step_ok i w HI) as (w1 & -> & HI1). simpl. by apply IH.
Qed.

Lemma init_Inv d e : Inv (init d e).
Proof. unfold Inv, abs, init. simpl. done. Qed.

(** ** Reading episodes off the log *)

Lemma phase_suffix newer l p : phase (newer ++ l) = Some p → ∃ q, phase l = Some q.
Proof.
  revert p. induction newer as [|c newer IH]; intros p; simpl; [eauto|].
  destruct (phase (newer ++ l)) as [q|] eqn:Hq; simpl; [|done].
  intros _. by eapply IH.
Qed.

Lemma phase_episode l : ∀ p,
  phase l = Some p →
  match p with
  | Idle => True
  | Open false => episode l = []
  | Open true =>
      (∃ m b, OnStart m b ∈ episode l) ∧ (∀ b, OnEnd b ∉ episode l)
  | Ended => ∃ m b, OnStart m b ∈ episode l
  end.
Proof.
  induction l as [|c l IH]; intros p; simpl.
  - intros [= <-]. done.
  - destruct (phase l) as [q|]; simpl; [|done]. specialize (IH q eq_refl).
    destruct c as [|m b|b| |], q as [|[]|]; simpl; intros [= <-]; try done.
    + destruct IH as [(m' & b' & Hin) Hno]. split.
      * exists m, b. left.
      * intros b0 Hb. apply elem_of_cons in Hb as [?|Hb]; [done|]. by eapply Hno.
    + rewrite IH. split.
      * exists m, b. left.
      * intros b0 Hb. apply elem_of_cons in Hb as [?|Hb]; [done|].
        by apply elem_of_nil in Hb.
    + destruct IH as [(m' & b' & Hin) _]. exists m', b'. by right.
    + destruct IH as (m' & b' & Hin). exists m', b'. by right.
Qed.

(** C1. Whatever [load:start] and [load:end] events reach one object and
    however time passes, nothing throws, and in the call log every [onEnd]
    has an [onStart] before it in its own episode and no other [onEnd]
    there; an episode that is discarded without an [onStart] made no call
    at all. *)
Theorem onEnd_once_and_only_after_onStart (d e : option nat) (ins : list Input) :
  ∃ w,
    exec ins (init d e) = Some w ∧
    (∀ newer bg older,
        log w = newer ++ OnEnd bg :: older →
        (∃ m b, OnStart m b ∈ episode older) ∧ (∀ b, OnEnd b ∉ episode older)) ∧
    (∀ newer older,
        log w = newer ++ Discarded :: older →
        (∀ m b, OnStart m b ∉ episode older) → episode older = []).
Proof.
  destruct (exec_ok ins (init d e) (init_Inv d e)) as (w & Hw & [Hp _]).
  exists w. split; [done|]. split.
  - intros newer bg older Hlog. rewrite Hlog in Hp.
    apply phase_suffix in Hp as [q Hq]. simpl in Hq.
    destruct (phase older) as [p|] eqn:Hold; simpl in Hq; [|done].
    destruct p as [|[]|]; simpl in Hq; try done.
    exact (phase_episode older _ Hold).
  - intros newer older Hlog Hno. rewrite Hlog in Hp.
    apply phase_suffix in Hp as [q Hq]. simpl in Hq.
    destruct (phase older) as [p|] eqn:Hold; simpl in Hq; [|done].
    pose proof (phase_episode older _ Hold) as He.
    destruct p as [|[]|]; simpl in Hq; try done.
    destruct He as (m & b & Hin). by destruct (Hno m b).
Qed.

(** ** Episodes with a source still pending *)

Lemma pending_bound w : Inv w → pending w = bound w.
Proof.
  unfold Inv, pending. intros [_ H]. destruct (_loadStart w) as [s|].
  - destruct H as [-> _]. done.
  - by destruct H as [-> _].
Qed.

Lemma bound_signal w x : Inv w → x ∈ bound w → ∃ s, _loadStart w = Some s.
Proof.
  intros [_ H] Hin. destruct (_loadStart w) as [s|]; [eauto|].
  destruct H as [Hb _]. rewrite Hb in Hin. by apply elem_of_nil in Hin.
Qed.

Lemma bound_starts_only w s x :
  Inv w → _loadStart w = Some s → x ∈ bound w → starts_only (timeout s) (timers w).
Proof.
  intros [_ H] Hs Hin. rewrite Hs in H. destruct H as [_ H].
  eapply timer_ok_nonempty; [|exact H]. intros Hb. rewrite Hb in Hin.
  by apply elem_of_nil in Hin.
Qed.

Lemma run_timers_open limit x fuel : ∀ w,
  Inv w → x ∈ bound w →
  ∃ w' new,
    run_timers fuel limit w = Some w' ∧ Inv w' ∧ bound w' = bound w ∧
    log w' = new ++ log w ∧ Forall is_OnStart new.
Proof.
  induction fuel as [|fuel IH]; intros w HI Hx; simpl.
  - exists w, []. done.
  - destruct (next_due limit (timers w)) as [t|] eqn:Hn; [|exists w, []; done].
    apply next_due_elem in Hn as [Hin _].
    destruct (bound_signal w x HI Hx) as [s Hs].
    pose proof (bound_starts_only w s x HI Hs Hx) as Hso.
    unfold starts_only in Hso. rewrite Forall_forall in Hso.
    destruct (Hso t Hin) as [Ha _].
    destruct (fire_start w t HI Hin Ha) as (s0 & Hs0 & Hf & HI1).
    rewrite Hf. simpl. match type of HI1 with Inv ?w1 => destruct (IH w1 HI1 Hx)
      as (w' & new & -> & HI' & Hb' & Hl' & Hnew) end.
    exists w', (new ++ [OnStart (message s0) (background s0)]).
    split; [done|]. split; [done|]. split; [done|]. split.
    + rewrite Hl'. simpl. by rewrite <- app_assoc.
    + apply Forall_app. split; [done|]. repeat constructor. by eexists _, _.
Qed.

Lemma step_open x i w :
  Inv w → x ∈ bound w → i ≠ LoadEnd x →
  ∃ w' new,
    step i w = Some w' ∧ Inv w' ∧ x ∈ bound w' ∧
    log w' = new ++ log w ∧ Forall is_OnStart new.
Proof.
  intros HI Hx Hi. destruct i as [msg bg o|o|ms]; simpl.
  - destruct (bound_signal w x HI Hx) as [s Hs].
    destruct (handler_open w s msg bg o HI Hs)
      as (w' & s' & -> & HI' & _ & Hl & Hb & _).
    exists w', []. split; [done|]. split; [done|]. split.
    + rewrite Hb. apply elem_of_app. by left.
    + done.
  - destruct (trigger_loadEnd_ok o w HI) as (w' & -> & HI' & [Hl _] & _ & Hkeep).
    exists w', []. split; [done|]. split; [done|]. split; [|done].
    apply Hkeep; [|done]. intros ->. done.
  - unfold elapse.
    destruct (run_timers_open (now w + ms) x (length (timers w)) w HI Hx)
      as (w1 & new & -> & HI1 & Hb1 & Hl1 & Hnew). simpl.
    exists (set_now (now w + ms) w1), new.
    split; [done|]. split; [by apply Inv_set_now|].
    destruct w1; simpl in *. rewrite Hb1. done.
Qed.

Lemma exec_open x ins : ∀ w,
  Inv w → x ∈ bound w → LoadEnd x ∉ ins →
  ∃ w' new,
    exec ins w = Some w' ∧ Inv w' ∧ x ∈ bound w' ∧
    log w' = new ++ log w ∧ Forall is_OnStart new.
Proof.
  induction ins as [|i ins IH]; intros w HI Hx Hno; simpl.
  - exists w, []. done.
  - destruct (step_open x i w HI Hx) as (w1 & new1 & -> & HI1 & Hx1 & Hl1 & Hn1).
    { intros ->. apply Hno. left. }
    simpl. destruct (IH w1 HI1 Hx1) as (w' & new & -> & HI' & Hx' & Hl' & Hn').
    { intros Hin. apply Hno. by right. }
    exists w', (new ++ new1). split; [done|]. split; [done|]. split; [done|].
    split; [by rewrite Hl', Hl1, app_assoc | by apply Forall_app].
Qed.

(** C5. In a state reached by any inputs, while a pending source [x] has
    not signalled [load:end] the episode stays open whatever else happens
    (further starts, ends of other sources, time passing): the signal is
    kept with [x] still pending, the only calls made are [onStart], and no
    end timer is left armed. *)
Theorem episode_open_while_source_pending
    (d e : option nat) (ins rest : list Input) (w : World) (x : Obj) :
  exec ins (init d e) = Some w →
  x ∈ pending w →
  LoadEnd x ∉ rest →
  ∃ w' s' new,
    exec rest w = Some w' ∧
    _loadStart w' = Some s' ∧ x ∈ pending w' ∧
    log w' = new ++ log w ∧ Forall is_OnStart new ∧
    Forall (λ t, action t = StartAction) (timers w').
Proof.
  intros Hw Hx Hno.
  destruct (exec_ok ins (init d e) (init_Inv d e)) as (w0 & Hw0 & HI).
  rewrite Hw in Hw0. injection Hw0 as <-.
  rewrite (pending_bound w HI) in Hx.
  destruct (exec_open x rest w HI Hx Hno) as (w' & new & He & HI' & Hx' & Hl & Hn).
  destruct (bound_signal w' x HI' Hx') as [s' Hs'].
  exists w', s', new. split; [done|]. split; [done|].
  split; [by rewrite (pending_bound w' HI')|]. split; [done|]. split; [done|].
  pose proof (bound_starts_only w' s' x HI' Hs' Hx') as Hso.
  eapply Forall_impl; [exact Hso|]. simpl. by intros t [? _].
Qed.

(** Sub-load 7 ends, sub-load 8 starts before the end timer is due, and
    a long time passes: the episode is still open. *)
Lemma episode_open_while_source_pending_witness :
  ∃ w' s' new,
    exec [Elapse 1000; LoadEnd 7; Elapse 1000]
      (mkWorld (Some (mkSignal 0 3 (Some 2) None false false)) None None
         [[8]] [8] [mkTimer 3 50 StartAction] 4 50 [Created]) = Some w' ∧
    _loadStart w' = Some s' ∧ 8 ∈ pending w' ∧
    log w' = new ++ [Created] ∧ Forall is_OnStart new ∧
    Forall (λ t, action t = StartAction) (timers w').
Proof.
  apply (episode_open_while_source_pending None None
           [LoadStart None true 7; Elapse 50; LoadEnd 7; LoadStart None false 8]).
  - reflexivity.
  - apply (bool_decide_unpack _). vm_compute. exact I.
  - apply (bool_decide_unpack _). vm_compute. exact I.
Defined.

(** C6. A non-background [load:start] reaching an object that already has
    a signal: the message is replaced and no end timer stays armed; if the
    signal was background it becomes non-background, the old start timer
    is cleared and a new one is armed (the only pending timer; its delay
    is that of an [undefined] [loadingTimeout]); if the signal was already
    non-background no timer is armed and the start timer handle is kept. *)
Theorem second_start_rearms_only_on_upgrade
    (d e : option nat) (ins : list Input) (w : World) (s : Signal)
    (msg : option string) (o : Obj) :
  exec ins (init d e) = Some w →
  _loadStart w = Some s →
  ∃ w' s',
    handler msg false o w = Some w' ∧ _loadStart w' = Some s' ∧
    message s' = msg ∧ background s' = false ∧
    Forall (λ t, action t = StartAction) (timers w') ∧
    (background s = true →
       timeout s' = nextTimer w ∧
       timers w' = [mkTimer (nextTimer w) (now w + delay_of None) StartAction]) ∧
    (background s = false →
       timeout s' = timeout s ∧ nextTimer w' = nextTimer w ∧
       timers w' = timers (clearTimeout_opt (endTimeout s) w)).
Proof.
  intros Hw Hs.
  destruct (exec_ok ins (init d e) (init_Inv d e)) as (w0 & Hw0 & HI).
  rewrite Hw in Hw0. injection Hw0 as <-.
  destruct (handler_open w s msg false o HI Hs)
    as (w' & s' & Hh & HI' & Hs' & _ & _ & _ & _ & _ & _ & _ & Hm & _ & Hc).
  exists w', s'. split; [done|]. split; [done|]. split; [done|].
  destruct (background s) eqn:Hb; simpl in Hc.
  - destruct Hc as (Hb' & Ht & _ & Hts). split; [done|]. split.
    { rewrite Hts. by repeat constructor. }
    split; [|done]. intros _. unfold delay_of. simpl. by rewrite Nat.add_0_r.
  - destruct Hc as (Hb' & Ht & Hn & Hts & Hso). split; [done|]. split.
    { eapply Forall_impl; [exact Hso|]. simpl. by intros t [? _]. }
    split; [done|]. intros _. done.
Qed.

(** A background load is pending and its end timer is armed when a
    blocking load joins. *)
Lemma second_start_rearms_only_on_upgrade_witness :
  let s := mkSignal 0 1 (Some 2) None true false in
  let w := mkWorld (Some s) None None [[]] []
             [mkTimer 1 330 StartAction; mkTimer 2 150 (EndAction 0)]
             3 50 [Created] in
  ∃ w' s',
    handler (Some "saving") false 8 w = Some w' ∧ _loadStart w' = Some s' ∧
    message s' = Some "saving" ∧ background s' = false ∧
    Forall (λ t, action t = StartAction) (timers w') ∧
    (background s = true →
       timeout s' = nextTimer w ∧
       timers w' = [mkTimer (nextTimer w) (now w + delay_of None) StartAction]) ∧
    (background s = false →
       timeout s' = timeout s ∧ nextTimer w' = nextTimer w ∧
       timers w' = timers (clearTimeout_opt (endTimeout s) w)).
Proof.
  intros s w.
  apply (second_start_rearms_only_on_upgrade None None
           [LoadStart None true 7; Elapse 50; LoadEnd 7] w s (Some "saving") 8);
    reflexivity.
Defined.

(** ** A load that ends before the start timer is due *)

Lemma next_due_idle limit ts : Forall (λ t, limit < due t) ts → next_due limit ts = None.
Proof.
  intros Hall. unfold next_due. destruct (earliest ts) as [t|] eqn:He; simpl; [|done].
  apply earliest_elem in He. rewrite Forall_forall in Hall. specialize (Hall t He).
  apply Nat.leb_gt in Hall. by rewrite Hall.
Qed.

Lemma elapse_idle ms w :
  Forall (λ t, now w + ms < due t) (timers w) →
  elapse ms w = Some (set_now (now w + ms) w).
Proof.
  intros Hall. unfold elapse. apply next_due_idle in Hall.
  destruct (timers w) eqn:Hts; simpl; [done|]. rewrite Hts, Hall. done.
Qed.

Lemma exec_step i ins w w1 : step i w = Some w1 → exec (i :: ins) w = exec ins w1.
Proof. intros H. simpl. by rewrite H. Qed.

Lemma handler_init d e msg bg o :
  handler msg bg o (init d e) = Some (started d e msg bg o 0).
Proof. reflexivity. Qed.

Lemma elapse_started d e msg bg o n ms :
  n + ms < default View_loadingTimeoutDuration d →
  elapse ms (started d e msg bg o n) = Some (started d e msg bg o (n + ms)).
Proof.
  intros Hlt. rewrite elapse_idle; [done|]. by repeat constructor.
Qed.

Lemma end_started d e msg bg o n :
  trigger_loadEnd o (started d e msg bg o n) = Some (ending d e msg bg n n).
Proof.
  unfold trigger_loadEnd, started. simpl. rewrite filter_cons_True by done. simpl.
  unfold endCallback. simpl. rewrite decide_True by done. simpl. done.
Qed.

Lemma elapse_ending d e msg bg t n ms :
  t + default View_loadingTimeoutEndDuration e < default View_loadingTimeoutDuration d →
  elapse ms (ending d e msg bg t n) =
  Some (if n + ms <? t + default View_loadingTimeoutEndDuration e
        then ending d e msg bg t (n + ms)
        else ended d e (n + ms)).
Proof.
  intros Hlt. destruct (n + ms <? t + _) eqn:Hc.
  - apply Nat.ltb_lt in Hc. rewrite elapse_idle; [done|]. simpl.
    repeat constructor; simpl; lia.
  - apply Nat.ltb_ge in Hc. unfold elapse, ending. simpl. unfold next_due. simpl.
    apply Nat.ltb_lt in Hlt. rewrite Hlt. simpl.
    apply Nat.leb_le in Hc. rewrite Hc. simpl. unfold fire. simpl.
    reflexivity.
Qed.

Lemma exec_ended d e waits : ∀ n,
  ∃ n', exec (map Elapse waits) (ended d e n) = Some (ended d e n').
Proof.
  induction waits as [|ms waits IH]; intros n; [simpl; eauto|].
  cbn [map exec step]. rewrite elapse_idle by constructor. simpl. apply IH.
Qed.

Lemma exec_ending d e msg bg t waits : ∀ n,
  t + default View_loadingTimeoutEndDuration e < default View_loadingTimeoutDuration d →
  ∃ w, exec (map Elapse waits) (ending d e msg bg t n) = Some w ∧ callbacks w = [].
Proof.
  induction waits as [|ms waits IH]; intros n Hlt; [simpl; eauto|].
  cbn [map exec step]. rewrite elapse_ending by done. simpl.
  destruct (n + ms <? t + _).
  - by apply IH.
  - destruct (exec_ended d e waits (n + ms)) as [n' ->]. eauto.
Qed.

(** One [load:start], then the [load:end] of its source [t] ms later, then
    only time passing: if [t] plus the end delay is less than the start
    delay, the end timer falls due first, clears the start timer, and
    neither [onStart] nor [onEnd] is ever called. *)
Theorem fast_load_makes_no_call
    (d e : option nat) (msg : option string) (bg : bool) (o : Obj)
    (t : nat) (waits : list nat) :
  t + default View_loadingTimeoutEndDuration e < default View_loadingTimeoutDuration d →
  ∃ w,
    exec (LoadStart msg bg o :: Elapse t :: LoadEnd o :: map Elapse waits) (init d e)
      = Some w ∧
    callbacks w = [].
Proof.
  intros Hlt.
  rewrite (exec_step (LoadStart msg bg o) _ _ _ (handler_init d e msg bg o)).
  rewrite (exec_step (Elapse t) _ _ (started d e msg bg o (0 + t))).
  2:{ apply elapse_started. lia. }
  rewrite (exec_step (LoadEnd o) _ _ _ (end_started d e msg bg o (0 + t))).
  by apply (exec_ending d e msg bg t waits t).
Qed.

Lemma fast_load_makes_no_call_witness :
  ∃ w,
    exec (LoadStart None false 7 :: Elapse 100 :: LoadEnd 7 :: map Elapse [50; 50; 1000])
      (init None None) = Some w ∧
    callbacks w = [].
Proof.
  apply (fast_load_makes_no_call None None None false 7 100 [50; 50; 1000]).
  vm_compute. lia.
Defined.

(** C3. With the default delays (330 ms and 100 ms), one [load:start] and
    the [load:end] of its source 300 ms later, within the start delay: the
    start timer is cleared only inside the end timer's action, which is due
    at 400 ms, so it still fires at 330 ms. [onStart] is called, and then
    [onEnd], for a load that ended before the start delay had passed. *)
Lemma end_within_start_delay_still_calls :
  300 < View_loadingTimeoutDuration ∧
  ∃ w,
    exec [LoadStart None false 7; Elapse 300; LoadEnd 7; Elapse 30; Elapse 70]
      (init None None) = Some w ∧
    callbacks w = [OnEnd false; OnStart None false].
Proof.
  split; [unfold View_loadingTimeoutDuration; lia|].
  eexists; split; vm_compute; reflexivity.
Qed.

End LoadHandlerFacts.

(* ===================================================================== *)
(** * Properties of the fetch queue, the route guard and load *)
(* ===================================================================== *)

Module DataLoadFacts.
Import DataLoad.

#[local] Arguments loadData : simpl never.
#[local] Arguments fetch : simpl never.
#[local] Arguments fetchQueue : simpl never.
#[local] Arguments finalizer : simpl never.

(** ** What calling a function can change *)

Lemma frame_refl w : frame w w.
Proof. unfold frame. done. Qed.

Lemma frame_trans w1 w2 w3 : frame w1 w2 → frame w2 w3 → frame w1 w3.
Proof. unfold frame. intuition congruence. Qed.

Lemma quiet_refl w : quiet w w.
Proof. by exists []. Qed.

Lemma quiet_trans w1 w2 w3 : quiet w1 w2 → quiet w2 w3 → quiet w1 w3.
Proof.
  intros (n1 & H1 & F1) (n2 & H2 & F2). exists (n2 ++ n1). split.
  - by rewrite H2, H1, app_assoc.
  - by apply Forall_app.
Qed.

Lemma maybe_abort_frame (b : bool) w :
  let w1 := if b then w
            else match _request w with
                 | Some r => add_log (Aborted r) (set_aborted (Some true) w)
                 | None => w
                 end in
  frame w w1 ∧ quiet w w1.
Proof.
  destruct b; simpl; [split; [apply frame_refl|apply quiet_refl]|].
  destruct w as [p q [r|] a qs os gs ls fr fw rs n l]; simpl.
  - split; [unfold frame; simpl; done|]. exists [Aborted r]. simpl.
    split; [done|]. by repeat constructor.
  - split; [apply frame_refl|apply quiet_refl].
Qed.

Lemma call_fn_frame f : ∀ args w, frame w (call_fn f args w) ∧ quiet w (call_fn f args w).
Proof.
  induction f as [name|f flag IH| |f IH] using Fn_induction; intros args w; simpl.
  - destruct w. split; [unfold frame; simpl; done|]. exists [Called name args]. simpl.
    split; [done|]. by repeat constructor.
  - apply IH.
  - apply maybe_abort_frame.
  - destruct (maybe_abort_frame (truthy (hd VUndefined args)) w) as [HF1 HQ1].
    simpl in HF1, HQ1.
    match goal with |- context [call_fn f args ?w1] =>
      destruct (IH args w1) as [HF HQ] end.
    split; [by eapply frame_trans | by eapply quiet_trans].
Qed.

(** ** The finalizer *)

Lemma finalizer_pending g gd isCanceled args w :
  guards w !! g = Some gd → completed gd = false →
  finalizer g isCanceled args w =
  let same := bool_decide (fragment gd = history_fragment w) in
  if isCanceled && same then w
  else if negb isCanceled && same then call_fn (callback gd) args (finalize g w)
  else from_option (λ fb, call_fn fb args (finalize g w)) (finalize g w) (failback gd).
Proof.
  intros Hg Hc. unfold finalizer, finalize. rewrite Hg, Hc.
  destruct w; simpl.
  destruct (isCanceled && _); [done|].
  destruct (negb isCanceled && _); [done|]. by destruct (failback gd).
Qed.

Lemma finalizer_completed g gd isCanceled args w :
  guards w !! g = Some gd → completed gd = true → finalizer g isCanceled args w = w.
Proof. intros Hg Hc. unfold finalizer. by rewrite Hg, Hc. Qed.

(** ** What issuing or queueing a fetch can change *)

Lemma loadStart_kept m b w : kept w (loadStart m b w).
Proof. destruct w. unfold kept, loadStart. simpl. done. Qed.

Lemma fetchQueue_kept o w : kept w (fetchQueue o w).
Proof.
  destruct w as [p q r a qs os gs ls fr fw rs n l]. unfold kept, fetchQueue.
  destruct (resetQueue _); simpl; [done|]. destruct q; simpl; done.
Qed.

Lemma fetch_some o w :
  let x := deref w o in
  let x' := mkOptions (success x) (error x) (Some (SComplete (complete x)))
              (background x) (resetQueue x) in
  let w' := fetch (Some o) w in
  objects w' = <[o := x']> (objects w) ∧ guards w' = guards w ∧
  routeListeners w' = routeListeners w ∧ history_fragment w' = history_fragment w ∧
  isPopulated w' = isPopulated w ∧ _aborted w' = _aborted w.
Proof.
  simpl. unfold fetch.
  match goal with |- context [fetchQueue o (loadStart ?m ?b ?w1)] =>
    destruct (fetchQueue_kept o (loadStart m b w1)) as (H1 & H2 & H3 & H4 & H5 & H6);
    destruct (loadStart_kept m b w1) as (K1 & K2 & K3 & K4 & K5 & K6) end.
  rewrite H1, H2, H3, H4, H5, H6, K1, K2, K3, K4, K5, K6.
  destruct w; simpl. done.
Qed.

(** ** load on a populated object *)

(** C10. On an object whose [isPopulated()] is true, [loadData] is the call
    of the success callback with the object, and [load] logs that one call
    and nothing else: no request is made, no guard or route listener is
    added, no queue is started or extended, no forwarder is bound and no
    [load:start] or [load:end] is triggered. *)
Theorem load_populated_calls_back_only
    (w : World) (name : string) (failback : option Fn) (options : option Ref) :
  isPopulated w = true →
  (∀ fb o, loadData (User name) fb o w = add_log (Called name [VThis]) w) ∧
  let w' := load (User name) failback options w in
  log w' = Called name [VThis] :: log w ∧
  requests w' = requests w ∧ nextRequest w' = nextRequest w ∧
  _request w' = _request w ∧ _aborted w' = _aborted w ∧
  guards w' = guards w ∧ routeListeners w' = routeListeners w ∧
  this_fetchQueue w' = this_fetchQueue w ∧ queues w' = queues w ∧
  forwards w' = forwards w.
Proof.
  intros Hp. split.
  - intros fb o. unfold loadData. by rewrite Hp.
  - destruct w as [p q r a qs os gs ls fr fw rs n l]. simpl in Hp. subst p.
    unfold load. destruct options as [o|]; simpl; rewrite andb_false_r;
      unfold loadData; simpl; done.
Qed.

Lemma load_populated_calls_back_only_witness :
  let w := init true "home" in
  (∀ fb o, loadData (User "show") fb o w = add_log (Called "show" [VThis]) w) ∧
  let w' := load (User "show") (Some (User "fail")) None w in
  log w' = Called "show" [VThis] :: log w ∧
  requests w' = requests w ∧ nextRequest w' = nextRequest w ∧
  _request w' = _request w ∧ _aborted w' = _aborted w ∧
  guards w' = guards w ∧ routeListeners w' = routeListeners w ∧
  this_fetchQueue w' = this_fetchQueue w ∧ queues w' = queues w ∧
  forwards w' = forwards w.
Proof.
  intros w.
  apply (load_populated_calls_back_only w "show" (Some (User "fail")) None).
  reflexivity.
Defined.

(** ** The route guard *)

Lemma finalize_done g gd w :
  guards w !! g = Some gd →
  guards (finalize g w) !! g
    = Some (mkGuard (fragment gd) true (callback gd) (failback gd)) ∧
  (g ∉ routeListeners (finalize g w)) ∧
  log (finalize g w) = log w ∧ history_fragment (finalize g w) = history_fragment w.
Proof.
  intros Hg. unfold finalize. rewrite Hg. destruct w; simpl in *.
  split; [|split; [|done]].
  - apply list_lookup_insert_eq. by eapply lookup_lt_Some.
  - intros Hin. apply list_elem_of_filter in Hin as [Hne _]. done.
Qed.

Lemma loadData_unpopulated cb fb o w :
  isPopulated w = false →
  let g := length (guards w) in
  let x := deref w o in
  let w1 := loadData cb (Some fb) o w in
  guards w1 = guards w ++ [mkGuard (history_fragment w) false cb (Some (Bound fb false))] ∧
  routeListeners w1 = routeListeners w ++ [g] ∧
  history_fragment w1 = history_fragment w ∧
  objects w1 = objects w ++
    [mkOptions (Some (STrigger g)) (Some (SFn (Bound fb true)))
       (Some (SComplete (complete x))) (background x) (resetQueue x)].
Proof.
  intros Hp. simpl. unfold loadData. rewrite Hp. unfold bindToRoute, alloc.
  match goal with |- context [fetch (Some ?o') ?w2] =>
    destruct (fetch_some o' w2) as (H1 & H2 & H3 & H4 & _) end.
  rewrite H1, H2, H3, H4. destruct w as [p q r a qs os gs ls fr fw rs n l].
  unfold deref. simpl. repeat split.
  rewrite lookup_app_r by lia. rewrite Nat.sub_diag. simpl.
  rewrite insert_app_r_alt by lia. rewrite Nat.sub_diag. simpl. done.
Qed.

(** C4. The finalizer of a guard does nothing once the guard has
    completed. Before that, a canceled resolution with the fragment
    unchanged is ignored and leaves the guard as it was; every other
    resolution marks it completed and unbinds its route listener, then runs
    the success callback when not canceled with the fragment unchanged, and
    the failure callback (if there is one) otherwise. [loadData] gives the
    guard the failure callback bound with [isError = false], which is what a
    navigation reaches, and installs it bound with [isError = true] as the
    [error] handler of the fetch, which is what the transport calls on an
    error. *)
Theorem finalizer_dispatch
    (w : World) (g : Ref) (gd : Guard) (args : list Val) :
  guards w !! g = Some gd →
  let same := bool_decide (fragment gd = history_fragment w) in
  let w_done := finalize g w in
  (completed gd = true → ∀ isCanceled, finalizer g isCanceled args w = w) ∧
  ((completed <$> (guards w_done !! g)) = Some true ∧ g ∉ routeListeners w_done) ∧
  (completed gd = false → same = true →
     finalizer g true args w = w ∧
     finalizer g false args w = call_fn (callback gd) args w_done) ∧
  (completed gd = false → same = false →
     ∀ isCanceled,
       finalizer g isCanceled args w
       = from_option (λ fb, call_fn fb args w_done) w_done (failback gd)) ∧
  (∀ w0 cb fb o,
     isPopulated w0 = false →
     let w1 := loadData cb (Some fb) o w0 in
     guards w1 !! length (guards w0)
       = Some (mkGuard (history_fragment w0) false cb (Some (Bound fb false))) ∧
     ∃ x, objects w1 !! length (objects w0) = Some x ∧
          success x = Some (STrigger (length (guards w0))) ∧
          error x = Some (SFn (Bound fb true))) ∧
  (∀ fb isError args' w',
     call_slot (SFn (Bound fb isError)) args' w' = call_fn fb (VBool isError :: args') w').
Proof.
  intros Hg same w_done.
  destruct (finalize_done g gd w Hg) as (Hd1 & Hd2 & _).
  split; [|split; [|split; [|split; [|split]]]].
  - intros Hc isCanceled. by eapply finalizer_completed.
  - subst w_done. rewrite Hd1. done.
  - intros Hc Hs. rewrite !(finalizer_pending g gd _ args w Hg Hc). simpl.
    fold same. rewrite Hs. done.
  - intros Hc Hs isCanceled. rewrite (finalizer_pending g gd _ args w Hg Hc). simpl.
    fold same. rewrite Hs, !andb_false_r. done.
  - intros w0 cb fb o Hp.
    destruct (loadData_unpopulated cb fb o w0 Hp) as (H1 & _ & _ & H4).
    simpl. rewrite H1, H4. split.
    + rewrite lookup_app_r by lia. by rewrite Nat.sub_diag.
    + eexists. split; [rewrite lookup_app_r by lia; by rewrite Nat.sub_diag|]. done.
  - done.
Qed.

Lemma finalizer_dispatch_witness :
  let w0 := (bindToRoute (User "ok") (Some (User "fail")) (init false "home")).2 in
  let w1 := finalizer 0 false [VData 1] w0 in
  let w2 := finalizer 0 true [VData 2] (set_fragment "away" w0) in
  finalizer 0 true [VData 1] w0 = w0 ∧
  log w1 = [Called "ok" [VData 1]] ∧
  log w2 = [Called "fail" [VData 2]] ∧
  finalizer 0 false [VData 3] w1 = w1 ∧
  finalizer 0 true [VData 3] (set_fragment "away" w1) = set_fragment "away" w1.
Proof.
  intros w0 w1 w2.
  set (gd := mkGuard "home" false (User "ok") (Some (User "fail"))).
  set (gd' := mkGuard "home" true (User "ok") (Some (User "fail"))).
  destruct (finalizer_dispatch w0 0 gd [VData 1] eq_refl) as (_ & _ & P & _).
  destruct (P eq_refl eq_refl) as [P1 P2].
  destruct (finalizer_dispatch (set_fragment "away" w0) 0 gd [VData 2] eq_refl)
    as (_ & _ & _ & Q & _).
  destruct (finalizer_dispatch w1 0 gd' [VData 3] eq_refl) as (C1 & _).
  destruct (finalizer_dispatch (set_fragment "away" w1) 0 gd' [VData 3] eq_refl)
    as (C2 & _).
  split; [exact P1|].
  split; [refine (eq_trans (f_equal log P2) _); reflexivity|].
  split; [refine (eq_trans (f_equal log (Q eq_refl eq_refl true)) _); reflexivity|].
  split; [exact (C1 eq_refl false) | exact (C2 eq_refl true)].
Defined.

(** A guard that has completed: the trigger is invoked a second time, not
    canceled and with the fragment unchanged, and the success callback is
    not run again. *)
Example example_completed_guard :
  let w0 := (bindToRoute (User "ok") (Some (User "fail")) (init false "home")).2 in
  let w1 := finalizer 0 false [VData 1] w0 in
  log w1 = [Called "ok" [VData 1]] ∧
  finalizer 0 false [VData 2] w1 = w1.
Proof. split; reflexivity. Qed.

(** ** load on an unpopulated object *)

Lemma finalize_frame g w :
  _request (finalize g w) = _request w ∧ _aborted (finalize g w) = _aborted w ∧
  log (finalize g w) = log w.
Proof.
  unfold finalize. destruct (guards w !! g); [|done]. destruct w; simpl. done.
Qed.

Lemma load_unpopulated cb fb options w :
  isPopulated w = false →
  let g := length (guards w) in
  let w1 := load cb fb options w in
  guards w1
    = guards w ++ [mkGuard (history_fragment w) false cb (Some (Bound (LoadFailback fb) false))] ∧
  routeListeners w1 = routeListeners w ++ [g] ∧
  history_fragment w1 = history_fragment w ∧
  ∃ x, last (objects w1) = Some x ∧
       success x = Some (STrigger g) ∧
       error x = Some (SFn (Bound (LoadFailback fb) true)).
Proof.
  intros Hp. simpl. unfold load.
  destruct (match options with
            | Some o => (o, w)
            | None => alloc emptyOptions w
            end) as [o w0] eqn:Ho.
  assert (H0 : isPopulated w0 = false ∧ guards w0 = guards w ∧
               routeListeners w0 = routeListeners w ∧
               history_fragment w0 = history_fragment w).
  { destruct options; injection Ho as <- <-; [done|]. destruct w; simpl in *. done. }
  destruct H0 as (Hp0 & Hg0 & Hl0 & Hf0).
  match goal with |- context [loadData _ _ o ?x] => set (w1' := x) end.
  assert (H1 : isPopulated w1' = false ∧ guards w1' = guards w ∧
               routeListeners w1' = routeListeners w ∧
               history_fragment w1' = history_fragment w).
  { subst w1'. destruct (negb _ && negb _); [|done]. destruct w0; simpl in *. done. }
  destruct H1 as (Hp1 & Hg1 & Hl1 & Hf1).
  destruct (loadData_unpopulated cb (LoadFailback fb) o w1' Hp1) as (H1 & H2 & H3 & H4).
  rewrite H1, H2, H3, H4, Hg1, Hl1, Hf1. repeat split.
  eexists. split; [apply last_snoc|]. done.
Qed.

(** A load, then a navigation: the route event reaches the guard through
    [Backbone.history]. *)
Example example_navigation :
  let w1 := load (User "show") (Some (User "fail")) None (init false "home") in
  let w2 := trigger_route [VData 9] (set_fragment "away" w1) in
  rev (log w2) =
    [Triggered This "load:start" [VUndefined; VUndefined; VThis];
     Triggered Exports "load:start" [VUndefined; VUndefined; VThis];
     Requested 1; Triggered This "request" [VData 1];
     Aborted 1; Called "fail" [VBool false; VData 9]] ∧
  _aborted w2 = Some true ∧ routeListeners w2 = [].
Proof. vm_compute. done. Qed.

(** C8. [load] on an unpopulated object, with a request outstanding
    afterwards: when the route changes to another fragment and the route
    event reaches the guard of this load, [_aborted] is set to true, the
    request's [abort()] is called, and then the caller's failback gets
    [isError = false]. The [error] handler of the same load calls the
    failback with [isError = true] only: no [abort()], [_aborted] as it
    was. *)
Theorem navigation_aborts_request_error_does_not
    (w : World) (cb : Fn) (fb : option string) (options : option Ref)
    (r : nat) (away : string) (args : list Val) :
  isPopulated w = false →
  let w1 := load cb (User <$> fb) options w in
  _request w1 = Some r →
  away ≠ history_fragment w →
  let w2 := resetLoader (length (guards w)) args (set_fragment away w1) in
  (_aborted w2 = Some true ∧
   log w2 = from_option (λ name, [Called name (VBool false :: args)]) [] fb
              ++ Aborted r :: log w1) ∧
  ∃ x handler,
    last (objects w1) = Some x ∧ error x = Some handler ∧
    ∀ args' w3,
      let w4 := call_slot handler args' w3 in
      _aborted w4 = _aborted w3 ∧
      log w4 = from_option (λ name, [Called name (VBool true :: args')]) [] fb ++ log w3.
Proof.
  intros Hp w1 Hr Haway w2.
  destruct (load_unpopulated cb (User <$> fb) options w Hp)
    as (Hg & Hl & Hf & x & Hx & _ & He).
  fold w1 in Hg, Hl, Hf, Hx. split.
  - subst w2. unfold resetLoader.
    assert (Hg' : guards (set_fragment away w1) !! length (guards w)
                  = Some (mkGuard (history_fragment w) false cb
                            (Some (Bound (LoadFailback (User <$> fb)) false)))).
    { destruct w1; simpl in *. rewrite Hg, lookup_app_r by lia.
      by rewrite Nat.sub_diag. }
    rewrite bool_decide_eq_true_2.
    2:{ destruct w1; simpl in *. rewrite Hl. apply elem_of_app. right. left. }
    rewrite (finalizer_pending _ _ true args _ Hg' eq_refl). simpl.
    rewrite bool_decide_eq_false_2.
    2:{ destruct w1; simpl in *. congruence. }
    simpl.
    destruct (finalize_frame (length (guards w)) (set_fragment away w1)) as (F1 & F2 & F3).
    assert (Hr' : _request (finalize (length (guards w)) (set_fragment away w1)) = Some r).
    { rewrite F1. destruct w1; simpl in *. done. }
    assert (Hlog : log (finalize (length (guards w)) (set_fragment away w1)) = log w1).
    { rewrite F3. destruct w1; simpl in *. done. }
    rewrite Hr'. destruct (finalize _ _); simpl in *. subst.
    destruct fb; simpl; rewrite Hlog; done.
  - exists x, (SFn (Bound (LoadFailback (User <$> fb)) true)).
    split; [done|]. split; [done|]. intros args' w3. simpl.
    destruct w3, fb; simpl; done.
Qed.

Lemma navigation_aborts_request_error_does_not_witness :
  let w := init false "home" in
  let args := [VData 7] in
  let w1 := load (User "show") (User <$> Some "fail") None w in
  let w2 := resetLoader (length (guards w)) args (set_fragment "away" w1) in
  (_aborted w2 = Some true ∧
   log w2 = from_option (λ name, [Called name (VBool false :: args)]) [] (Some "fail")
              ++ Aborted 1 :: log w1) ∧
  ∃ x handler,
    last (objects w1) = Some x ∧ error x = Some handler ∧
    ∀ args' w3,
      let w4 := call_slot handler args' w3 in
      _aborted w4 = _aborted w3 ∧
      log w4 = from_option (λ name, [Called name (VBool true :: args')]) [] (Some "fail")
                 ++ log w3.
Proof.
  intros w args.
  apply (navigation_aborts_request_error_does_not w (User "show") (Some "fail") None
           1 "away" args); [reflexivity | reflexivity | discriminate].
Defined.

(** ** Running the handlers of an options object *)

Lemma stable_refl w : stable w w.
Proof. unfold stable. done. Qed.

Lemma stable_trans w1 w2 w3 : stable w1 w2 → stable w2 w3 → stable w1 w3.
Proof. unfold stable. intuition congruence. Qed.

Lemma frame_stable w w' : frame w w' → stable w w'.
Proof. unfold frame, stable. intuition. Qed.

Lemma quiet_loadEnd w w' :
  quiet w w' → count_if is_loadEnd (log w') = count_if is_loadEnd (log w).
Proof.
  intros (new & -> & Hnew). unfold count_if. rewrite filter_app, length_app.
  rewrite (LoadHandlerFacts.filter_none (λ e, is_loadEnd e = true) new); [done|].
  eapply Forall_impl; [exact Hnew|]. intros [] ?; simpl in *; done.
Qed.

Lemma finalizer_stable g c args w :
  stable w (finalizer g c args w) ∧ quiet w (finalizer g c args w).
Proof.
  unfold finalizer. destruct (guards w !! g) as [gd|]; [|split; [apply stable_refl|apply quiet_refl]].
  destruct (completed gd); [split; [apply stable_refl|apply quiet_refl]|].
  destruct (c && _); [split; [apply stable_refl|apply quiet_refl]|].
  match goal with |- context [call_fn (callback gd) args ?w2] =>
    assert (H2 : stable w w2 ∧ quiet w w2) end.
  { destruct w; simpl. split; [unfold stable; simpl; done|]. by exists []. }
  destruct H2 as [S2 Q2].
  destruct (negb c && _); [|destruct (failback gd) as [fb|]; [|done]].
  - match goal with |- context [call_fn ?f args ?w2] =>
      destruct (call_fn_frame f args w2) as [F Q] end.
    split; [eapply stable_trans; [exact S2 | by apply frame_stable] | by eapply quiet_trans].
  - match goal with |- context [call_fn ?f args ?w2] =>
      destruct (call_fn_frame f args w2) as [F Q] end.
    split; [eapply stable_trans; [exact S2 | by apply frame_stable] | by eapply quiet_trans].
Qed.

(** Running a handler leaves the queue and the stores alone and triggers
    [load:end] once per wrapper it carries. *)
Lemma call_slot_stable s : ∀ args w,
  stable w (call_slot s args w) ∧
  count_if is_loadEnd (log (call_slot s args w)) = wraps s + count_if is_loadEnd (log w).
Proof.
  induction s as [f|g| |c IH] using Slot_induction; intros args w; simpl.
  - destruct (call_fn_frame f args w) as [F Q].
    split; [by apply frame_stable | by apply quiet_loadEnd].
  - destruct (finalizer_stable g false args w) as [F Q].
    split; [done | by apply quiet_loadEnd].
  - destruct w; simpl. split; [unfold stable; simpl; done|]. done.
  - destruct (IH args w) as [S1 C1]. destruct (call_slot c args w); simpl in *.
    split; [done|]. unfold count_if in *. rewrite filter_cons_True by done.
    simpl. by rewrite C1.
Qed.

Lemma replay_stable h args w o :
  stable w (replay h args w o).
Proof.
  unfold replay. destruct (handler_of h (deref w o)); [|apply stable_refl].
  apply call_slot_stable.
Qed.

Lemma replay_all_stable h args os : ∀ w, stable w (foldl (replay h args) w os).
Proof.
  induction os as [|o os IH]; intros w; simpl; [apply stable_refl|].
  eapply stable_trans; [apply replay_stable | apply IH].
Qed.

(** The queue is cleared by a flush exactly when it is still the array
    the flush closed over. *)
Lemma flushQueue_identity q h args w :
  this_fetchQueue (flushQueue q h args w)
  = if bool_decide (this_fetchQueue w = Some q) then None else this_fetchQueue w.
Proof.
  unfold flushQueue.
  destruct (replay_all_stable h args (default [] (queues w !! q)) w) as (H1 & _).
  rewrite H1. destruct (bool_decide _); [|done].
  by destruct (foldl _ _ _).
Qed.

(** ** The fetch queue *)

Lemma deref_objects w w' o : objects w' = objects w → deref w' o = deref w o.
Proof. unfold deref. by intros ->. Qed.

Lemma fetchQueue_start o w :
  resetQueue (deref w o) = true ∨ this_fetchQueue w = None →
  let q := length (queues w) in
  let r := nextRequest w in
  let w' := fetchQueue o w in
  this_fetchQueue w' = Some q ∧ queues w' = queues w ++ [[o]] ∧
  requests w' = requests w ++
    [mkRequest r (Some (TFlush q OnSuccess)) (Some (TFlush q OnError))
       (Some (TSync (Some (TFlush q OnComplete))))] ∧
  nextRequest w' = S r ∧ _request w' = Some r ∧ objects w' = objects w ∧
  log w' = Triggered This "request" [VData r] :: Requested r :: log w.
Proof.
  intros Hs. simpl. unfold fetchQueue.
  destruct w as [p q r a qs os gs ls fr fw rs n l]. simpl in *.
  destruct (resetQueue _) eqn:Hr; simpl; [done|].
  destruct Hs as [?| ->]; done.
Qed.

Lemma fetchQueue_join o w q :
  this_fetchQueue w = Some q → resetQueue (deref w o) = false →
  let w' := fetchQueue o w in
  this_fetchQueue w' = Some q ∧
  queues w' = <[q := default [] (queues w !! q) ++ [o]]> (queues w) ∧
  requests w' = requests w ∧ nextRequest w' = nextRequest w ∧
  objects w' = objects w ∧ log w' = log w.
Proof.
  intros Hq Hr. simpl. unfold fetchQueue. rewrite Hr.
  destruct w as [p q0 r a qs os gs ls fr fw rs n l]. simpl in *. subst q0. done.
Qed.

Lemma join_all q os : ∀ w l,
  this_fetchQueue w = Some q → queues w !! q = Some l →
  Forall (λ o, resetQueue (deref w o) = false) os →
  let w' := foldl (λ w0 o, fetchQueue o w0) w os in
  this_fetchQueue w' = Some q ∧ queues w' !! q = Some (l ++ os) ∧
  requests w' = requests w ∧ nextRequest w' = nextRequest w ∧
  objects w' = objects w ∧ log w' = log w.
Proof.
  induction os as [|o os IH]; intros w l Hq Hl Hall; simpl.
  - by rewrite app_nil_r.
  - apply Forall_cons in Hall as [Ho Hall].
    destruct (fetchQueue_join o w q Hq Ho) as (H1 & H2 & H3 & H4 & H5 & H6).
    destruct (IH (fetchQueue o w) (l ++ [o])) as (I1 & I2 & I3 & I4 & I5 & I6).
    + done.
    + rewrite H2, Hl. simpl. apply list_lookup_insert_eq. by eapply lookup_lt_Some.
    + eapply Forall_impl; [exact Hall|]. simpl. intros o'.
      by rewrite (deref_objects w (fetchQueue o w) o' H5).
    + rewrite I1, I2, I3, I4, I5, I6, H3, H4, H5, H6, <- app_assoc. done.
Qed.

(** Two callers, then success and complete: the calls in the order made. *)
Example example_two_callers :
  let first := mkOptions (Some (SFn (User "s1"))) None (Some (SFn (User "c1"))) VUndefined false in
  let second := mkOptions (Some (SFn (User "s2"))) (Some (SFn (User "e2"))) None VUndefined false in
  let w1 := fetchQueue 1 (fetchQueue 0 (set_objects [first; second] (init false "home"))) in
  let w3 := call_transport (TSync (Some (TFlush 0 OnComplete))) []
              (call_transport (TFlush 0 OnSuccess) [VThis; VData 5] w1) in
  rev (log w3) =
    [Requested 1; Triggered This "request" [VData 1];
     Called "s1" [VThis; VData 5]; Called "s2" [VThis; VData 5]; Called "c1" []].
Proof. vm_compute. reflexivity. Qed.

(** ** The fetch override *)

(** C9, as amended. A call of [fetch] with an options object triggers
    exactly one [load:start] on the object (and its forwards) before
    anything is requested or queued; it requests nothing when it joins an
    active queue; and it replaces [options.complete] in place by a wrapper
    of the handler found there. Running a handler triggers [load:end] once
    per wrapper it carries, so the handler this call installs triggers it
    exactly once when the object had not been wrapped by an earlier
    [fetch]. *)
Theorem fetch_starts_once_and_wraps_complete (w : World) (o : Ref) (x : Options) :
  objects w !! o = Some x →
  let args := [VUndefined; background x; VThis] in
  let forwarded := (λ _ : bool, Triggered Exports "load:start" args) <$> forwards w in
  let wrapped := mkOptions (success x) (error x) (Some (SComplete (complete x)))
                   (background x) (resetQueue x) in
  let w' := fetch (Some o) w in
  objects w' = <[o := wrapped]> (objects w) ∧
  (resetQueue x = true ∨ this_fetchQueue w = None →
     log w' = Triggered This "request" [VData (nextRequest w)]
              :: Requested (nextRequest w)
              :: forwarded ++ Triggered This "load:start" args :: log w) ∧
  (∀ q, resetQueue x = false → this_fetchQueue w = Some q →
     log w' = forwarded ++ Triggered This "load:start" args :: log w ∧
     requests w' = requests w ∧
     queues w' = <[q := default [] (queues w !! q) ++ [o]]> (queues w)) ∧
  (∀ s args' w2,
     count_if is_loadEnd (log (call_slot s args' w2))
     = wraps s + count_if is_loadEnd (log w2)) ∧
  (from_option wraps 0 (complete x) = 0 →
   ∀ args' w2,
     count_if is_loadEnd (log (call_slot (SComplete (complete x)) args' w2))
     = 1 + count_if is_loadEnd (log w2)).
Proof.
  intros Hx args forwarded wrapped w'.
  assert (Ho : o < length (objects w)) by (by eapply lookup_lt_Some).
  assert (Hd : deref w o = x) by (unfold deref; by rewrite Hx).
  subst w'. unfold fetch. rewrite Hd. fold wrapped. fold args.
  set (w2 := loadStart VUndefined (background wrapped)
               (set_objects (<[o:=wrapped]> (objects w)) w)).
  assert (H2 : this_fetchQueue w2 = this_fetchQueue w ∧ queues w2 = queues w ∧
               requests w2 = requests w ∧ nextRequest w2 = nextRequest w ∧
               objects w2 = <[o:=wrapped]> (objects w) ∧
               log w2 = forwarded ++ Triggered This "load:start" args :: log w).
  { subst w2 forwarded args. destruct w; simpl. done. }
  destruct H2 as (E1 & E2 & E3 & E4 & E5 & E6).
  assert (Hd2 : deref w2 o = wrapped).
  { unfold deref. rewrite E5, list_lookup_insert_eq by done. done. }
  split; [|split; [|split; [|split]]].
  - destruct (resetQueue x) eqn:Hr.
    + destruct (fetchQueue_start o w2) as (_ & _ & _ & _ & _ & S6 & _).
      { left. by rewrite Hd2. }
      by rewrite S6.
    + destruct (this_fetchQueue w) as [q|] eqn:Hq.
      * destruct (fetchQueue_join o w2 q) as (_ & _ & _ & _ & J5 & _).
        { by rewrite E1. } { by rewrite Hd2. }
        by rewrite J5.
      * destruct (fetchQueue_start o w2) as (_ & _ & _ & _ & _ & S6 & _).
        { right. by rewrite E1. }
        by rewrite S6.
  - intros Hs. destruct (fetchQueue_start o w2) as (_ & _ & _ & _ & _ & _ & S7).
    { destruct Hs as [Hs|Hs]; [left; by rewrite Hd2 | right; by rewrite E1]. }
    by rewrite S7, E4, E6.
  - intros q Hr Hq. destruct (fetchQueue_join o w2 q) as (_ & J2 & J3 & _ & _ & J6).
    { by rewrite E1. } { by rewrite Hd2. }
    by rewrite J2, J3, J6, E2, E3, E6.
  - intros s args' w3. apply call_slot_stable.
  - intros Hfresh args' w3.
    destruct (call_slot_stable (SComplete (complete x)) args' w3) as [_ ->].
    simpl. by rewrite Hfresh.
Qed.

Lemma fetch_starts_once_and_wraps_complete_witness :
  let x := mkOptions (Some (SFn (User "s"))) None (Some (SFn (User "c"))) VUndefined false in
  let w := fetch None (set_objects [x] (init false "home")) in
  let o := 0 in
  let args := [VUndefined; background x; VThis] in
  let forwarded := (λ _ : bool, Triggered Exports "load:start" args) <$> forwards w in
  let wrapped := mkOptions (success x) (error x) (Some (SComplete (complete x)))
                   (background x) (resetQueue x) in
  let w' := fetch (Some o) w in
  objects w' = <[o := wrapped]> (objects w) ∧
  (resetQueue x = true ∨ this_fetchQueue w = None →
     log w' = Triggered This "request" [VData (nextRequest w)]
              :: Requested (nextRequest w)
              :: forwarded ++ Triggered This "load:start" args :: log w) ∧
  (∀ q, resetQueue x = false → this_fetchQueue w = Some q →
     log w' = forwarded ++ Triggered This "load:start" args :: log w ∧
     requests w' = requests w ∧
     queues w' = <[q := default [] (queues w !! q) ++ [o]]> (queues w)) ∧
  (∀ s args' w2,
     count_if is_loadEnd (log (call_slot s args' w2))
     = wraps s + count_if is_loadEnd (log w2)) ∧
  (from_option wraps 0 (complete x) = 0 →
   ∀ args' w2,
     count_if is_loadEnd (log (call_slot (SComplete (complete x)) args' w2))
     = 1 + count_if is_loadEnd (log w2)).
Proof.
  intros x w o.
  apply (fetch_starts_once_and_wraps_complete w o x). reflexivity.
Defined.

(** C9, as stated, fails when an options object is used again: the first
    call ends with one [load:end]; the second call, made after the first
    has completed, wraps the wrapper the first left in [options.complete],
    and its complete handler triggers [load:end] twice. *)
Lemma reused_options_end_twice :
  let x := mkOptions (Some (SFn (User "s"))) None (Some (SFn (User "c"))) VUndefined false in
  let w := set_objects [x] (init false "home") in
  let w1 := fetch (Some 0) w in
  let w2 := call_transport (TSync (Some (TFlush 0 OnComplete))) [VData 5]
              (call_transport (TFlush 0 OnSuccess) [VThis; VData 5] w1) in
  let w3 := fetch (Some 0) w2 in
  let w4 := call_transport (TSync (Some (TFlush 1 OnComplete))) [VData 6]
              (call_transport (TFlush 1 OnSuccess) [VThis; VData 6] w3) in
  count_if is_loadStart (log w2) = 1 ∧ count_if is_loadEnd (log w2) = 1 ∧
  this_fetchQueue w2 = None ∧
  count_if is_loadStart (log w4) = 2 ∧ count_if is_loadEnd (log w4) = 3.
Proof. vm_compute. done. Qed.

(** Two concurrent calls given the same options object: the queue holds
    the object twice, and the two calls end with four [load:end]. *)
Example example_shared_options :
  let x := mkOptions (Some (SFn (User "s"))) None (Some (SFn (User "c"))) VUndefined false in
  let w := set_objects [x] (init false "home") in
  let w1 := fetch (Some 0) (fetch (Some 0) w) in
  let w2 := call_transport (TSync (Some (TFlush 0 OnComplete))) [VData 5]
              (call_transport (TFlush 0 OnSuccess) [VThis; VData 5] w1) in
  count_if is_loadStart (log w1) = 2 ∧
  count_if is_Requested (log w1) = 1 ∧
  queues w1 = [[0; 0]] ∧
  count_if is_loadEnd (log w2) = 4.
Proof. vm_compute. done. Qed.

End DataLoadFacts.

(* ===================================================================== *)
(** * Further properties of the load handler *)
(* ===================================================================== *)

Module LoadHandlerMoreFacts.
Import LoadHandler LoadHandlerFacts LoadHandlerMore.

Lemma length_filter_filter {A} (P Q : A → Prop)
    `{!∀ x, Decision (P x)} `{!∀ x, Decision (Q x)} (l : list A) :
  length (filter P (filter Q l)) ≤ length (filter P l).
Proof.
  induction l as [|x l IH]; [done|].
  rewrite (filter_cons Q). destruct (decide (Q x)).
  - rewrite !(filter_cons P). destruct (decide (P x)); simpl; lia.
  - rewrite (filter_cons P). destruct (decide (P x)); simpl; lia.
Qed.

Lemma starts_only_no_ends id ts :
  starts_only id ts → filter (λ t, is_end t = true) ts = [].
Proof.
  intros H. apply filter_none. eapply Forall_impl; [exact H|].
  intros t [Ha _]. unfold is_end, is_start. by rewrite Ha.
Qed.

Lemma timers_clearTimeout id w :
  timers (clearTimeout id w) = filter (λ t, tid t ≠ id) (timers w).
Proof. by destruct w. Qed.

(** ** Reachable states are tidy *)

Lemma handler_tidy msg bg o w :
  Inv w → Tidy w → ∃ w', handler msg bg o w = Some w' ∧ Inv w' ∧ Tidy w'.
Proof.
  intros HI HT. destruct (_loadStart w) as [s|] eqn:Hs.
  - destruct (handler_open w s msg bg o HI Hs)
      as (w' & s' & Hh & HI' & Hs' & _ & Hb & _ & _ & _ & _ & He & _ & _ & Hc).
    exists w'. split; [done|]. split; [done|].
    destruct HT as (T1 & T2 & T3). rewrite Hs in T3. destruct T3 as (T3 & T4 & _).
    unfold Tidy. rewrite Hs'.
    destruct (negb bg && background s).
    + destruct Hc as (_ & Ht & Hn & Hts). unfold starts, ends. rewrite Hts, Ht, Hn, He, Hb.
      split; [simpl; lia|]. split; [simpl; lia|]. split; [lia|]. split.
      * intros id Hid. destruct (T4 id Hid). lia.
      * intros Hnil. by destruct (bound w).
    + destruct Hc as (_ & Ht & Hn & Hts & Hso). unfold starts, ends.
      rewrite (starts_only_no_ends _ _ Hso), Ht, Hn, He, Hb. split.
      { rewrite Hts. unfold starts in T1.
        destruct (endTimeout s); simpl; [|done]. rewrite timers_clearTimeout.
        etrans; [apply length_filter_filter|done]. }
      split; [simpl; lia|]. split; [done|]. split; [done|].
      intros Hnil. by destruct (bound w).
  - destruct (handler_new w msg bg o HI Hs) as [Hh HI']. eexists. split; [exact Hh|].
    split; [done|]. unfold Tidy, starts, ends. simpl.
    split; [lia|]. split; [lia|]. split; [lia|]. done.
Qed.

Lemma endCallback_tidy w s o :
  Inv w → Tidy w → _loadStart w = Some s → o ∈ bound w →
  ∃ w',
    endCallback o w = Some w' ∧ Inv w' ∧ Tidy w' ∧
    bound w' = remove_first o (bound w) ∧ log w' = log w ∧ abs w' = abs w.
Proof.
  intros HI HT Hs Hin.
  destruct (endCallback_ok w s o HI Hs Hin)
    as (w' & s' & Hc & HI' & Hs' & (Hl & Hn & Hd & He) & (E1 & E2 & _ & _ & E5) & Hb & Hso & Hm).
  exists w'. split; [done|]. split; [done|]. split; [|split; [done|split; [done|]]].
  2:{ unfold abs. by rewrite Hs, Hs', E5. }
  destruct HT as (T1 & T2 & T3). rewrite Hs in T3. destruct T3 as (T3 & T4 & _).
  unfold Tidy. rewrite Hs'. unfold starts, ends in *.
  destruct (bound w') as [|x b'].
  - destruct Hm as (Hts & Het & Hnt). rewrite Hts, !filter_app, !length_app.
    rewrite (starts_only_no_ends _ _ Hso). simpl.
    split; [lia|]. split; [lia|]. rewrite E2, Het, Hnt. split; [lia|]. split.
    + intros id [= <-]. lia.
    + intros _. eexists. split; [apply elem_of_app; right; left|]. simpl.
      split; [by rewrite E1|]. unfold endDelay. rewrite Hn, He. done.
  - destruct Hm as (Hts & Het & Hnt). rewrite Hts, E2, Het, Hnt.
    split; [done|]. split; [done|]. split; [done|]. split; [done|]. done.
Qed.

Lemma filter_remove_first o l :
  filter (λ x, x ≠ o) (remove_first o l) = filter (λ x, x ≠ o) l.
Proof.
  induction l as [|y l IH]; simpl; [done|].
  destruct (decide (o = y)) as [->|Hne].
  - by rewrite filter_cons_False by (intros ?; done).
  - rewrite !filter_cons. destruct (decide (y ≠ o)); [by rewrite IH | done].
Qed.

Lemma count_zero_filter o l : count o l = 0 → filter (λ x, x ≠ o) l = l.
Proof.
  unfold count. induction l as [|y l IH]; [done|].
  rewrite filter_cons. destruct (decide (y = o)) as [->|Hne]; simpl; [lia|].
  intros H. rewrite filter_cons_True by done. by rewrite IH.
Qed.

Lemma dispatch_tidy o n : ∀ w,
  Inv w → Tidy w → count o (bound w) = n →
  ∃ w',
    dispatch n o w = Some w' ∧ Inv w' ∧ Tidy w' ∧
    bound w' = filter (λ x, x ≠ o) (bound w) ∧ log w' = log w ∧ abs w' = abs w.
Proof.
  induction n as [|n IH]; intros w HI HT Hc; simpl.
  - exists w. by rewrite count_zero_filter.
  - assert (Hin : o ∈ bound w) by (apply count_pos_elem; lia).
    destruct (bound_signal w o HI Hin) as [s Hs].
    destruct (endCallback_tidy w s o HI HT Hs Hin) as (w1 & -> & HI1 & HT1 & Hb1 & Hl1 & Ha1).
    simpl. destruct (IH w1 HI1 HT1) as (w' & -> & HI' & HT' & Hb' & Hl' & Ha').
    { rewrite Hb1, count_remove_first. lia. }
    exists w'. split; [done|]. split; [done|]. split; [done|].
    split; [by rewrite Hb', Hb1, filter_remove_first|]. split; congruence.
Qed.

Lemma fire_tidy w t :
  Inv w → Tidy w → t ∈ timers w →
  ∃ w',
    fire t w = Some w' ∧ Inv w' ∧ Tidy w' ∧
    length (timers w') < length (timers w) ∧ bound w' = bound w ∧
    now w' = now w `max` due t ∧
    _loadingTimeoutEndDuration w' = _loadingTimeoutEndDuration w ∧
    (is_end t = true →
     _loadStart w' = None ∧ timers w' = [] ∧ head (log w') = Some Discarded).
Proof.
  intros HI HT Hin. destruct (action t) as [|r] eqn:Ha.
  - destruct (fire_start w t HI Hin Ha) as (s & Hs & Hf & HI').
    eexists. split; [exact Hf|]. split; [exact HI'|].
    split; [|split; [|split; [done|split; [done|split; [done|]]]]].
    + destruct HT as (T1 & T2 & T3). rewrite Hs in T3. destruct T3 as (T3 & T4 & T5).
      unfold Tidy, starts, ends in *. simpl.
      split; [etrans; [apply length_filter_filter|done]|].
      split; [etrans; [apply length_filter_filter|done]|].
      split; [done|]. split; [done|]. intros Hb.
      destruct (T5 Hb) as (t0 & Ht0 & Ha0 & Hd0). exists t0. split; [|split; [done|]].
      * apply list_elem_of_filter. split; [|done].
        destruct HI as [_ HI]. rewrite Hs in HI. destruct HI as [_ HI].
        rewrite Forall_forall in HI. pose proof (HI t0 Ht0) as H0. pose proof (HI t Hin) as H1.
        unfold timer_ok in H0, H1. rewrite Ha0 in H0. rewrite Ha in H1.
        destruct H0 as (_ & H0 & _). destruct (T4 _ H0). congruence.
      * unfold endDelay in *. simpl. lia.
    + simpl. apply (length_filter_lt _ _ t); [done|]. intros ?; done.
    + unfold is_end, is_start. by rewrite Ha.
  - destruct (fire_end w t r HI Hin Ha) as (s & Hs & Hb & Hf & HI').
    eexists. split; [exact Hf|]. split; [exact HI'|].
    split; [|split; [|split; [done|split; [done|split; [done|done]]]]].
    + unfold Tidy, starts, ends. simpl. split; [lia|]. split; [lia|]. done.
    + simpl. destruct (timers w); [by apply elem_of_nil in Hin | simpl; lia].
Qed.

Lemma run_timers_tidy limit fuel : ∀ w,
  Inv w → Tidy w → now w ≤ limit →
  ∃ w',
    run_timers fuel limit w = Some w' ∧ Inv w' ∧ Tidy w' ∧ now w' ≤ limit ∧
    now w ≤ now w' ∧
    _loadingTimeoutEndDuration w' = _loadingTimeoutEndDuration w ∧
    (length (timers w) ≤ fuel → Forall (λ t, limit < due t) (timers w')).
Proof.
  induction fuel as [|fuel IH]; intros w HI HT Hnow; simpl.
  - exists w. split_and!; try done. intros Hlen.
    destruct (timers w); [done | simpl in Hlen; lia].
  - destruct (next_due limit (timers w)) as [t|] eqn:Hn.
    + apply next_due_elem in Hn as [Hin Hdue].
      destruct (fire_tidy w t HI HT Hin) as (w1 & -> & HI1 & HT1 & Hlt & _ & Hn1 & He1 & _).
      simpl. destruct (IH w1 HI1 HT1) as (w' & -> & HI' & HT' & Hn' & Hm' & He' & Hdone); [lia|].
      exists w'. split_and!; try done; [lia | congruence |]. intros Hlen. apply Hdone. lia.
    + exists w. split_and!; try done. intros _. by apply next_due_none.
Qed.

Lemma tidy_set_now n w : now w ≤ n → Tidy w → Tidy (set_now n w).
Proof.
  intros Hn (T1 & T2 & T3). destruct w as [ls d e arr b ts nx nw lg].
  unfold Tidy, starts, ends, endDelay in *. simpl in *.
  split; [done|]. split; [done|]. destruct ls as [s|]; [|done].
  destruct T3 as (T3 & T4 & T5). split; [done|]. split; [done|].
  intros Hb. destruct (T5 Hb) as (t & ? & ? & ?). exists t. repeat split; try done. lia.
Qed.

Lemma elapse_tidy ms w :
  Inv w → Tidy w →
  ∃ w',
    elapse ms w = Some w' ∧ Inv w' ∧ Tidy w' ∧
    Forall (λ t, now w + ms < due t) (timers w').
Proof.
  intros HI HT. unfold elapse.
  destruct (run_timers_tidy (now w + ms) (length (timers w)) w HI HT)
    as (w1 & -> & HI1 & HT1 & Hn1 & _ & _ & Hdone); [lia|]. simpl.
  eexists. split; [done|]. split; [by apply Inv_set_now|].
  split; [by apply tidy_set_now|]. destruct w1; simpl in *. by apply Hdone.
Qed.

Lemma step_tidy i w : Inv w → Tidy w → ∃ w', step i w = Some w' ∧ Inv w' ∧ Tidy w'.
Proof.
  intros HI HT. destruct i as [msg bg o|o|ms]; simpl.
  - by apply handler_tidy.
  - destruct (dispatch_tidy o _ w HI HT eq_refl) as (w' & ? & ? & ? & _). eauto.
  - destruct (elapse_tidy ms w HI HT) as (w' & ? & ? & ? & _). eauto.
Qed.

Lemma exec_tidy ins : ∀ w, Inv w → Tidy w → ∃ w', exec ins w = Some w' ∧ Inv w' ∧ Tidy w'.
Proof.
  induction ins as [|i ins IH]; intros w HI HT; simpl; [eauto|].
  destruct (step_tidy i w HI HT) as (w1 & -> & HI1 & HT1). simpl. by apply IH.
Qed.

Lemma init_tidy d e : Tidy (init d e).
Proof. unfold Tidy, starts, ends, init. simpl. split; [lia|]. split; [lia|]. done. Qed.

Lemma reachable_tidy d e ins w : exec ins (init d e) = Some w → Inv w ∧ Tidy w.
Proof.
  intros Hw. destruct (exec_tidy ins (init d e) (init_Inv d e) (init_tidy d e))
    as (w' & Hw' & HI & HT). rewrite Hw in Hw'. injection Hw' as <-. done.
Qed.

(** ** An armed end timer closes the episode *)

Lemma run_timers_nil fuel limit w : timers w = [] → run_timers fuel limit w = Some w.
Proof. intros Hts. destruct fuel; simpl; [done|]. by rewrite Hts. Qed.

Lemma next_due_some limit ts t0 :
  t0 ∈ ts → due t0 ≤ limit → ∃ t, next_due limit ts = Some t.
Proof.
  intros Hin Hdue. unfold next_due. destruct (earliest ts) as [t|] eqn:He; simpl.
  - pose proof (earliest_le _ _ He) as Hall. rewrite Forall_forall in Hall.
    specialize (Hall t0 Hin). exists t.
    assert (Hle : (due t <=? limit) = true) by (apply Nat.leb_le; lia). by rewrite Hle.
  - apply earliest_none in He. subst. by apply elem_of_nil in Hin.
Qed.

Lemma run_timers_closes limit fuel : ∀ w t0,
  Inv w → Tidy w → length (timers w) ≤ fuel →
  t0 ∈ timers w → is_end t0 = true → due t0 ≤ limit →
  ∃ w',
    run_timers fuel limit w = Some w' ∧ Inv w' ∧
    _loadStart w' = None ∧ timers w' = [] ∧ bound w' = [] ∧
    head (log w') = Some Discarded.
Proof.
  induction fuel as [|fuel IH]; intros w t0 HI HT Hlen Hin He Hdue.
  { destruct (timers w); [by apply elem_of_nil in Hin | simpl in Hlen; lia]. }
  simpl. destruct (next_due_some limit _ _ Hin Hdue) as [t Ht]. rewrite Ht.
  apply next_due_elem in Ht as [Htin Htdue].
  destruct (fire_tidy w t HI HT Htin) as (w1 & Hf & HI1 & HT1 & Hlt & Hb1 & _ & _ & Hend).
  rewrite Hf. simpl. destruct (is_end t) eqn:Het.
  - destruct (Hend eq_refl) as (Hs1 & Hts1 & Hlog1).
    rewrite run_timers_nil by done. exists w1. split_and!; try done.
    destruct HI1 as [_ HI1]. rewrite Hs1 in HI1. by destruct HI1.
  - apply (IH w1 t0); try done; [lia|].
    assert (Ha : action t = StartAction).
    { unfold is_end, is_start in Het. by destruct (action t). }
    destruct (fire_start w t HI Htin Ha) as (s & Hs & Hf' & _).
    rewrite Hf in Hf'. injection Hf' as ->. simpl.
    apply list_elem_of_filter. split; [|done]. intros Heq.
    unfold is_end, is_start in He. destruct (action t0) as [|r] eqn:Ha0; [done|].
    destruct HI as [_ HI]. rewrite Hs in HI. destruct HI as [_ HI].
    rewrite Forall_forall in HI. pose proof (HI t0 Hin) as H0. pose proof (HI t Htin) as H1.
    unfold timer_ok in H0, H1. rewrite Ha0 in H0. rewrite Ha in H1.
    destruct H0 as (_ & H0 & _).
    destruct HT as (_ & _ & HT). rewrite Hs in HT. destruct HT as (_ & T4 & _).
    destruct (T4 _ H0). congruence.
Qed.

Lemma set_now_fields n w :
  _loadStart (set_now n w) = _loadStart w ∧ timers (set_now n w) = timers w ∧
  bound (set_now n w) = bound w ∧ log (set_now n w) = log w ∧
  arrays (set_now n w) = arrays w ∧ now (set_now n w) = n.
Proof. by destruct w. Qed.

(** ** Invariants of the states the handler reaches *)

(** X1. In every state reached from a fresh object, the [load:end]
    listeners that are bound are exactly the entries of the signal's
    [events] array, in order; and when there is no signal nothing is left
    behind: no timer is pending and no listener is bound. *)
Theorem nothing_left_between_episodes (d e : option nat) (ins : list Input) (w : World) :
  exec ins (init d e) = Some w →
  bound w = pending w ∧
  (_loadStart w = None → timers w = [] ∧ bound w = [] ∧ phase (log w) = Some Idle).
Proof.
  intros Hw. destruct (reachable_tidy d e ins w Hw) as [HI _].
  split; [by rewrite pending_bound|]. intros Hs.
  destruct HI as [Hp HI]. unfold abs in Hp. rewrite Hs in HI, Hp. by destruct HI.
Qed.

Lemma nothing_left_between_episodes_witness :
  let ins := [LoadStart None false 7; Elapse 400; LoadEnd 7; Elapse 100] in
  ∃ w,
    exec ins (init None None) = Some w ∧ _loadStart w = None ∧
    bound w = pending w ∧ timers w = [] ∧ bound w = [] ∧ phase (log w) = Some Idle.
Proof.
  intros ins.
  exists (hidden None None None false 500).
  assert (Hw : exec ins (init None None) = Some (hidden None None None false 500))
    by (vm_compute; reflexivity).
  destruct (nothing_left_between_episodes None None ins _ Hw) as [Hb Hn].
  split; [exact Hw|]. split; [reflexivity|]. split; [exact Hb|]. apply Hn. reflexivity.
Defined.

(** X2. In every state reached from a fresh object at most one start timer
    and at most one end timer are pending; a pending start timer is the
    one whose handle is in [_loadStart.timeout], a pending end timer the
    one in [_loadStart.endTimeout], and an end timer is pending only while
    no source is. *)
Theorem one_timer_of_each_kind (d e : option nat) (ins : list Input) (w : World) :
  exec ins (init d e) = Some w →
  length (starts w) ≤ 1 ∧ length (ends w) ≤ 1 ∧
  ∀ t, t ∈ timers w →
    ∃ s, _loadStart w = Some s ∧
         if is_start t then tid t = timeout s
         else endTimeout s = Some (tid t) ∧ tid t ≠ timeout s ∧ pending w = [].
Proof.
  intros Hw. destruct (reachable_tidy d e ins w Hw) as [HI HT].
  pose proof (pending_bound w HI) as Hpb.
  destruct HT as (T1 & T2 & T3). split; [done|]. split; [done|].
  intros t Hin. destruct HI as [_ HI]. destruct (_loadStart w) as [s|].
  - exists s. split; [done|]. destruct HI as [_ HI]. rewrite Forall_forall in HI.
    specialize (HI t Hin). unfold timer_ok in HI. unfold is_start.
    destruct (action t); [done|]. destruct HI as (_ & He & Hb).
    destruct T3 as (_ & T4 & _). destruct (T4 _ He). by rewrite Hpb.
  - destruct HI as [_ HI]. rewrite HI in Hin. by apply elem_of_nil in Hin.
Qed.

Lemma one_timer_of_each_kind_witness :
  let ins := [LoadStart None false 7; Elapse 300; LoadEnd 7] in
  ∃ w,
    exec ins (init None None) = Some w ∧
    length (starts w) = 1 ∧ length (ends w) = 1 ∧
    ∀ t, t ∈ timers w →
      ∃ s, _loadStart w = Some s ∧
           if is_start t then tid t = timeout s
           else endTimeout s = Some (tid t) ∧ tid t ≠ timeout s ∧ pending w = [].
Proof.
  intros ins.
  exists (ending None None None false 300 300).
  assert (Hw : exec ins (init None None) = Some (ending None None None false 300 300))
    by (vm_compute; reflexivity).
  split; [exact Hw|]. split; [reflexivity|]. split; [reflexivity|].
  apply (one_timer_of_each_kind None None ins _ Hw).
Defined.

(** X3. In a state reached from a fresh object, one [load:end] of a source
    runs every listener bound to it: all entries of that source leave the
    pending list at once (the other entries keep their order), whether it
    started once or several times; no callback is called and the signal,
    if there is one, stays. For a source that is not pending the event
    changes nothing. *)
Theorem load_end_clears_every_entry_of_source
    (d e : option nat) (ins : list Input) (w : World) (o : Obj) :
  exec ins (init d e) = Some w →
  ∃ w',
    trigger_loadEnd o w = Some w' ∧
    pending w' = filter (λ x, x ≠ o) (pending w) ∧
    log w' = log w ∧
    (is_Some (_loadStart w') ↔ is_Some (_loadStart w)) ∧
    (o ∉ pending w → w' = w).
Proof.
  intros Hw. destruct (reachable_tidy d e ins w Hw) as [HI HT].
  destruct (dispatch_tidy o _ w HI HT eq_refl) as (w' & Hd & HI' & _ & Hb & Hl & Ha).
  exists w'. split; [exact Hd|]. rewrite !pending_bound by done.
  split; [done|]. split; [done|]. split.
  - unfold abs in Ha. destruct (_loadStart w'), (_loadStart w); try done.
    all: split; intros [? ?]; done.
  - intros Hnot. unfold count in Hd.
    assert (Hz : filter (λ x, x = o) (bound w) = []).
    { apply filter_none, Forall_forall. intros x Hx ->.
      by apply Hnot. }
    rewrite Hz in Hd. simpl in Hd. by injection Hd.
Qed.

Lemma load_end_clears_every_entry_of_source_witness :
  let ins := [LoadStart None true 7; LoadStart None true 8; LoadStart None true 7] in
  ∃ w w',
    exec ins (init None None) = Some w ∧ pending w = [7; 8; 7] ∧
    trigger_loadEnd 7 w = Some w' ∧ pending w' = [8] ∧ log w' = log w.
Proof.
  intros ins.
  assert (Hw : ∃ w, exec ins (init None None) = Some w ∧ pending w = [7; 8; 7]).
  { eexists; split; vm_compute; reflexivity. }
  destruct Hw as (w & Hw & Hp). exists w.
  destruct (load_end_clears_every_entry_of_source None None ins w 7 Hw)
    as (w' & Hd & Hp' & Hl & _).
  exists w'. split; [exact Hw|]. split; [exact Hp|]. split; [exact Hd|].
  split; [|exact Hl]. rewrite Hp', Hp. reflexivity.
Defined.

Lemma elapse_closes w s ms :
  Inv w → Tidy w → _loadStart w = Some s → bound w = [] → endDelay w ≤ ms →
  ∃ w',
    elapse ms w = Some w' ∧
    _loadStart w' = None ∧ timers w' = [] ∧ bound w' = [] ∧
    head (log w') = Some Discarded.
Proof.
  intros HI HT Hs Hp Hms.
  pose proof HT as (_ & _ & T3). rewrite Hs in T3. destruct T3 as (_ & _ & T5).
  destruct (T5 Hp) as (t0 & Hin & Ha & Hdue).
  destruct (run_timers_closes (now w + ms) (length (timers w)) w t0 HI HT)
    as (w1 & Hr & _ & Hs1 & Hts1 & Hb1 & Hl1); try done.
  { unfold is_end, is_start. by rewrite Ha. }
  { lia. }
  unfold elapse. rewrite Hr. simpl. eexists. split; [done|].
  destruct (set_now_fields (now w + ms) w1) as (-> & -> & -> & -> & _). done.
Qed.

(** X4. In a state reached from a fresh object, if a signal exists and no
    source is pending, the episode closes once the end delay has passed
    with no further event: the signal is discarded, no timer stays pending
    and no listener stays bound. *)
Theorem episode_closes_after_end_delay
    (d e : option nat) (ins : list Input) (w : World) (s : Signal) (ms : nat) :
  exec ins (init d e) = Some w →
  _loadStart w = Some s →
  pending w = [] →
  endDelay w ≤ ms →
  ∃ w',
    elapse ms w = Some w' ∧
    _loadStart w' = None ∧ timers w' = [] ∧ bound w' = [] ∧
    head (log w') = Some Discarded.
Proof.
  intros Hw Hs Hp Hms. destruct (reachable_tidy d e ins w Hw) as [HI HT].
  rewrite pending_bound in Hp by done. by apply (elapse_closes w s ms).
Qed.

Lemma episode_closes_after_end_delay_witness :
  let ins := [LoadStart None false 7; Elapse 400; LoadEnd 7] in
  ∃ w w',
    exec ins (init None None) = Some w ∧ is_Some (_loadStart w) ∧ pending w = [] ∧
    endDelay w ≤ 100 ∧
    elapse 100 w = Some w' ∧
    _loadStart w' = None ∧ timers w' = [] ∧ bound w' = [] ∧
    head (log w') = Some Discarded.
Proof.
  intros ins.
  pose (w := hiding None None None false 400 400).
  assert (Hw : exec ins (init None None) = Some w) by (vm_compute; reflexivity).
  assert (Hle : endDelay w ≤ 100) by (vm_compute; lia).
  destruct (episode_closes_after_end_delay None None ins w _ 100 Hw eq_refl eq_refl Hle)
    as (w' & H).
  exists w, w'. split; [exact Hw|]. split; [by eexists|]. split; [reflexivity|].
  split; [exact Hle|]. exact H.
Defined.

(** X5. In a state reached from a fresh object whose signal is background,
    a non-background [load:start] makes [onStart] run at the next timer
    turn, however little time passes and whatever the start delay is, with
    the new message and [background = false]; this happens also when
    [onStart] has already run in the episode. *)
Theorem upgrade_calls_onStart_at_next_turn
    (d e : option nat) (ins : list Input) (w : World) (s : Signal)
    (msg : option string) (o : Obj) (ms : nat) :
  exec ins (init d e) = Some w →
  _loadStart w = Some s →
  background s = true →
  ∃ w' s',
    exec [LoadStart msg false o; Elapse ms] w = Some w' ∧
    log w' = OnStart msg false :: log w ∧
    _loadStart w' = Some s' ∧ run s' = true ∧ background s' = false ∧
    timers w' = [] ∧ pending w' = pending w ++ [o].
Proof.
  intros Hw Hs Hbg. destruct (reachable_tidy d e ins w Hw) as [HI _].
  destruct (handler_open w s msg false o HI Hs)
    as (w1 & s1 & Hh & HI1 & Hs1 & Hl1 & Hb1 & Hn1 & _ & _ & _ & _ & Hm1 & _ & Hc).
  rewrite Hbg in Hc. simpl in Hc. destruct Hc as (Hbg1 & _ & _ & Hts1).
  rewrite (exec_step (LoadStart msg false o) _ _ _ Hh). cbn [exec step].
  set (t := mkTimer (nextTimer w) (now w) StartAction) in *.
  assert (Hin : t ∈ timers w1) by (rewrite Hts1; left).
  destruct (fire_start w1 t HI1 Hin eq_refl) as (s1' & Hs1' & Hf & HI2).
  rewrite Hs1 in Hs1'. injection Hs1' as <-.
  assert (Hnd : next_due (now w1 + ms) (timers w1) = Some t).
  { rewrite Hts1. unfold next_due. simpl.
    assert (Hle : (now w <=? now w1 + ms) = true) by (apply Nat.leb_le; lia).
    by rewrite Hle. }
  unfold elapse. rewrite Hts1. cbn [length run_timers]. rewrite Hnd, Hf.
  cbn [mbind option_bind run_timers]. eexists _, _. split; [reflexivity|].
  simpl. rewrite Hm1, Hbg1, Hl1. split; [done|]. split; [done|]. split; [done|].
  split; [done|]. split.
  - rewrite Hts1. simpl. by rewrite filter_cons_False by (intros H; by apply H).
  - rewrite (pending_bound w HI). rewrite <- Hb1.
    destruct HI1 as [_ HI1]. rewrite Hs1 in HI1. destruct HI1 as [Harr _].
    unfold pending. simpl. by rewrite Harr.
Qed.

Lemma upgrade_calls_onStart_at_next_turn_witness :
  let ins := [LoadStart None true 7; Elapse 400] in
  ∃ w w',
    exec ins (init None None) = Some w ∧
    (background <$> _loadStart w) = Some true ∧ (run <$> _loadStart w) = Some true ∧
    exec [LoadStart (Some "saving") false 8; Elapse 0] w = Some w' ∧
    log w' = OnStart (Some "saving") false :: log w.
Proof.
  intros ins.
  pose (w := shown None None None true 7 400).
  assert (Hw : exec ins (init None None) = Some w) by (vm_compute; reflexivity).
  destruct (upgrade_calls_onStart_at_next_turn None None ins w _ (Some "saving") 8 0
              Hw eq_refl eq_refl) as (w' & s' & He & Hl & _).
  exists w, w'. split; [exact Hw|]. split; [reflexivity|]. split; [reflexivity|].
  split; [exact He | exact Hl].
Defined.

(** ** Starts that gather before the start timer fires *)

Lemma handler_gathering d e msg bg os id nx due m b o :
  handler m b o (gathering d e msg bg os id nx due) =
  Some (if negb b && bg
        then gathering d e m false (os ++ [o]) nx (S nx) 0
        else gathering d e m bg (os ++ [o]) id nx due).
Proof.
  unfold handler, gathering. simpl. destruct (negb b && bg) eqn:Hc; simpl.
  - unfold startLoadTimeout. simpl.
    rewrite filter_cons_False by (intros H; by apply H). simpl. done.
  - done.
Qed.

Lemma elapse_gathering d e msg bg os id nx due ms :
  due ≤ ms →
  elapse ms (gathering d e msg bg os id nx due) =
  Some (mkWorld (Some (mkSignal 0 id None msg bg true)) d e [os] os [] nx ms
          [OnStart msg bg; Created]).
Proof.
  intros Hle. unfold elapse, gathering. simpl. unfold next_due. simpl.
  assert (Hd : (due <=? ms) = true) by (by apply Nat.leb_le). rewrite Hd. simpl.
  unfold fire. simpl. rewrite filter_cons_False by (intros H; by apply H). done.
Qed.

Lemma exec_gathering d e ms (more : list Start) : ∀ msg bg os id nx due,
  due ≤ ms →
  ∃ w,
    exec (map start_input more ++ [Elapse ms]) (gathering d e msg bg os id nx due)
      = Some w ∧
    log w = [OnStart (default msg (last (map (λ x, x.1.1) more)))
               (bg && forallb (λ x, x.1.2) more);
             Created] ∧
    pending w = os ++ map snd more ∧ timers w = [].
Proof.
  induction more as [|[[m b] o] more IH]; intros msg bg os id nx due Hle.
  - cbn [map app exec step]. rewrite elapse_gathering by done. eexists. split; [done|].
    simpl. rewrite andb_true_r, app_nil_r. done.
  - assert (Hlast : ∀ l, default msg (last (m :: l)) = default m (last l)).
    { intros [|m' l]; [done|]. rewrite last_cons_cons.
      destruct (last (m' :: l)) eqn:Hl; [done|]. by apply last_None in Hl. }
    cbn [map app exec step start_input fst snd]. rewrite handler_gathering.
    cbn [mbind option_bind].
    cbn [map forallb fst snd]. rewrite Hlast. destruct (negb b && bg) eqn:Hc.
    + destruct (IH m false (os ++ [o]) nx (S nx) 0) as (w & Hw & Hl & Hp & Hts); [lia|].
      exists w. split; [exact Hw|]. rewrite Hl, Hp, <- app_assoc.
      destruct b, bg; done.
    + destruct (IH m bg (os ++ [o]) id nx due Hle) as (w & Hw & Hl & Hp & Hts).
      exists w. split; [exact Hw|]. rewrite Hl, Hp, <- app_assoc.
      destruct b, bg; done.
Qed.

(** X6. Any number of [load:start] events that reach a fresh object before
    time passes make one episode: once the start delay has passed [onStart]
    is called exactly once, with the message of the last event and with
    [background] true only if every event was background; all the sources
    are pending, in arrival order. *)
Theorem gathered_starts_make_one_call
    (d e : option nat) (m0 : option string) (b0 : bool) (o0 : Obj)
    (more : list Start) (ms : nat) :
  default View_loadingTimeoutDuration d ≤ ms →
  ∃ w,
    exec (LoadStart m0 b0 o0 :: map start_input more ++ [Elapse ms]) (init d e) = Some w ∧
    log w = [OnStart (default m0 (last (map (λ x, x.1.1) more)))
               (b0 && forallb (λ x, x.1.2) more);
             Created] ∧
    pending w = o0 :: map snd more ∧ timers w = [].
Proof.
  intros Hle.
  rewrite (exec_step (LoadStart m0 b0 o0) _ _ _ (handler_init d e m0 b0 o0)).
  apply (exec_gathering d e ms more m0 b0 [o0] 1 2 _ Hle).
Qed.

Lemma gathered_starts_make_one_call_witness :
  ∃ w,
    exec (LoadStart (Some "a") true 1
            :: map start_input [(Some "b", false, 2); (Some "c", true, 3)] ++ [Elapse 330])
      (init None None) = Some w ∧
    log w = [OnStart (Some "c") false; Created] ∧
    pending w = [1; 2; 3] ∧ timers w = [].
Proof.
  apply (gathered_starts_make_one_call None None (Some "a") true 1
           [(Some "b", false, 2); (Some "c", true, 3)] 330).
  vm_compute. lia.
Defined.

(** ** A load that outlasts the start delay *)

Lemma elapse_started_late d e msg bg o n ms :
  default View_loadingTimeoutDuration d ≤ n + ms →
  elapse ms (started d e msg bg o n) = Some (shown d e msg bg o (n + ms)).
Proof.
  intros Hle. unfold elapse, started. simpl. unfold next_due. simpl.
  apply Nat.leb_le in Hle. rewrite Hle. simpl.
  unfold fire. simpl. rewrite filter_cons_False by (intros H; by apply H). done.
Qed.

Lemma end_shown d e msg bg o n :
  trigger_loadEnd o (shown d e msg bg o n) = Some (hiding d e msg bg n n).
Proof.
  unfold trigger_loadEnd, shown. simpl. rewrite filter_cons_True by done. simpl.
  unfold endCallback. simpl. rewrite decide_True by done. simpl. done.
Qed.

Lemma elapse_hiding d e msg bg t n ms :
  t + default View_loadingTimeoutEndDuration e ≤ n + ms →
  elapse ms (hiding d e msg bg t n) = Some (hidden d e msg bg (n + ms)).
Proof.
  intros Hle. unfold elapse, hiding. simpl. unfold next_due. simpl.
  apply Nat.leb_le in Hle. rewrite Hle. simpl.
  unfold fire. simpl. done.
Qed.

Lemma elapse_ending_late d e msg bg t n ms :
  default View_loadingTimeoutDuration d ≤ t + default View_loadingTimeoutEndDuration e →
  t + default View_loadingTimeoutEndDuration e ≤ n + ms →
  elapse ms (ending d e msg bg t n) = Some (hidden d e msg bg (n + ms)).
Proof.
  intros Hde Hle. unfold elapse, ending. simpl. unfold next_due. simpl.
  assert (H1 : (t + default View_loadingTimeoutEndDuration e
                  <? default View_loadingTimeoutDuration d) = false)
    by (by apply Nat.ltb_ge).
  assert (H2 : (default View_loadingTimeoutDuration d <=? n + ms) = true)
    by (apply Nat.leb_le; lia).
  rewrite H1. simpl. rewrite H2. simpl. unfold fire. simpl.
  rewrite filter_cons_False by (intros H; by apply H).
  rewrite filter_cons_True by done. simpl.
  apply Nat.leb_le in Hle. rewrite Hle. simpl. done.
Qed.

(** X7. One [load:start], the [load:end] of its source [t] ms later, then
    at least the end delay: if [t] plus the end delay reaches the start
    delay, [onStart] and then [onEnd] are each called exactly once, with
    the message and background flag of the start, the signal triggers its
    own [load:end] and is discarded, and nothing stays pending. *)
Theorem slow_load_shows_and_hides
    (d e : option nat) (msg : option string) (bg : bool) (o : Obj) (t u : nat) :
  default View_loadingTimeoutDuration d ≤ t + default View_loadingTimeoutEndDuration e →
  default View_loadingTimeoutEndDuration e ≤ u →
  ∃ w,
    exec [LoadStart msg bg o; Elapse t; LoadEnd o; Elapse u] (init d e) = Some w ∧
    log w = [Discarded; SignalLoadEnd; OnEnd bg; OnStart msg bg; Created] ∧
    _loadStart w = None ∧ timers w = [] ∧ bound w = [] ∧ now w = t + u.
Proof.
  intros Hde Hu.
  rewrite (exec_step (LoadStart msg bg o) _ _ _ (handler_init d e msg bg o)).
  destruct (decide (default View_loadingTimeoutDuration d ≤ t)) as [Hlate|Hearly].
  - rewrite (exec_step (Elapse t) _ _ (shown d e msg bg o (0 + t))).
    2:{ apply elapse_started_late. lia. }
    rewrite (exec_step (LoadEnd o) _ _ _ (end_shown d e msg bg o (0 + t))).
    rewrite (exec_step (Elapse u) _ _ (hidden d e msg bg (0 + t + u))).
    2:{ apply elapse_hiding. lia. }
    eexists. split; [reflexivity|]. done.
  - rewrite (exec_step (Elapse t) _ _ (started d e msg bg o (0 + t))).
    2:{ apply elapse_started. lia. }
    rewrite (exec_step (LoadEnd o) _ _ _ (end_started d e msg bg o (0 + t))).
    rewrite (exec_step (Elapse u) _ _ (hidden d e msg bg (0 + t + u))).
    2:{ apply elapse_ending_late; lia. }
    eexists. split; [reflexivity|]. done.
Qed.

Lemma slow_load_shows_and_hides_witness :
  ∃ w,
    exec [LoadStart (Some "m") false 7; Elapse 250; LoadEnd 7; Elapse 100] (init None None)
      = Some w ∧
    log w = [Discarded; SignalLoadEnd; OnEnd false; OnStart (Some "m") false; Created] ∧
    _loadStart w = None ∧ timers w = [] ∧ bound w = [] ∧ now w = 250 + 100.
Proof.
  apply (slow_load_shows_and_hides None None (Some "m") false 7 250 100);
    vm_compute; lia.
Defined.

(** ** Induction over the states the handler reaches *)

Section reach.
Variable P : World → Prop.
Hypothesis P_init : ∀ d e, P (init d e).
Hypothesis P_handler : ∀ msg bg o w w',
  Inv w → Tidy w → P w → handler msg bg o w = Some w' → P w'.
Hypothesis P_endCallback : ∀ o w w',
  Inv w → Tidy w → P w → o ∈ bound w → endCallback o w = Some w' → P w'.
Hypothesis P_fire : ∀ t w w',
  Inv w → Tidy w → P w → t ∈ timers w → fire t w = Some w' → P w'.
Hypothesis P_set_now : ∀ n w, Inv w → P w → P (set_now n w).

Lemma dispatch_reach o n : ∀ w,
  Inv w → Tidy w → P w → count o (bound w) = n →
  ∃ w', dispatch n o w = Some w' ∧ Inv w' ∧ Tidy w' ∧ P w'.
Proof.
  induction n as [|n IH]; intros w HI HT HP Hc; simpl; [eauto|].
  assert (Hin : o ∈ bound w) by (apply count_pos_elem; lia).
  destruct (bound_signal w o HI Hin) as [s Hs].
  destruct (endCallback_tidy w s o HI HT Hs Hin) as (w1 & He & HI1 & HT1 & Hb1 & _).
  rewrite He. simpl. apply IH; try done.
  - by apply (P_endCallback o w w1).
  - rewrite Hb1, count_remove_first. lia.
Qed.

Lemma run_timers_reach limit fuel : ∀ w,
  Inv w → Tidy w → P w →
  ∃ w', run_timers fuel limit w = Some w' ∧ Inv w' ∧ Tidy w' ∧ P w'.
Proof.
  induction fuel as [|fuel IH]; intros w HI HT HP; simpl; [eauto|].
  destruct (next_due limit (timers w)) as [t|] eqn:Hn; [|eauto].
  apply next_due_elem in Hn as [Hin _].
  destruct (fire_tidy w t HI HT Hin) as (w1 & Hf & HI1 & HT1 & _).
  rewrite Hf. simpl. apply IH; try done. by apply (P_fire t w w1).
Qed.

Lemma step_reach i w :
  Inv w → Tidy w → P w → ∃ w', step i w = Some w' ∧ Inv w' ∧ Tidy w' ∧ P w'.
Proof.
  intros HI HT HP. destruct i as [msg bg o|o|ms]; simpl.
  - destruct (handler_tidy msg bg o w HI HT) as (w' & Hh & HI' & HT').
    exists w'. split_and!; try done. by apply (P_handler msg bg o w w').
  - by apply dispatch_reach.
  - destruct (elapse_tidy ms w HI HT) as (w' & He & HI' & HT' & _).
    exists w'. split_and!; try done. unfold elapse in He.
    destruct (run_timers_reach (now w + ms) (length (timers w)) w HI HT HP)
      as (w1 & Hr & HI1 & _ & HP1).
    rewrite Hr in He. simpl in He. injection He as <-. by apply P_set_now.
Qed.

Lemma exec_reach ins : ∀ w,
  Inv w → Tidy w → P w → ∃ w', exec ins w = Some w' ∧ Inv w' ∧ Tidy w' ∧ P w'.
Proof.
  induction ins as [|i ins IH]; intros w HI HT HP; simpl; [eauto|].
  destruct (step_reach i w HI HT HP) as (w1 & -> & HI1 & HT1 & HP1). simpl. by apply IH.
Qed.

Lemma reachable_ind d e ins w : exec ins (init d e) = Some w → P w.
Proof.
  intros Hw. destruct (exec_reach ins (init d e) (init_Inv d e) (init_tidy d e) (P_init d e))
    as (w' & Hw' & _ & _ & HP). rewrite Hw in Hw'. by injection Hw' as <-.
Qed.

End reach.

(** ** How the log grows *)

Lemma handler_log msg bg o w w' :
  Inv w → handler msg bg o w = Some w' →
  match _loadStart w with
  | None =>
      log w' = Created :: log w ∧ ∃ s', _loadStart w' = Some s'
  | Some s =>
      log w' = log w ∧
      ∃ s', _loadStart w' = Some s' ∧ run s' = run s ∧
            (background s' = background s ∨ background s = true) ∧
            (starts w' ≠ [] → background s' = background s → starts w ≠ [])
  end.
Proof.
  intros HI Hh. destruct (_loadStart w) as [s|] eqn:Hs.
  - destruct (handler_open w s msg bg o HI Hs)
      as (w1 & s1 & Hh1 & _ & Hs1 & Hl & _ & _ & _ & _ & _ & _ & _ & Hr & Hc).
    rewrite Hh in Hh1. injection Hh1 as <-. split; [done|]. exists s1.
    split; [done|]. split; [done|]. destruct (negb bg && background s) eqn:Hup.
    + apply andb_prop in Hup as [_ Hbg]. destruct Hc as (Hb1 & _). split; [by right|].
      intros _ Heq. congruence.
    + destruct Hc as (Hb1 & _ & _ & Hts & _). split; [by left|]. intros Hne _ Hnil.
      apply Hne. unfold starts in *. rewrite Hts.
      destruct (endTimeout s); simpl; [|done]. rewrite timers_clearTimeout.
      apply length_zero_iff_nil.
      pose proof (length_filter_filter (λ t, is_start t = true) (λ t, tid t ≠ n) (timers w)).
      rewrite Hnil in H. simpl in H. lia.
  - destruct (handler_new w msg bg o HI Hs) as [Hh1 _].
    rewrite Hh in Hh1. injection Hh1 as ->. split; [done|]. by eexists.
Qed.

Lemma endCallback_log o w w' :
  Inv w → o ∈ bound w → endCallback o w = Some w' →
  log w' = log w ∧
  ∃ s s', _loadStart w = Some s ∧ _loadStart w' = Some s' ∧
          run s' = run s ∧ background s' = background s ∧ starts w' = starts w.
Proof.
  intros HI Hin He. destruct (bound_signal w o HI Hin) as [s Hs].
  destruct (endCallback_ok w s o HI Hs Hin)
    as (w1 & s1 & He1 & _ & Hs1 & (Hl & _) & (_ & _ & _ & Hb & Hr) & _ & _ & Hm).
  rewrite He in He1. injection He1 as <-. split; [done|]. exists s, s1.
  split_and!; try done. unfold starts. destruct (bound w').
  - destruct Hm as (-> & _). rewrite filter_app. simpl. by rewrite app_nil_r.
  - by destruct Hm as (-> & _).
Qed.

Lemma fire_log t w w' :
  Inv w → t ∈ timers w → fire t w = Some w' →
  ∃ s, _loadStart w = Some s ∧
    if is_start t
    then log w' = OnStart (message s) (background s) :: log w ∧
         _loadStart w' = Some (set_run true s) ∧ starts w ≠ [] ∧ starts w' = []
    else log w' = Discarded ::
                    (if run s then [SignalLoadEnd; OnEnd (background s)] else []) ++ log w ∧
         _loadStart w' = None.
Proof.
  intros HI Hin Hf. unfold is_start. destruct (action t) as [|r] eqn:Ha.
  - destruct (fire_start w t HI Hin Ha) as (s & Hs & Hf1 & _).
    rewrite Hf in Hf1. injection Hf1 as ->. exists s. split; [done|]. simpl.
    split; [done|]. split; [done|]. unfold starts. simpl. split.
    + intros Hnil. assert (Ht : t ∈ filter (λ t, is_start t = true) (timers w)).
      { apply list_elem_of_filter. unfold is_start. by rewrite Ha. }
      rewrite Hnil in Ht. by apply elem_of_nil in Ht.
    + apply filter_none, Forall_forall. intros t' Ht' Hst.
      apply list_elem_of_filter in Ht' as [Hne Ht'].
      destruct HI as [_ HI]. rewrite Hs in HI. destruct HI as [_ HI].
      rewrite Forall_forall in HI. pose proof (HI t' Ht') as H0. pose proof (HI t Hin) as H1.
      unfold timer_ok, is_start in *. rewrite Ha in H1.
      destruct (action t'); [congruence | done].
  - destruct (fire_end w t r HI Hin Ha) as (s & Hs & _ & Hf1 & _).
    rewrite Hf in Hf1. injection Hf1 as ->. exists s. done.
Qed.

Lemma log_set_now n w : log (set_now n w) = log w.
Proof. by destruct w. Qed.

Lemma split_cons {A} (c : A) l newer older :
  c :: l = newer ++ older →
  (newer = [] ∧ older = c :: l) ∨ (∃ n', newer = c :: n' ∧ l = n' ++ older).
Proof.
  destruct newer as [|c' n']; simpl; intros H; [by left|].
  injection H as -> ->. right. eauto.
Qed.

(** ** Every shown episode is hidden before it is discarded *)

Lemma paired_cons c l : c ≠ Discarded → paired l → paired (c :: l).
Proof.
  intros Hc Hl newer older Heq. apply split_cons in Heq as [[-> Heq]|(n' & -> & Heq)].
  - injection Heq as <- _. done.
  - by apply (Hl n').
Qed.

Lemma paired_discard l :
  paired l →
  (episode l = [] ∨ ∃ bg l', l = SignalLoadEnd :: OnEnd bg :: l') →
  paired (Discarded :: l).
Proof.
  intros Hl Hcase newer older Heq. apply split_cons in Heq as [[-> Heq]|(n' & -> & Heq)].
  - injection Heq as ->. intros (m & b & Hin). destruct Hcase as [Hnil|Hshape]; [|done].
    rewrite Hnil in Hin. by apply elem_of_nil in Hin.
  - by apply (Hl n').
Qed.

Lemma reachable_paired d e ins w : exec ins (init d e) = Some w → paired (log w).
Proof.
  apply (reachable_ind (λ w, paired (log w))); clear.
  - intros d e newer older Heq. by destruct newer.
  - intros msg bg o w w' HI _ HP Hh. pose proof (handler_log msg bg o w w' HI Hh) as Hl.
    destruct (_loadStart w).
    + destruct Hl as [-> _]. done.
    + destruct Hl as [-> _]. by apply paired_cons.
  - intros o w w' HI _ HP Hin He.
    destruct (endCallback_log o w w' HI Hin He) as [-> _]. done.
  - intros t w w' HI _ HP Hin Hf. destruct (fire_log t w w' HI Hin Hf) as (s & Hs & Hl).
    destruct (is_start t).
    + destruct Hl as (-> & _). by apply paired_cons.
    + destruct Hl as (-> & _). destruct (run s) eqn:Hr; simpl.
      * apply paired_discard; [|right; eauto]. by repeat apply paired_cons.
      * apply paired_discard; [done|]. left.
        destruct HI as [Hp _]. unfold abs in Hp. rewrite Hs, Hr in Hp.
        apply (phase_episode _ _ Hp).
  - intros n w _ HP. by rewrite log_set_now.
Qed.

(** X8. Whatever events reach a fresh object, an episode in which
    [onStart] was called is never discarded without [onEnd]: where the log
    shows a signal being discarded after an [onStart] of its episode, the
    two calls just before are [onEnd] and the signal's own [load:end], in
    that order. *)
Theorem shown_episode_is_hidden_before_discard
    (d e : option nat) (ins : list Input) (w : World) (newer older : list Call) :
  exec ins (init d e) = Some w →
  log w = newer ++ Discarded :: older →
  (∃ m b, OnStart m b ∈ episode older) →
  ∃ bg older', older = SignalLoadEnd :: OnEnd bg :: older'.
Proof.
  intros Hw Hlog Hin. by apply (reachable_paired d e ins w Hw newer older).
Qed.

Lemma shown_episode_is_hidden_before_discard_witness :
  let ins := [LoadStart None false 7; Elapse 400; LoadEnd 7; Elapse 100;
              LoadStart None true 8] in
  ∃ w older,
    exec ins (init None None) = Some w ∧
    log w = [Created] ++ Discarded :: older ∧
    OnStart None false ∈ episode older ∧
    ∃ bg older', older = SignalLoadEnd :: OnEnd bg :: older'.
Proof.
  intros ins.
  assert (Hw : ∃ w, exec ins (init None None) = Some w ∧
                    log w = [Created] ++ Discarded ::
                      [SignalLoadEnd; OnEnd false; OnStart None false; Created]).
  { eexists; split; vm_compute; reflexivity. }
  destruct Hw as (w & Hw & Hl).
  assert (Hin : OnStart None false ∈
                episode [SignalLoadEnd; OnEnd false; OnStart None false; Created]).
  { simpl. right. right. left. }
  exists w, [SignalLoadEnd; OnEnd false; OnStart None false; Created].
  split; [exact Hw|]. split; [exact Hl|]. split; [exact Hin|].
  apply (shown_episode_is_hidden_before_discard None None ins w [Created] _ Hw Hl).
  exists None, false. exact Hin.
Defined.

(** ** [onStart] runs at most once for each background flag *)

Lemma starts_called_cons b c l :
  starts_called b (c :: l) = (if is_start_call b c then 1 else 0) + starts_called b l.
Proof.
  unfold starts_called. rewrite filter_cons.
  destruct (is_start_call b c); simpl; [|done].
  destruct (decide (true = true)); done.
Qed.

Lemma starts_called_episode_other b c l :
  is_start_call b c = false → c ≠ Created →
  starts_called b (episode (c :: l)) = starts_called b (episode l).
Proof.
  intros Hs Hc. destruct c; try done; simpl; by rewrite starts_called_cons, ?Hs.
Qed.

Lemma once_each_cons c l :
  once_each l → (∀ b, starts_called b (episode (c :: l)) ≤ 1) → once_each (c :: l).
Proof.
  intros Hl Hc newer older b Heq.
  apply split_cons in Heq as [[-> ->]|(n' & -> & Heq)]; [done|]. by apply (Hl n').
Qed.

Lemma once_each_here l b : once_each l → starts_called b (episode l) ≤ 1.
Proof. intros Hl. by apply (Hl []). Qed.

Lemma init_paced d e : Paced (init d e).
Proof.
  split; [|done]. intros newer older b Heq. simpl in Heq.
  symmetry in Heq. apply app_eq_nil in Heq as [_ ->]. simpl. unfold starts_called. simpl. lia.
Qed.

Lemma handler_paced msg bg o w w' :
  Inv w → Paced w → handler msg bg o w = Some w' → Paced w'.
Proof.
  intros HI [Ho Hs] Hh. pose proof (handler_log msg bg o w w' HI Hh) as Hl.
  unfold Paced. destruct (_loadStart w) as [s|].
  - destruct Hl as (-> & s' & -> & _ & Hbg & Hst). split; [done|].
    destruct Hs as [Hb Ht]. split.
    + intros Hb'. apply Hb. destruct Hbg; congruence.
    + intros Hne. destruct Hbg as [Heq|Htrue].
      * rewrite Heq. by apply Ht, Hst.
      * destruct (background s') eqn:Hb'.
        -- rewrite <- Htrue. apply Ht, Hst; [done | congruence].
        -- by apply Hb.
  - destruct Hl as (-> & s' & ->). split.
    + apply once_each_cons; [done|]. intros b. simpl. unfold starts_called. simpl. lia.
    + done.
Qed.

Lemma endCallback_paced o w w' :
  Inv w → Paced w → o ∈ bound w → endCallback o w = Some w' → Paced w'.
Proof.
  intros HI [Ho Hs] Hin He.
  destruct (endCallback_log o w w' HI Hin He) as (Hl & s & s' & Hs0 & Hs1 & _ & Hb & Hst).
  unfold Paced. rewrite Hl, Hs1, Hb, Hst. rewrite Hs0 in Hs. done.
Qed.

Lemma fire_paced t w w' :
  Inv w → Paced w → t ∈ timers w → fire t w = Some w' → Paced w'.
Proof.
  intros HI [Ho Hs] Hin Hf. destruct (fire_log t w w' HI Hin Hf) as (s & Hs0 & Hl).
  rewrite Hs0 in Hs. destruct Hs as [Hb Ht]. unfold Paced. destruct (is_start t).
  - destruct Hl as (-> & -> & Hne & ->). specialize (Ht Hne). split; [|split; [|done]].
    + apply once_each_cons; [done|]. intros b. simpl. rewrite starts_called_cons. simpl.
      destruct (Bool.eqb (background s) b) eqn:Hbb.
      * apply Bool.eqb_prop in Hbb as <-. lia.
      * pose proof (once_each_here _ b Ho). lia.
    + simpl. intros Hbg. rewrite starts_called_cons. simpl. rewrite Hbg. simpl. by apply Hb.
  - destruct Hl as (-> & ->). split; [|done].
    assert (Hstep : ∀ c l, once_each l → (∀ b, is_start_call b c = false) → c ≠ Created →
                           once_each (c :: l)).
    { intros c l Hl Hc Hne. apply once_each_cons; [done|]. intros b.
      rewrite starts_called_episode_other by done. by apply once_each_here. }
    destruct (run s); simpl; repeat (apply Hstep; [|done|done]); done.
Qed.

Lemma set_now_paced n w : Paced w → Paced (set_now n w).
Proof. by destruct w. Qed.

Lemma reachable_paced d e ins w : exec ins (init d e) = Some w → Paced w.
Proof.
  apply (reachable_ind Paced); clear.
  - apply init_paced.
  - intros msg bg o w w' HI _ HP. by apply handler_paced.
  - intros o w w' HI _ HP. by apply endCallback_paced.
  - intros t w w' HI _ HP. by apply fire_paced.
  - intros n w _. apply set_now_paced.
Qed.

(** X9. Whatever events reach a fresh object, within one episode [onStart]
    is called at most once with [background = true] and at most once with
    [background = false], so at most twice in all; and while the signal is
    still background no non-background [onStart] has been called in the
    episode. *)
Theorem onStart_at_most_once_per_background_flag
    (d e : option nat) (ins : list Input) (w : World) :
  exec ins (init d e) = Some w →
  (∀ newer older b, log w = newer ++ older → starts_called b (episode older) ≤ 1) ∧
  (∀ s, _loadStart w = Some s → background s = true →
        starts_called false (episode (log w)) = 0).
Proof.
  intros Hw. destruct (reachable_paced d e ins w Hw) as [Ho Hs]. split.
  - intros newer older b Heq. by apply (Ho newer older b).
  - intros s Hs0. rewrite Hs0 in Hs. by destruct Hs.
Qed.

Lemma onStart_at_most_once_per_background_flag_witness :
  let ins := [LoadStart None true 7; Elapse 400; LoadStart None false 8; Elapse 0;
              LoadStart None false 9; Elapse 1000] in
  ∃ w,
    exec ins (init None None) = Some w ∧
    log w = [OnStart None false; OnStart None true; Created] ∧
    (∀ newer older b, log w = newer ++ older → starts_called b (episode older) ≤ 1).
Proof.
  intros ins.
  assert (Hw : ∃ w, exec ins (init None None) = Some w ∧
                    log w = [OnStart None false; OnStart None true; Created]).
  { eexists; split; vm_compute; reflexivity. }
  destruct Hw as (w & Hw & Hl). exists w. split; [exact Hw|]. split; [exact Hl|].
  apply (onStart_at_most_once_per_background_flag None None ins w Hw).
Defined.

(** ** Several loads of one source *)

Lemma exec_app ins1 ins2 w : exec (ins1 ++ ins2) w = exec ins1 w ≫= exec ins2.
Proof.
  revert w. induction ins1 as [|i ins1 IH]; intros w; simpl; [done|].
  destruct (step i w); simpl; [apply IH | done].
Qed.

Lemma one_source_end_closes d e m b1 b2 ms :
  default View_loadingTimeoutEndDuration e ≤ ms →
  ∃ w,
    exec [LoadStart None b1 m; LoadStart None b2 m; LoadEnd m; Elapse ms] (init d e)
      = Some w ∧
    _loadStart w = None ∧ timers w = [] ∧ bound w = [].
Proof.
  intros Hms.
  assert (H2 : ∃ bg id nx due,
             exec [LoadStart None b1 m; LoadStart None b2 m] (init d e)
             = Some (gathering d e None bg [m; m] id nx due)).
  { rewrite (exec_step (LoadStart None b1 m) _ _ _ (handler_init d e None b1 m)).
    cbn [exec step].
    change (started d e None b1 m 0)
      with (gathering d e None b1 [m] 1 2 (default View_loadingTimeoutDuration d)).
    rewrite handler_gathering. destruct (negb b2 && b1); cbn [mbind option_bind app]; eauto. }
  destruct H2 as (bg & id & nx & due & H2).
  destruct (reachable_tidy d e _ _ H2) as [HI HT].
  set (w2 := gathering d e None bg [m; m] id nx due) in *.
  destruct (dispatch_tidy m _ w2 HI HT eq_refl) as (w3 & H3 & HI3 & HT3 & Hb3 & _ & Ha3).
  assert (Hb : bound w3 = []).
  { rewrite Hb3. subst w2. cbn [bound gathering].
    rewrite !filter_cons_False by (intros H; by apply H). done. }
  assert (Hs : ∃ s, _loadStart w3 = Some s).
  { unfold abs in Ha3. destruct (_loadStart w3); [eauto|]. by subst w2. }
  destruct Hs as [s Hs].
  assert (He : endDelay w3 ≤ ms).
  { destruct (dispatch_ok m _ w2 HI eq_refl) as (w3' & H3' & _ & (_ & _ & _ & Hf) & _).
    rewrite H3 in H3'. injection H3' as <-. unfold endDelay. by rewrite Hf. }
  destruct (elapse_closes w3 s ms HI3 HT3 Hs Hb He) as (w4 & H4 & R1 & R2 & R3 & _).
  exists w4. split; [|done].
  change [LoadStart None b1 m; LoadStart None b2 m; LoadEnd m; Elapse ms]
    with ([LoadStart None b1 m; LoadStart None b2 m] ++ [LoadEnd m; Elapse ms]).
  rewrite exec_app, H2. cbn [mbind option_bind exec step]. unfold trigger_loadEnd.
  fold (count m (bound w2)). rewrite H3. cbn [mbind option_bind]. by rewrite H4.
Qed.

End LoadHandlerMoreFacts.

(* ===================================================================== *)
(** * Properties of the view's callbacks *)
(* ===================================================================== *)

Module ViewLoadFacts.
Import LoadHandler LoadHandlerFacts LoadHandlerMore LoadHandlerMoreFacts ViewLoad.

Lemma view_after_config l v :
  nonBlockingLoad (view_after l v) = nonBlockingLoad v ∧
  _loadingClassName (view_after l v) = _loadingClassName v.
Proof.
  induction l as [|c l [IH1 IH2]]; simpl; [done|].
  destruct c; simpl; try done.
  unfold onLoadStart. by destruct (negb _ && negb _).
Qed.

Lemma removeClass_added c l : c ∉ l → removeClass c (l ++ [c]) = l.
Proof.
  intros Hc. unfold removeClass. rewrite filter_app. simpl.
  rewrite filter_cons_False by (intros H; by apply H). simpl. rewrite app_nil_r.
  induction l as [|x l IH]; [done|].
  apply not_elem_of_cons in Hc as [Hx Hc].
  rewrite filter_cons_True by done. by rewrite IH.
Qed.

Lemma el_onLoadStart msg bg v :
  el (onLoadStart msg bg v) = addClass (_loadingClassName v) (el v).
Proof. unfold onLoadStart. by destruct (negb _ && negb _). Qed.

Lemma view_after_el l : ∀ p v,
  phase l = Some p →
  _loadingClassName v ∉ el v →
  el (view_after l v) =
    match p with
    | Open true => el v ++ [_loadingClassName v]
    | _ => el v
    end.
Proof.
  induction l as [|c l IH]; intros p v Hp Hc.
  - simpl in *. by injection Hp as <-.
  - change (view_after (c :: l) v) with (view_call c (view_after l v)).
    simpl in Hp. destruct (phase l) as [q|]; simpl in Hp; [|done].
    specialize (IH q v eq_refl Hc). destruct (view_after_config l v) as [_ Hn].
    destruct c as [|m b|b| |], q as [|[]|]; simpl in Hp; try done;
      injection Hp as <-; cbn [view_call]; try done.
    + rewrite el_onLoadStart, Hn, IH. unfold addClass.
      rewrite decide_True; [done|]. apply elem_of_app. right. left.
    + rewrite el_onLoadStart, Hn, IH. unfold addClass. by rewrite decide_False.
    + unfold onLoadEnd. simpl. rewrite Hn, IH. by apply removeClass_added.
Qed.

(** X10. A view whose element does not carry the loading class at first,
    after whatever [load:start] and [load:end] events and waits: the
    element carries the loading class exactly when there is a signal whose
    start timer has fired, the class is there once, at the end of the class
    list, and the other classes are as they were. *)
Theorem loading_class_follows_the_signal
    (d e : option nat) (ins : list Input) (w : World) (v : View) :
  exec ins (init d e) = Some w →
  _loadingClassName v ∉ el v →
  let v' := view_after (log w) v in
  el v' = (if bool_decide (run <$> _loadStart w = Some true)
           then el v ++ [_loadingClassName v]
           else el v) ∧
  (_loadingClassName v ∈ el v' ↔ ∃ s, _loadStart w = Some s ∧ run s = true).
Proof.
  intros Hw Hc v'. destruct (reachable_tidy d e ins w Hw) as [[Hp _] _].
  pose proof (view_after_el (log w) _ v Hp Hc) as Hel. fold v' in Hel.
  unfold abs in Hel. destruct (_loadStart w) as [s|]; simpl.
  - destruct (run s) eqn:Hr; simpl.
    + split; [done|]. rewrite Hel. split; [eauto|]. intros _.
      apply elem_of_app. right. left.
    + split; [done|]. rewrite Hel. split; [done|]. intros (s' & [= <-] & ?). congruence.
  - split; [done|]. rewrite Hel. split; [done|]. by intros (s' & ? & _).
Qed.

Lemma loading_class_follows_the_signal_witness :
  let ins := [LoadStart None false 7; Elapse 400] in
  let v := mkView false "loading" ["panel"] [] in
  ∃ w,
    exec ins (init None None) = Some w ∧
    el (view_after (log w) v) = ["panel"; "loading"].
Proof.
  intros ins v.
  pose (w := shown None None None false 7 400).
  assert (Hw : exec ins (init None None) = Some w) by (vm_compute; reflexivity).
  assert (Hc : _loadingClassName v ∉ el v).
  { apply (bool_decide_unpack _). vm_compute. exact I. }
  exists w. split; [exact Hw|].
  apply (loading_class_follows_the_signal None None ins w v Hw Hc).
Defined.

Lemma exports_log_view_after l v :
  ∃ new,
    exports_log (view_after l v) = new ++ exports_log v ∧
    Forall (λ x, x.2 = false) new ∧
    length new = (if nonBlockingLoad v then 0 else starts_called false l).
Proof.
  induction l as [|c l (new & IH & Hall & Hlen)]; simpl.
  - exists []. split; [done|]. split; [done|]. by destruct (nonBlockingLoad v).
  - destruct (view_after_config l v) as [Hnb _]. rewrite starts_called_cons.
    destruct c as [|m b|b| |]; simpl; try (exists new; split_and!; done).
    unfold onLoadStart. rewrite Hnb.
    destruct (nonBlockingLoad v), b; simpl; try (exists new; split_and!; done).
    exists ((m, false) :: new). simpl. rewrite IH. split; [done|].
    split; [by constructor | by rewrite Hlen].
Qed.

(** X11. Over whatever events reach a fresh view, a view with
    [nonBlockingLoad] set never triggers [load:start] on [exports]; any
    other view triggers it only with [background = false], and at most once
    in any one episode. *)
Theorem view_forwards_at_most_once_per_episode
    (d e : option nat) (ins : list Input) (w : World) (v : View) :
  exec ins (init d e) = Some w →
  (nonBlockingLoad v = true → exports_log (view_after (log w) v) = exports_log v) ∧
  (∃ new, exports_log (view_after (log w) v) = new ++ exports_log v ∧
          Forall (λ x, x.2 = false) new) ∧
  (∀ newer older,
     log w = newer ++ older →
     length (exports_log (view_after (episode older) v)) ≤ S (length (exports_log v))).
Proof.
  intros Hw. split; [|split].
  - intros Hnb. destruct (exports_log_view_after (log w) v) as (new & -> & _ & Hlen).
    rewrite Hnb in Hlen. by apply length_zero_iff_nil in Hlen as ->.
  - destruct (exports_log_view_after (log w) v) as (new & ? & ? & _). eauto.
  - intros newer older Heq.
    destruct (exports_log_view_after (episode older) v) as (new & -> & _ & Hlen).
    rewrite length_app, Hlen. destruct (reachable_paced d e ins w Hw) as [Ho _].
    pose proof (Ho newer older false Heq). destruct (nonBlockingLoad v); lia.
Qed.

Lemma view_forwards_at_most_once_per_episode_witness :
  let ins := [LoadStart (Some "a") true 7; Elapse 400; LoadStart (Some "b") false 8;
              Elapse 0; LoadStart (Some "c") false 9; Elapse 1000] in
  let v := mkView false "loading" [] [] in
  ∃ w,
    exec ins (init None None) = Some w ∧
    exports_log (view_after (log w) v) = [(Some "b", false)] ∧
    (∀ newer older,
       log w = newer ++ older →
       length (exports_log (view_after (episode older) v)) ≤ S (length (exports_log v))).
Proof.
  intros ins v.
  assert (Hw : ∃ w, exec ins (init None None) = Some w ∧
                    exports_log (view_after (log w) v) = [(Some "b", false)]).
  { eexists; split; vm_compute; reflexivity. }
  destruct Hw as (w & Hw & Hl). exists w. split; [exact Hw|]. split; [exact Hl|].
  apply (view_forwards_at_most_once_per_episode None None ins w v Hw).
Defined.

End ViewLoadFacts.

(* ===================================================================== *)
(** * Further properties of the data-object overrides *)
(* ===================================================================== *)

Module DataLoadMoreFacts.
Import DataLoad DataLoadFacts DataLoadMore.

#[local] Arguments loadData : simpl never.
#[local] Arguments fetch : simpl never.
#[local] Arguments fetchQueue : simpl never.
#[local] Arguments finalizer : simpl never.

(** ** With no request outstanding nothing is aborted *)

Lemma calm_refl w : _request w = None → calm w w.
Proof. unfold calm. done. Qed.

Lemma calm_trans w1 w2 w3 : calm w1 w2 → calm w2 w3 → calm w1 w3.
Proof. unfold calm. intuition congruence. Qed.

Lemma call_fn_calm f : ∀ args w, _request w = None → calm w (call_fn f args w).
Proof.
  induction f as [name|f flag IH| |f IH] using Fn_induction; intros args w Hr; simpl.
  - destruct w; simpl in *. unfold calm. simpl. done.
  - by apply IH.
  - rewrite Hr. destruct (truthy _); by apply calm_refl.
  - rewrite Hr. destruct (truthy _); by apply IH.
Qed.

Lemma finalize_calm g w : _request w = None → calm w (finalize g w).
Proof.
  intros Hr. destruct (finalize_frame g w) as (H1 & H2 & H3).
  unfold calm. by rewrite H1, H2, H3.
Qed.

Lemma finalizer_calm g c args w : _request w = None → calm w (finalizer g c args w).
Proof.
  intros Hr. destruct (guards w !! g) as [gd|] eqn:Hg.
  2:{ unfold finalizer. rewrite Hg. by apply calm_refl. }
  destruct (completed gd) eqn:Hc.
  { rewrite (finalizer_completed g gd c args w Hg Hc). by apply calm_refl. }
  rewrite (finalizer_pending g gd c args w Hg Hc). cbv zeta.
  pose proof (finalize_calm g w Hr) as Hf.
  destruct (c && _); [by apply calm_refl|].
  destruct (negb c && _).
  - eapply calm_trans; [exact Hf|]. apply call_fn_calm. by destruct Hf.
  - destruct (failback gd) as [fb|]; simpl; [|done].
    eapply calm_trans; [exact Hf|]. apply call_fn_calm. by destruct Hf.
Qed.

Lemma call_slot_calm s : ∀ args w, _request w = None → calm w (call_slot s args w).
Proof.
  induction s as [f|g| |c IH] using Slot_induction; intros args w Hr; simpl.
  - by apply call_fn_calm.
  - by apply finalizer_calm.
  - destruct w; simpl in *. unfold calm. simpl. done.
  - destruct (IH args w Hr) as (H1 & H2 & H3).
    destruct (call_slot c args w); simpl in *. unfold calm. simpl. done.
Qed.

Lemma replay_calm h args w o : _request w = None → calm w (replay h args w o).
Proof.
  intros Hr. unfold replay. destruct (handler_of h (deref w o)); [|by apply calm_refl].
  by apply call_slot_calm.
Qed.

Lemma replay_all_calm h args os : ∀ w,
  _request w = None → calm w (foldl (replay h args) w os).
Proof.
  induction os as [|o os IH]; intros w Hr; simpl; [by apply calm_refl|].
  pose proof (replay_calm h args w o Hr) as Hc.
  eapply calm_trans; [exact Hc|]. apply IH. by destruct Hc.
Qed.

Lemma flushQueue_calm q h args w : _request w = None → calm w (flushQueue q h args w).
Proof.
  intros Hr. unfold flushQueue.
  pose proof (replay_all_calm h args (default [] (queues w !! q)) w Hr) as Hc.
  destruct (bool_decide _); [|done].
  destruct (foldl _ _ _); simpl in *. done.
Qed.

Lemma call_transport_settled t : ∀ args w,
  _request w = None → _aborted w = Some false →
  let w' := call_transport t args w in
  _request w' = None ∧ _aborted w' = Some false ∧
  count_if is_abort (log w') = count_if is_abort (log w).
Proof.
  induction t as [q h| |c IH] using Transport_induction; intros args w Hr Ha; simpl.
  - destruct (flushQueue_calm q h args w Hr) as (H1 & H2 & H3). by rewrite H1, H2, H3.
  - destruct w; simpl in *. done.
  - destruct (IH args (set_aborted (Some false) (set_request None w))) as (H1 & H2 & H3).
    + by destruct w.
    + by destruct w.
    + rewrite H1, H2, H3. by destruct w.
Qed.

(** X12. When the transport runs the [complete] handler [Thorax.sync]
    installed, whatever handler it wraps and whatever is queued,
    [_request] is cleared and [_aborted] is false afterwards and no
    request is aborted meanwhile; a failback of [load] that runs after
    that for a navigation ([isError = false]) aborts nothing and leaves
    [_aborted] false. *)
Theorem complete_clears_the_request
    (c : option Transport) (args : list Val) (w : World) :
  let w' := call_transport (TSync c) args w in
  _request w' = None ∧ _aborted w' = Some false ∧
  count_if is_abort (log w') = count_if is_abort (log w) ∧
  ∀ fb args',
    let w'' := call_fn (Bound (LoadFailback fb) false) args' w' in
    _aborted w'' = Some false ∧
    count_if is_abort (log w'') = count_if is_abort (log w).
Proof.
  intros w'.
  assert (H : _request w' = None ∧ _aborted w' = Some false ∧
              count_if is_abort (log w') = count_if is_abort (log w)).
  { subst w'. simpl. set (w1 := set_aborted (Some false) (set_request None w)).
    assert (H1 : _request w1 = None ∧ _aborted w1 = Some false ∧ log w1 = log w)
      by (by destruct w).
    destruct H1 as (Hr & Ha & Hl). rewrite <- Hl. destruct c as [c'|]; [|done].
    by apply call_transport_settled. }
  destruct H as (Hr & Ha & Hl). split; [done|]. split; [done|]. split; [done|].
  intros fb args' w''. destruct (call_fn_calm (Bound (LoadFailback fb) false) args' w' Hr)
    as (_ & H2 & H3).
  subst w''. by rewrite H2, H3.
Qed.



(** ** A load with no options on an idle, unpopulated object *)

Lemma lookup_snoc {A} (l : list A) x : (l ++ [x]) !! length l = Some x.
Proof. rewrite lookup_app_r by lia. by rewrite Nat.sub_diag. Qed.

Lemma insert_snoc {A} (l : list A) x y : <[length l := y]> (l ++ [x]) = l ++ [y].
Proof. rewrite insert_app_r_alt by lia. by rewrite Nat.sub_diag. Qed.

Lemma fetch_start o x w :
  objects w !! o = Some x → resetQueue x = true ∨ this_fetchQueue w = None →
  let args := [VUndefined; background x; VThis] in
  let q := length (queues w) in
  let r := nextRequest w in
  fetch (Some o) w =
  mkWorld (isPopulated w) (Some q) (Some r) (_aborted w) (queues w ++ [[o]])
    (<[o := wrapped x]> (objects w))
    (guards w) (routeListeners w) (history_fragment w)
    (filter (λ once, once = false) (forwards w))
    (requests w ++
       [mkRequest r (Some (TFlush q OnSuccess)) (Some (TFlush q OnError))
          (Some (TSync (Some (TFlush q OnComplete))))])
    (S r)
    (Triggered This "request" [VData r] :: Requested r ::
       ((λ _ : bool, Triggered Exports "load:start" args) <$> forwards w) ++
       Triggered This "load:start" args :: log w).
Proof.
  destruct w as [p q r a qs os gs ls fr fw rs n l]. simpl. intros Hx Hr.
  unfold fetch, deref. simpl. rewrite Hx. simpl.
  unfold fetchQueue, loadStart, deref. simpl.
  rewrite list_lookup_insert_eq by (by eapply lookup_lt_Some). simpl.
  unfold wrapped. destruct (resetQueue x) eqn:Hrx; simpl; [done|].
  destruct Hr as [?| ->]; done.
Qed.

Lemma load_idle cb fb w :
  isPopulated w = false → this_fetchQueue w = None →
  load cb fb None w = loading w cb fb.
Proof.
  destruct w as [p q r a qs os gs ls fr fw rs n l]. simpl. intros -> ->.
  unfold load, alloc, deref. simpl. rewrite lookup_snoc. simpl.
  unfold loadData. simpl. unfold bindToRoute, alloc, deref. simpl.
  rewrite lookup_snoc. simpl.
  match goal with |- fetch (Some ?o) ?w2 = _ =>
    rewrite (fetch_start o (mkOptions (Some (STrigger (length gs)))
                              (Some (SFn (Bound (LoadFailback fb) true)))
                              None VUndefined false) w2) end.
  - unfold loading, wrapped. simpl. rewrite insert_snoc, filter_app. simpl.
    rewrite filter_cons_False by done. rewrite filter_nil, app_nil_r.
    rewrite length_app. simpl. rewrite Nat.add_1_r, <- app_assoc. done.
  - simpl. apply lookup_snoc.
  - by right.
Qed.

Lemma lookup_snoc2 {A} (l : list A) x y : (l ++ [x; y]) !! S (length l) = Some y.
Proof. rewrite lookup_app_r by lia. by replace (S (length l) - length l) with 1 by lia. Qed.

Lemma flushQueue_single q h args w o :
  queues w !! q = Some [o] →
  flushQueue q h args w =
  let w1 := replay h args w o in
  if bool_decide (this_fetchQueue w1 = Some q) then set_fetchQueue None w1 else w1.
Proof. intros Hq. unfold flushQueue. by rewrite Hq. Qed.

Lemma loading_fields w cb fb :
  let w1 := loading w cb fb in
  let g := length (guards w) in
  queues w1 !! length (queues w) = Some [S (length (objects w))] ∧
  deref w1 (S (length (objects w))) =
    mkOptions (Some (STrigger g)) (Some (SFn (Bound (LoadFailback fb) true)))
      (Some (SComplete None)) VUndefined false ∧
  guards w1 !! g =
    Some (mkGuard (history_fragment w) false cb (Some (Bound (LoadFailback fb) false))) ∧
  history_fragment w1 = history_fragment w ∧
  this_fetchQueue w1 = Some (length (queues w)) ∧
  _request w1 = Some (nextRequest w) ∧
  routeListeners w1 = routeListeners w ++ [g].
Proof.
  unfold loading, deref. simpl. rewrite !lookup_snoc, lookup_snoc2. done.
Qed.

Lemma finalize_stable g w : stable w (finalize g w).
Proof. unfold finalize. destruct (guards w !! g); [|apply stable_refl]. by destruct w. Qed.

Lemma settle_fields w :
  let w' := set_aborted (Some false) (set_request None w) in
  _request w' = None ∧ _aborted w' = Some false ∧
  queues w' = queues w ∧ objects w' = objects w ∧
  this_fetchQueue w' = this_fetchQueue w ∧ log w' = log w ∧
  guards w' = guards w ∧ routeListeners w' = routeListeners w ∧
  history_fragment w' = history_fragment w.
Proof. by destruct w. Qed.

Lemma add_log_fields e w :
  let w' := add_log e w in
  _request w' = _request w ∧ _aborted w' = _aborted w ∧
  queues w' = queues w ∧ objects w' = objects w ∧
  this_fetchQueue w' = this_fetchQueue w ∧ log w' = e :: log w ∧
  guards w' = guards w ∧ routeListeners w' = routeListeners w ∧
  history_fragment w' = history_fragment w.
Proof. by destruct w. Qed.

(** X13. [load(callback, failback)] with no options on an unpopulated
    object with no fetch in flight makes one request and triggers
    [load:start] once on the object and once on [exports] for each
    forwarder. When the transport then runs the [success] and [complete]
    handlers, the fragment being the one the load started on: [success]
    calls the callback once with the transport's arguments,
    completes the guard, unbinds its route listener and clears the queue;
    [complete] triggers [load:end] once, clears [_request] and sets
    [_aborted] to false. *)
Theorem load_success_calls_back_then_ends
    (name : string) (fb : option Fn) (w : World) (sargs cargs : list Val) :
  isPopulated w = false → this_fetchQueue w = None →
  let g := length (guards w) in
  let q := length (queues w) in
  let w1 := load (User name) fb None w in
  let w2 := call_transport (TFlush q OnSuccess) sargs w1 in
  let w3 := call_transport (TSync (Some (TFlush q OnComplete))) cargs w2 in
  let started := [VUndefined; VUndefined; VThis] in
  log w1 = Triggered This "request" [VData (nextRequest w)] :: Requested (nextRequest w) ::
             ((λ _ : bool, Triggered Exports "load:start" started) <$> (forwards w ++ [true]))
             ++ Triggered This "load:start" started :: log w ∧
  (log w2 = Called name sargs :: log w1 ∧
   this_fetchQueue w2 = None ∧
   (completed <$> (guards w2 !! g)) = Some true ∧ (g ∉ routeListeners w2)) ∧
  (log w3 = Triggered This "load:end" [VThis] :: log w2 ∧
   _request w3 = None ∧ _aborted w3 = Some false ∧ this_fetchQueue w3 = None ∧
   guards w3 = guards w2 ∧ routeListeners w3 = routeListeners w2).
Proof.
  intros Hp Hq. cbv zeta. rewrite (load_idle _ _ _ Hp Hq).
  destruct (loading_fields w (User name) fb) as (Lq & Lo & Lg & Lf & Lt & Lr & Ll).
  set (w1 := loading w (User name) fb) in *.
  set (g := length (guards w)) in *. set (q := length (queues w)) in *.
  set (w2 := call_transport (TFlush q OnSuccess) sargs w1).
  set (w3 := call_transport _ cargs w2).
  split; [reflexivity|].
  assert (E2 : w2 = set_fetchQueue None (add_log (Called name sargs) (finalize g w1))).
  { subst w2. cbn [call_transport]. rewrite (flushQueue_single _ _ _ _ _ Lq). cbv zeta.
    unfold replay. rewrite Lo. cbn [handler_of success call_slot].
    rewrite (finalizer_pending g _ false sargs w1 Lg eq_refl). cbv zeta.
    cbn [fragment callback failback]. rewrite Lf.
    rewrite (bool_decide_true (history_fragment w = history_fragment w)) by done.
    cbn [andb negb call_fn].
    assert (Hq2 : this_fetchQueue (add_log (Called name sargs) (finalize g w1)) = Some q).
    { destruct (finalize_stable g w1) as (S1 & _). rewrite <- Lt, <- S1.
      by destruct (finalize g w1). }
    by rewrite Hq2, bool_decide_true. }
  destruct (finalize_done g _ w1 Lg) as (Fg & Fl & Flog & _).
  assert (F2 : log w2 = Called name sargs :: log w1 ∧ this_fetchQueue w2 = None ∧
               guards w2 = guards (finalize g w1) ∧
               routeListeners w2 = routeListeners (finalize g w1) ∧
               queues w2 = queues w1 ∧ objects w2 = objects w1).
  { rewrite E2. destruct (finalize_stable g w1) as (_ & S2 & S3 & _). rewrite <- S2, <- S3, <- Flog.
    by destruct (finalize g w1). }
  destruct F2 as (H1 & H2 & H3 & H4 & H5 & H6).
  split.
  - split; [done|]. split; [done|]. rewrite H3, H4, Fg. done.
  - destruct (settle_fields w2) as (T1 & T2 & T3 & T4 & T5 & T6 & T7 & T8 & _).
    set (w2' := set_aborted (Some false) (set_request None w2)) in *.
    destruct (add_log_fields (Triggered This "load:end" [VThis]) w2')
      as (A1 & A2 & A3 & A4 & A5 & A6 & A7 & A8 & _).
    assert (E3 : w3 = add_log (Triggered This "load:end" [VThis]) w2').
    { subst w3. cbn [call_transport]. fold w2'.
      assert (K1 : queues w2' !! q = Some [S (length (objects w))]) by (by rewrite T3, H5).
      assert (K2 : deref w2' (S (length (objects w))) = deref w1 (S (length (objects w)))).
      { apply deref_objects. by rewrite T4, H6. }
      rewrite (flushQueue_single _ _ _ _ _ K1). cbv zeta.
      unfold replay. rewrite K2, Lo. cbn [handler_of complete call_slot].
      unfold loadEnd. rewrite A5, T5, H2. by rewrite bool_decide_false. }
    rewrite E3, A1, A2, A5, A6, A7, A8, T1, T2, T5, T6, T7, T8. done.
Qed.

Lemma load_success_calls_back_then_ends_witness :
  let w := init false "home" in
  let w1 := load (User "show") None None w in
  let w2 := call_transport (TFlush 0 OnSuccess) [VThis; VData 1] w1 in
  let w3 := call_transport (TSync (Some (TFlush 0 OnComplete))) [VData 2] w2 in
  log w3 = [Triggered This "load:end" [VThis]; Called "show" [VThis; VData 1];
            Triggered This "request" [VData 1]; Requested 1;
            Triggered Exports "load:start" [VUndefined; VUndefined; VThis];
            Triggered This "load:start" [VUndefined; VUndefined; VThis]] ∧
  _request w3 = None ∧ _aborted w3 = Some false ∧ this_fetchQueue w3 = None.
Proof.
  intros w w1 w2 w3.
  destruct (load_success_calls_back_then_ends "show" None w [VThis; VData 1] [VData 2]
              eq_refl eq_refl) as (_ & [H1 _] & (H2 & H3 & H4 & H5 & _)).
  split; [|split; [exact H3|split; [exact H4|exact H5]]].
  refine (eq_trans H2 _). refine (eq_trans (f_equal (cons _) H1) _). reflexivity.
Defined.

(** X14. [load(callback, failback)] with no options on an unpopulated
    object with no fetch in flight, then the transport's [error] and
    [complete] handlers: the failback is called with [isError = true] and
    nothing is aborted, but the guard stays pending with its route listener
    bound. When the fragment then changes and a route event reaches the
    guard, the failback is called a second time, with [isError = false];
    the request having completed, nothing is aborted. *)
Theorem load_error_leaves_guard_for_navigation
    (cb : Fn) (fbn : string) (w : World) (eargs cargs rargs : list Val) (away : string) :
  isPopulated w = false → this_fetchQueue w = None →
  away ≠ history_fragment w →
  let g := length (guards w) in
  let q := length (queues w) in
  let w1 := load cb (Some (User fbn)) None w in
  let w2 := call_transport (TFlush q OnError) eargs w1 in
  let w3 := call_transport (TSync (Some (TFlush q OnComplete))) cargs w2 in
  let w4 := resetLoader g rargs (set_fragment away w3) in
  (log w2 = Called fbn (VBool true :: eargs) :: log w1 ∧ _aborted w2 = _aborted w) ∧
  ((completed <$> (guards w3 !! g)) = Some false ∧ g ∈ routeListeners w3) ∧
  (log w4 = Called fbn (VBool false :: rargs) ::
            Triggered This "load:end" [VThis] :: log w2 ∧
   _aborted w4 = Some false ∧
   (completed <$> (guards w4 !! g)) = Some true ∧ (g ∉ routeListeners w4)).
Proof.
  intros Hp Hq Haway. cbv zeta. rewrite (load_idle _ _ _ Hp Hq).
  destruct (loading_fields w cb (Some (User fbn))) as (Lq & Lo & Lg & Lf & Lt & Lr & Ll).
  assert (La : _aborted (loading w cb (Some (User fbn))) = _aborted w) by done.
  set (w1 := loading w cb (Some (User fbn))) in *.
  set (g := length (guards w)) in *. set (q := length (queues w)) in *.
  set (w2 := call_transport (TFlush q OnError) eargs w1).
  set (w3 := call_transport _ cargs w2).
  destruct (add_log_fields (Called fbn (VBool true :: eargs)) w1)
    as (B1 & B2 & B3 & B4 & B5 & B6 & B7 & B8 & B9).
  assert (E2 : w2 = set_fetchQueue None (add_log (Called fbn (VBool true :: eargs)) w1)).
  { subst w2. cbn [call_transport]. rewrite (flushQueue_single _ _ _ _ _ Lq). cbv zeta.
    unfold replay. rewrite Lo. cbn [handler_of error call_slot call_fn hd truthy].
    by rewrite B5, Lt, bool_decide_true. }
  assert (F2 : log w2 = Called fbn (VBool true :: eargs) :: log w1 ∧
               this_fetchQueue w2 = None ∧ _aborted w2 = _aborted w ∧
               guards w2 = guards w1 ∧ routeListeners w2 = routeListeners w1 ∧
               queues w2 = queues w1 ∧ objects w2 = objects w1 ∧
               history_fragment w2 = history_fragment w).
  { rewrite E2, <- La, <- B2, <- B3, <- B4, <- B6, <- B7, <- B8, <- Lf, <- B9.
    by destruct (add_log _ w1). }
  destruct F2 as (H1 & H2 & H2a & H3 & H4 & H5 & H6 & H7).
  split; [done|].
  destruct (settle_fields w2) as (T1 & T2 & T3 & T4 & T5 & T6 & T7 & T8 & T9).
  set (w2' := set_aborted (Some false) (set_request None w2)) in *.
  destruct (add_log_fields (Triggered This "load:end" [VThis]) w2')
    as (A1 & A2 & A3 & A4 & A5 & A6 & A7 & A8 & A9).
  assert (E3 : w3 = add_log (Triggered This "load:end" [VThis]) w2').
  { subst w3. cbn [call_transport]. fold w2'.
    assert (K1 : queues w2' !! q = Some [S (length (objects w))]) by (by rewrite T3, H5).
    assert (K2 : deref w2' (S (length (objects w))) = deref w1 (S (length (objects w)))).
    { apply deref_objects. by rewrite T4, H6. }
    rewrite (flushQueue_single _ _ _ _ _ K1). cbv zeta.
    unfold replay. rewrite K2, Lo. cbn [handler_of complete call_slot].
    unfold loadEnd. rewrite A5, T5, H2. by rewrite bool_decide_false. }
  assert (G3 : guards w3 = guards w1 ∧ routeListeners w3 = routeListeners w1 ∧
               _request w3 = None ∧ _aborted w3 = Some false ∧
               log w3 = Triggered This "load:end" [VThis] :: log w2).
  { rewrite E3, A1, A2, A6, A7, A8, T1, T2, T6, T7, T8, H3, H4. done. }
  destruct G3 as (G1 & G2 & G4 & G5 & G6).
  split.
  { rewrite G1, G2, Lg, Ll. split; [done|]. apply elem_of_app. right. left. }
  set (w3' := set_fragment away w3).
  assert (N : guards w3' = guards w1 ∧ routeListeners w3' = routeListeners w1 ∧
              _request w3' = None ∧ _aborted w3' = Some false ∧
              log w3' = log w3 ∧ history_fragment w3' = away).
  { subst w3'. rewrite <- G1, <- G2, <- G4, <- G5. by destruct w3. }
  destruct N as (N1 & N2 & N3 & N4 & N5 & N6).
  assert (Ng : guards w3' !! g = Some (mkGuard (history_fragment w) false cb
                                         (Some (Bound (LoadFailback (Some (User fbn))) false))))
    by (by rewrite N1).
  unfold resetLoader. rewrite bool_decide_true.
  2:{ rewrite N2, Ll. apply elem_of_app. right. left. }
  rewrite (finalizer_pending g _ true rargs w3' Ng eq_refl). cbv zeta.
  cbn [fragment callback failback]. rewrite N6.
  rewrite bool_decide_false by (intros Heq; by apply Haway).
  cbn [andb negb from_option call_fn hd truthy].
  destruct (finalize_frame g w3') as (R1 & R2 & R3).
  destruct (finalize_done g _ w3' Ng) as (D1 & D2 & _).
  rewrite R1, N3. cbn beta iota.
  destruct (add_log_fields (Called fbn (VBool false :: rargs)) (finalize g w3'))
    as (_ & Z2 & _ & _ & _ & Z6 & Z7 & Z8 & _).
  rewrite Z2, Z6, Z7, Z8, R2, R3, N4, N5, G6, D1. done.
Qed.

Lemma load_error_leaves_guard_for_navigation_witness :
  let w := init false "home" in
  let w1 := load (User "show") (Some (User "fail")) None w in
  let w2 := call_transport (TFlush 0 OnError) [VData 1] w1 in
  let w3 := call_transport (TSync (Some (TFlush 0 OnComplete))) [VData 2] w2 in
  let w4 := resetLoader 0 [] (set_fragment "other" w3) in
  log w4 = Called "fail" [VBool false] :: Triggered This "load:end" [VThis] ::
           Called "fail" [VBool true; VData 1] :: log w1 ∧
  _aborted w4 = Some false.
Proof.
  intros w w1 w2 w3 w4.
  assert (Haway : "other" ≠ history_fragment w) by done.
  destruct (load_error_leaves_guard_for_navigation (User "show") "fail" w
              [VData 1] [VData 2] [] "other" eq_refl eq_refl Haway)
    as ([H1 _] & _ & H2 & H3 & _).
  split; [|exact H3].
  refine (eq_trans H2 _). refine (eq_trans (f_equal (λ l, _ :: _ :: l) H1) _). reflexivity.
Defined.

(** ** The forwarder [load] binds *)

Lemma count_exports_fmap (args : list Val) (fw : list bool) :
  count_if is_exportsStart ((λ _ : bool, Triggered Exports "load:start" args) <$> fw)
  = length fw.
Proof.
  unfold count_if. induction fw as [|b fw IH]; [done|].
  rewrite fmap_cons, filter_cons_True by done. simpl. by rewrite IH.
Qed.

Lemma count_if_app p l1 l2 : count_if p (l1 ++ l2) = count_if p l1 + count_if p l2.
Proof. unfold count_if. by rewrite filter_app, length_app. Qed.

Lemma count_if_cons p e l :
  count_if p (e :: l) = (if p e then 1 else 0) + count_if p l.
Proof.
  unfold count_if. rewrite filter_cons. destruct (p e); simpl; [|done].
  by destruct (decide (true = true)).
Qed.

Lemma loadStart_forwards m b w :
  forwards (loadStart m b w) = filter (λ once, once = false) (forwards w) ∧
  count_if is_exportsStart (log (loadStart m b w))
  = length (forwards w) + count_if is_exportsStart (log w).
Proof.
  destruct w as [p q r a qs os gs ls fr fw rs n l]. unfold loadStart. simpl.
  split; [done|]. by rewrite count_if_app, count_exports_fmap, count_if_cons.
Qed.

Lemma fetchQueue_forwards o w :
  forwards (fetchQueue o w) = forwards w ∧
  count_if is_exportsStart (log (fetchQueue o w)) = count_if is_exportsStart (log w).
Proof.
  destruct w as [p q r a qs os gs ls fr fw rs n l]. unfold fetchQueue.
  destruct (resetQueue _); simpl; [done|]. destruct q; simpl; done.
Qed.

Lemma fetch_forwards o w :
  forwards (fetch (Some o) w) = filter (λ once, once = false) (forwards w) ∧
  count_if is_exportsStart (log (fetch (Some o) w))
  = length (forwards w) + count_if is_exportsStart (log w).
Proof.
  unfold fetch.
  match goal with |- context [fetchQueue o (loadStart ?m ?b ?w1)] =>
    destruct (fetchQueue_forwards o (loadStart m b w1)) as [-> ->];
    destruct (loadStart_forwards m b w1) as [-> ->] end.
  by destruct w.
Qed.

Lemma loadData_forwards cb fb o w :
  isPopulated w = false →
  forwards (loadData cb fb o w) = filter (λ once, once = false) (forwards w) ∧
  count_if is_exportsStart (log (loadData cb fb o w))
  = length (forwards w) + count_if is_exportsStart (log w).
Proof.
  intros Hp. unfold loadData. rewrite Hp. unfold bindToRoute, alloc.
  match goal with |- context [fetch (Some ?o') ?w2] =>
    destruct (fetch_forwards o' w2) as [-> ->] end.
  by destruct w.
Qed.

(** X15. [load] on an unpopulated object triggers [load:start] on
    [exports] once through a one-shot forwarder of its own, unless the
    options ask for a background load, in which case it binds none; every
    forwarder bound before fires once as well, and afterwards the one-shot
    forwarders are gone: the one [load] bound never outlives the call. *)
Theorem load_forwards_once
    (cb : Fn) (fb : option Fn) (options : option Ref) (w : World) :
  isPopulated w = false →
  let bg := truthy (background (from_option (deref w) emptyOptions options)) in
  let w1 := load cb fb options w in
  forwards w1 = filter (λ once, once = false) (forwards w) ∧
  count_if is_exportsStart (log w1)
  = (if bg then 0 else 1) + length (forwards w) + count_if is_exportsStart (log w).
Proof.
  intros Hp bg w1. subst w1. unfold load.
  destruct (match options with
            | Some o => (o, w)
            | None => alloc emptyOptions w
            end) as [o w0] eqn:Ho.
  assert (H0 : isPopulated w0 = false ∧ forwards w0 = forwards w ∧ log w0 = log w ∧
               truthy (background (deref w0 o)) = bg).
  { destruct options; injection Ho as <- <-; [done|]. subst bg. unfold alloc, deref.
    destruct w; simpl in *. by rewrite lookup_snoc. }
  destruct H0 as (Hp0 & Hf0 & Hl0 & Hb0). rewrite Hb0, Hp0. simpl.
  match goal with |- context [loadData _ _ o ?x] => set (w1' := x) end.
  assert (H1 : isPopulated w1' = false ∧ log w1' = log w ∧
               forwards w1' = forwards w ++ (if bg then [] else [true])).
  { subst w1'. destruct bg; simpl.
    - by rewrite app_nil_r.
    - destruct w0; simpl in *. by subst. }
  destruct H1 as (Hp1 & Hl1 & Hf1).
  destruct (loadData_forwards cb (Some (LoadFailback fb)) o w1' Hp1) as [-> ->].
  rewrite Hf1, Hl1, filter_app, length_app. destruct bg; simpl.
  - rewrite app_nil_r. split; [done | lia].
  - rewrite filter_cons_False by done. rewrite filter_nil, app_nil_r. split; [done | lia].
Qed.

Lemma load_forwards_once_witness :
  let w := init false "home" in
  let w1 := load (User "show") None None w in
  forwards w1 = [] ∧ count_if is_exportsStart (log w1) = 1.
Proof.
  intros w w1.
  destruct (load_forwards_once (User "show") None None w eq_refl) as [H1 H2].
  split; [exact H1 | exact H2].
Defined.

(** ** A fetch with [resetQueue] *)

(** X16. While a fetch is in flight, a [fetchQueue] call whose options set
    [resetQueue] does not join it: it makes a request of its own with a new
    queue holding only itself, and the old queue keeps its callers. When
    the old request's handlers run they replay the old callers only and
    leave the new queue active, but its [complete] handler clears
    [_request], which held the new request; a later call without
    [resetQueue] joins the new queue and makes no request. *)
Theorem reset_queue_starts_apart (w : World) (o : Ref) (q0 : Ref) (old : list Ref) :
  this_fetchQueue w = Some q0 → queues w !! q0 = Some old →
  resetQueue (deref w o) = true →
  let q1 := length (queues w) in
  let w1 := fetchQueue o w in
  (this_fetchQueue w1 = Some q1 ∧ queues w1 !! q0 = Some old ∧ queues w1 !! q1 = Some [o] ∧
   requests w1 = requests w ++
     [mkRequest (nextRequest w) (Some (TFlush q1 OnSuccess)) (Some (TFlush q1 OnError))
        (Some (TSync (Some (TFlush q1 OnComplete))))] ∧
   _request w1 = Some (nextRequest w)) ∧
  (∀ h args,
     let w2 := call_transport (TFlush q0 h) args w1 in
     w2 = foldl (replay h args) w1 old ∧
     this_fetchQueue w2 = Some q1 ∧ queues w2 = queues w1) ∧
  (∀ args,
     let w2 := call_transport (TSync (Some (TFlush q0 OnComplete))) args w1 in
     _request w2 = None ∧ this_fetchQueue w2 = Some q1) ∧
  (∀ o2, resetQueue (deref w o2) = false →
     let w2 := fetchQueue o2 w1 in
     queues w2 !! q1 = Some [o; o2] ∧ queues w2 !! q0 = Some old ∧
     requests w2 = requests w1).
Proof.
  intros Hq Hold Hr q1 w1.
  destruct (fetchQueue_start o w (or_introl Hr)) as (S1 & S2 & S3 & S4 & S5 & S6 & S7).
  fold q1 w1 in S1, S2, S3, S4, S5, S6, S7.
  assert (Hlt : q0 < length (queues w)) by (by eapply lookup_lt_Some).
  assert (Q0 : queues w1 !! q0 = Some old) by (by rewrite S2, lookup_app_l).
  assert (Q1 : queues w1 !! q1 = Some [o]) by (rewrite S2; apply lookup_snoc).
  split; [done|]. split; [|split].
  - intros h args w2. subst w2. cbn [call_transport]. unfold flushQueue. rewrite Q0.
    cbn [default from_option id].
    destruct (replay_all_stable h args old w1) as (R1 & R2 & _).
    rewrite R1, S1, bool_decide_false by (intros [= Hc]; unfold q1 in Hc; lia).
    split; [done|]. split; [by rewrite R1 | done].
  - intros args w2. subst w2. cbn [call_transport].
    destruct (settle_fields w1) as (T1 & T2 & T3 & _ & T5 & _).
    set (w1' := set_aborted (Some false) (set_request None w1)) in *.
    destruct (call_transport_settled (TFlush q0 OnComplete) args w1' T1 T2) as (C1 & _).
    cbn [call_transport] in C1. split; [exact C1|].
    rewrite flushQueue_identity, T5, S1.
    by rewrite bool_decide_false by (intros [= Hc]; unfold q1 in Hc; lia).
  - intros o2 Hr2 w2.
    assert (Hr2' : resetQueue (deref w1 o2) = false)
      by (by rewrite (deref_objects w w1 o2 S6)).
    destruct (fetchQueue_join o2 w1 q1 S1 Hr2') as (J1 & J2 & J3 & _).
    fold w2 in J1, J2, J3. rewrite J2, Q1. cbn [default from_option id app].
    split; [|split; [|done]].
    + apply list_lookup_insert_eq. by eapply lookup_lt_Some.
    + rewrite list_lookup_insert_ne by (unfold q1; lia). done.
Qed.

Lemma reset_queue_starts_apart_witness :
  let x := mkOptions (Some (SFn (User "first"))) None None VUndefined false in
  let y := mkOptions (Some (SFn (User "second"))) None None VUndefined true in
  let w := fetchQueue 0 (set_objects [x; y] (init false "home")) in
  let w1 := fetchQueue 1 w in
  let w2 := call_transport (TFlush 0 OnSuccess) [VData 5] w1 in
  this_fetchQueue w1 = Some 1 ∧ queues w1 !! 0 = Some [0] ∧ queues w1 !! 1 = Some [1] ∧
  w2 = foldl (replay OnSuccess [VData 5]) w1 [0] ∧ this_fetchQueue w2 = Some 1.
Proof.
  intros x y w w1 w2.
  destruct (reset_queue_starts_apart w 1 0 [0] eq_refl eq_refl eq_refl)
    as ((H1 & H2 & H3 & _) & H4 & _).
  destruct (H4 OnSuccess [VData 5]) as (H5 & H6 & _).
  split; [exact H1|]. split; [exact H2|]. split; [exact H3|]. split; [exact H5 | exact H6].
Defined.

(** ** One options object passed to several fetches *)


Lemma fetch_queue_fields o x w :
  objects w !! o = Some x → resetQueue x = false →
  let w' := fetch (Some o) w in
  objects w' = <[o := wrapped x]> (objects w) ∧
  count_if is_loadStart (log w') = 1 + count_if is_loadStart (log w) ∧
  count_if is_loadEnd (log w') = count_if is_loadEnd (log w) ∧
  match this_fetchQueue w with
  | None =>
      this_fetchQueue w' = Some (length (queues w)) ∧ queues w' = queues w ++ [[o]] ∧
      count_if is_Requested (log w') = 1 + count_if is_Requested (log w)
  | Some q =>
      this_fetchQueue w' = Some q ∧
      queues w' = <[q := default [] (queues w !! q) ++ [o]]> (queues w) ∧
      count_if is_Requested (log w') = count_if is_Requested (log w)
  end.
Proof.
  destruct w as [p q r a qs os gs ls fr fw rs n l]. simpl. intros Hx Hr.
  unfold fetch, deref. simpl. rewrite Hx. simpl.
  unfold fetchQueue, loadStart, deref. simpl.
  rewrite list_lookup_insert_eq by (by eapply lookup_lt_Some). simpl. rewrite Hr. simpl.
  assert (Hfw : ∀ p0 args, (p0 = is_loadStart ∨ p0 = is_loadEnd ∨ p0 = is_Requested) →
            count_if p0 ((λ _ : bool, Triggered Exports "load:start" args) <$> fw) = 0).
  { intros p0 args Hp0. unfold count_if. induction fw as [|b fw IH]; [done|].
    rewrite fmap_cons, filter_cons_False; [done|]. by destruct Hp0 as [->|[->| ->]]. }
  destruct q as [q|]; simpl; rewrite ?count_if_cons, ?count_if_app, ?count_if_cons,
    !Hfw by auto; simpl; unfold wrapped; rewrite Hr; done.
Qed.

Lemma iter_S {A} (f : A → A) n x : Nat.iter (S n) f x = f (Nat.iter n f x).
Proof. reflexivity. Qed.

Lemma iter_fetch o x w n :
  objects w !! o = Some x → resetQueue x = false → this_fetchQueue w = None →
  let w1 := Nat.iter (S n) (fetch (Some o)) w in
  let q := length (queues w) in
  (∃ x', objects w1 !! o = Some x' ∧ resetQueue x' = false ∧
         from_option wraps 0 (complete x') = S n + from_option wraps 0 (complete x)) ∧
  this_fetchQueue w1 = Some q ∧ queues w1 !! q = Some (replicate (S n) o) ∧
  count_if is_loadStart (log w1) = S n + count_if is_loadStart (log w) ∧
  count_if is_loadEnd (log w1) = count_if is_loadEnd (log w) ∧
  count_if is_Requested (log w1) = 1 + count_if is_Requested (log w).
Proof.
  intros Hx Hr Hq. induction n as [|n IH].
  - rewrite iter_S. change (Nat.iter 0 (fetch (Some o)) w) with w.
    destruct (fetch_queue_fields o x w Hx Hr) as (F1 & F2 & F3 & F4).
    rewrite Hq in F4. destruct F4 as (F4 & F5 & F6).
    split; [|split_and!; try done].
    + exists (wrapped x). rewrite F1. split; [|done].
      apply list_lookup_insert_eq. by eapply lookup_lt_Some.
    + rewrite F5. apply lookup_snoc.
  - destruct IH as ((x' & I1 & I2 & I3) & I4 & I5 & I6 & I7 & I8).
    rewrite (iter_S _ (S n)).
    set (w1 := Nat.iter (S n) (fetch (Some o)) w) in *.
    destruct (fetch_queue_fields o x' w1 I1 I2) as (F1 & F2 & F3 & F4).
    rewrite I4 in F4. destruct F4 as (F4 & F5 & F6).
    set (w2 := fetch (Some o) w1) in *. clearbody w2 w1.
    split; [|split; [exact F4|split; [|split; [|split; [|]]]]].
    + exists (wrapped x'). rewrite F1. split; [|split; [done|]].
      * apply list_lookup_insert_eq. by eapply lookup_lt_Some.
      * cbn [wrapped complete from_option wraps]. rewrite I3. done.
    + rewrite F5, I5. cbn [default from_option id].
      rewrite list_lookup_insert_eq by (by eapply lookup_lt_Some).
      f_equal. replace (S (S n)) with (S n + 1) by lia. by rewrite replicate_add.
    + rewrite F2, I6. reflexivity.
    + rewrite F3. exact I7.
    + rewrite F6. exact I8.
Qed.

Lemma replay_same_object args o s n : ∀ w,
  complete (deref w o) = Some s →
  let w' := foldl (replay OnComplete args) w (replicate n o) in
  count_if is_loadEnd (log w') = n * wraps s + count_if is_loadEnd (log w) ∧
  stable w w'.
Proof.
  induction n as [|n IH]; intros w Hs; simpl.
  - split; [done | apply stable_refl].
  - assert (Hrep : replay OnComplete args w o = call_slot s args w).
    { unfold replay. simpl. by rewrite Hs. }
    rewrite Hrep. destruct (call_slot_stable s args w) as [St Hc].
    destruct (IH (call_slot s args w)) as [Hc' St'].
    { rewrite (deref_objects w _ o); [done|]. by destruct St as (_ & _ & ? & _). }
    split; [rewrite Hc', Hc; lia | by eapply stable_trans].
Qed.

(** X17. One options object passed to [n + 1] calls of [fetch] in a
    row, starting with no fetch in flight and without [resetQueue]: one
    request is made and [load:start] is triggered [n + 1] times, but each
    call wraps [options.complete] again and queues the same object again,
    so the transport's [complete] handler triggers [load:end]
    [(n + 1) * (n + 1 + k)] times, [k] being the number of wrappers the
    object carried before. *)
Theorem shared_options_end_quadratically
    (w : World) (o : Ref) (x : Options) (n : nat) (args : list Val) :
  objects w !! o = Some x → resetQueue x = false → this_fetchQueue w = None →
  let k := from_option wraps 0 (complete x) in
  let q := length (queues w) in
  let w1 := Nat.iter (S n) (fetch (Some o)) w in
  let w2 := call_transport (TSync (Some (TFlush q OnComplete))) args w1 in
  count_if is_Requested (log w1) = 1 + count_if is_Requested (log w) ∧
  count_if is_loadStart (log w1) = S n + count_if is_loadStart (log w) ∧
  count_if is_loadEnd (log w2) = S n * (S n + k) + count_if is_loadEnd (log w).
Proof.
  intros Hx Hr Hq k q w1 w2.
  destruct (iter_fetch o x w n Hx Hr Hq) as ((x' & I1 & I2 & I3) & I4 & I5 & I6 & I7 & I8).
  fold w1 q k in I1, I3, I4, I5, I6, I7, I8.
  split; [done|]. split; [done|]. subst w2. cbn [call_transport].
  destruct (settle_fields w1) as (_ & _ & T3 & T4 & _ & T6 & _).
  set (w1' := set_aborted (Some false) (set_request None w1)) in *.
  unfold flushQueue. rewrite T3, I5. cbn [default from_option id].
  destruct (complete x') as [s|] eqn:Hs; [|simpl in I3; lia].
  destruct (replay_same_object args o s (S n) w1') as [Hc _].
  { unfold deref. rewrite T4, I1. done. }
  assert (Hlog : ∀ wz, log (if bool_decide (this_fetchQueue wz = Some q)
                            then set_fetchQueue None wz else wz) = log wz).
  { intros wz. destruct (bool_decide _); [by destruct wz | done]. }
  rewrite Hlog, Hc, T6, I7. simpl in I3. rewrite I3. done.
Qed.

Lemma shared_options_end_quadratically_witness :
  let x := mkOptions None None (Some (SFn (User "done"))) VUndefined false in
  let w := set_objects [x] (init false "home") in
  let w1 := Nat.iter 3 (fetch (Some 0)) w in
  let w2 := call_transport (TSync (Some (TFlush 0 OnComplete))) [VData 1] w1 in
  count_if is_Requested (log w1) = 1 ∧ count_if is_loadStart (log w1) = 3 ∧
  count_if is_loadEnd (log w2) = 9.
Proof.
  intros x w w1 w2.
  destruct (shared_options_end_quadratically w 0 x 2 [VData 1] eq_refl eq_refl eq_refl)
    as (H1 & H2 & H3).
  split; [exact H1|]. split; [exact H2 | exact H3].
Defined.

(** ** Two requests in flight *)

Lemma load_events_app l1 l2 : load_events (l1 ++ l2) = load_events l2 ++ load_events l1.
Proof. unfold load_events. by rewrite rev_app_distr, omap_app. Qed.

Lemma load_events_exports args (fw : list bool) :
  load_events ((λ _ : bool, Triggered Exports "load:start" args) <$> fw) = [].
Proof.
  unfold load_events. induction fw as [|b l IH]; [done|].
  rewrite fmap_cons. simpl. rewrite omap_app, IH. done.
Qed.

Lemma load_events_cons e l : load_events (e :: l) = load_events l ++ from_option (λ x, [x]) [] (load_event e).
Proof.
  unfold load_events. simpl. rewrite omap_app. simpl. by destruct (load_event e).
Qed.

Lemma two_requests_one_end wm o1 o2 x1 x2 args :
  this_fetchQueue wm = None →
  objects wm !! o1 = Some x1 → objects wm !! o2 = Some x2 → o1 ≠ o2 →
  resetQueue x1 = false → resetQueue x2 = true → complete x1 = None →
  let q := length (queues wm) in
  let wm2 := fetch (Some o2) (fetch (Some o1) wm) in
  let wm3 := call_transport (TSync (Some (TFlush q OnComplete))) args wm2 in
  ∃ new,
    log wm3 = new ++ log wm ∧
    load_events new = [Started (background x1); Started (background x2); Ended] ∧
    this_fetchQueue wm3 = Some (S q) ∧ queues wm3 !! S q = Some [o2] ∧
    length (requests wm3) = 2 + length (requests wm).
Proof.
  intros Hq H1 H2 Hne Hr1 Hr2 Hc1. cbv zeta. 
  rewrite (fetch_start o1 x1 wm H1 (or_intror Hq)). cbv zeta.
  set (wm1 := mkWorld _ _ _ _ _ _ _ _ _ _ _ _ _).
  assert (H2' : objects wm1 !! o2 = Some x2).
  { subst wm1. cbn [objects]. by rewrite list_lookup_insert_ne. }
  rewrite (fetch_start o2 x2 wm1 H2' (or_introl Hr2)). cbv zeta.
  set (wm2 := mkWorld _ _ _ _ _ _ _ _ _ _ _ _ _).
  cbn [call_transport]. 
  destruct (settle_fields wm2) as (T1 & T2 & T3 & T4 & T5 & T6 & _).
  set (wm2' := set_aborted (Some false) (set_request None wm2)) in *.
  assert (K1 : queues wm2' !! length (queues wm) = Some [o1]).
  { rewrite T3. subst wm2 wm1. cbn [queues].
    rewrite lookup_app_l by (rewrite length_app; simpl; lia). apply lookup_snoc. }
  assert (K2 : deref wm2' o1 = wrapped x1).
  { unfold deref. rewrite T4. subst wm2 wm1. cbn [objects].
    rewrite list_lookup_insert_ne by done.
    rewrite list_lookup_insert_eq by (by eapply lookup_lt_Some). done. }
  rewrite (flushQueue_single _ _ _ _ _ K1). cbv zeta.
  unfold replay. rewrite K2. cbn [handler_of complete wrapped]. rewrite Hc1.
  cbn [call_slot]. unfold loadEnd.
  destruct (add_log_fields (Triggered This "load:end" [VThis]) wm2')
    as (_ & _ & A3 & _ & A5 & A6 & _).
  set (wm3 := add_log _ wm2') in *.
  assert (K3 : this_fetchQueue wm3 = Some (S (length (queues wm)))).
  { rewrite A5, T5. subst wm2 wm1. cbn [this_fetchQueue queues].
    rewrite length_app. simpl. f_equal. lia. }
  rewrite K3, bool_decide_false by (intros [= Hc]; lia).
  set (fw1 := (λ _ : bool, Triggered Exports "load:start" [VUndefined; background x1; VThis])
                <$> forwards wm).
  set (fw2 := (λ _ : bool, Triggered Exports "load:start" [VUndefined; background x2; VThis])
                <$> filter (λ once, once = false) (forwards wm)).
  
  exists (Triggered This "load:end" [VThis] ::
          Triggered This "request" [VData (S (nextRequest wm))] ::
          Requested (S (nextRequest wm)) ::
          fw2 ++ Triggered This "load:start" [VUndefined; background x2; VThis] ::
          Triggered This "request" [VData (nextRequest wm)] ::
          Requested (nextRequest wm) ::
          fw1 ++ [Triggered This "load:start" [VUndefined; background x1; VThis]]).
  split; [|split; [|split; [done|split]]].
  - rewrite A6, T6. subst wm2 wm1 fw1 fw2. cbn [log forwards nextRequest].
    simpl. repeat (rewrite <- app_assoc; simpl). reflexivity.
  - rewrite !load_events_cons, !load_events_app, !load_events_cons, !load_events_app.
    subst fw1 fw2. rewrite !load_events_exports. simpl. done.
  - rewrite A3, T3. subst wm2 wm1. cbn [queues].
    rewrite lookup_app_r by (rewrite length_app; simpl; lia).
    rewrite length_app. simpl. by replace (S (length (queues wm)) - (length (queues wm) + 1)) with 0 by lia.
  - subst wm3 wm2'.
    assert (R : ∀ w, requests (add_log (Triggered This "load:end" [VThis])
                  (set_aborted (Some false) (set_request None w))) = requests w)
      by (by intros []).
    rewrite R. subst wm2 wm1. cbn [requests]. rewrite !length_app. simpl. lia.
Qed.

(** ** One request per queue *)

Lemma Queued_same w w' :
  this_fetchQueue w' = this_fetchQueue w → queues w' = queues w →
  requests w' = requests w → Queued w → Queued w'.
Proof. unfold Queued. by intros -> -> ->. Qed.

Lemma Queued_stable w w' : stable w w' → Queued w → Queued w'.
Proof. intros (H1 & H2 & _ & H3 & _). by apply Queued_same. Qed.

Lemma Queued_clear w : Queued w → Queued (set_fetchQueue None w).
Proof.
  intros (Q1 & Q2 & Q3 & Q4). destruct w; simpl in *. unfold Queued. simpl.
  split_and!; try done.
Qed.

Lemma flushQueue_Queued q h args w : Queued w → Queued (flushQueue q h args w).
Proof.
  intros HQ. unfold flushQueue.
  pose proof (Queued_stable _ _ (replay_all_stable h args (default [] (queues w !! q)) w) HQ).
  destruct (bool_decide _); [by apply Queued_clear | done].
Qed.

Lemma call_transport_Queued t : ∀ args w, Queued w → Queued (call_transport t args w).
Proof.
  induction t as [q h| |c IH] using Transport_induction; intros args w HQ; simpl.
  - by apply flushQueue_Queued.
  - eapply Queued_same; [..|exact HQ]; by destruct w.
  - apply IH. eapply Queued_same; [..|exact HQ]; by destruct w.
Qed.

Lemma Queued_start w w' o r :
  Queued w →
  this_fetchQueue w' = Some (length (queues w)) →
  queues w' = queues w ++ [[o]] →
  requests w' = requests w ++
    [mkRequest r (Some (TFlush (length (queues w)) OnSuccess))
       (Some (TFlush (length (queues w)) OnError))
       (Some (TSync (Some (TFlush (length (queues w)) OnComplete))))] →
  Queued w'.
Proof.
  intros (Q1 & Q2 & Q3 & Q4) H1 H2 H3. unfold Queued.
  rewrite H1, H2, H3, !length_app. simpl. split; [lia|]. split; [|split].
  - intros i x Hi. apply lookup_app_Some in Hi as [Hi|[Hge Hi]]; [by apply Q2|].
    rewrite Q1 in Hge, Hi. destruct (i - length (queues w)) eqn:Hd; [|done].
    injection Hi as <-. simpl. by replace i with (length (queues w)) by lia.
  - intros q [= <-]. lia.
  - intros q l Hl. apply lookup_app_Some in Hl as [Hl|[_ Hl]]; [by eapply Q4|].
    destruct (q - length (queues w)); [by injection Hl as <- | done].
Qed.

Lemma Queued_join w w' q o :
  Queued w → this_fetchQueue w = Some q →
  this_fetchQueue w' = Some q →
  queues w' = <[q := default [] (queues w !! q) ++ [o]]> (queues w) →
  requests w' = requests w →
  Queued w'.
Proof.
  intros (Q1 & Q2 & Q3 & Q4) Hq H1 H2 H3. unfold Queued.
  rewrite H1, H2, H3, length_insert. split; [done|]. split; [done|]. split.
  - intros q' [= <-]. by apply Q3.
  - intros q' l. destruct (decide (q' = q)) as [->|Hne].
    + rewrite list_lookup_insert_eq by (specialize (Q3 q Hq); lia).
      intros [= <-]. by destruct (default [] (queues w !! q)).
    + rewrite list_lookup_insert_ne by done. apply Q4.
Qed.

Lemma fetchQueue_Queued o w : Queued w → Queued (fetchQueue o w).
Proof.
  intros HQ.
  assert (Hcase : (resetQueue (deref w o) = true ∨ this_fetchQueue w = None) ∨
                  (∃ q, this_fetchQueue w = Some q ∧ resetQueue (deref w o) = false)).
  { destruct (resetQueue (deref w o)); [by left; left|].
    destruct (this_fetchQueue w) as [q|]; [right; eauto | by left; right]. }
  destruct Hcase as [Hs|(q & Hq & Hr)].
  - destruct (fetchQueue_start o w Hs) as (S1 & S2 & S3 & _).
    by eapply (Queued_start w).
  - destruct (fetchQueue_join o w q Hq Hr) as (J1 & J2 & J3 & _).
    by eapply (Queued_join w).
Qed.

Lemma fetch_Queued options w : Queued w → Queued (fetch options w).
Proof.
  intros HQ. unfold fetch.
  destruct (match options with Some o => (o, w) | None => alloc emptyOptions w end)
    as [o w0] eqn:Ho.
  apply fetchQueue_Queued. eapply Queued_same; [..|exact HQ].
  all: destruct options; injection Ho as <- <-; by destruct w.
Qed.

Lemma call_fn_Queued f args w : Queued w → Queued (call_fn f args w).
Proof. apply Queued_stable, frame_stable, call_fn_frame. Qed.

Lemma loadData_Queued cb fb o w : Queued w → Queued (loadData cb fb o w).
Proof.
  intros HQ. unfold loadData. destruct (isPopulated w); [by apply call_fn_Queued|].
  unfold bindToRoute, alloc. apply fetch_Queued.
  eapply Queued_same; [..|exact HQ]; by destruct w.
Qed.

Lemma load_Queued cb fb options w : Queued w → Queued (load cb fb options w).
Proof.
  intros HQ. unfold load.
  destruct (match options with Some o => (o, w) | None => alloc emptyOptions w end)
    as [o w0] eqn:Ho.
  apply loadData_Queued.
  assert (H0 : Queued w0).
  { eapply Queued_same; [..|exact HQ]; destruct options; injection Ho as <- <-; by destruct w. }
  destruct (negb _ && negb _); [|done].
  eapply Queued_same; [..|exact H0]; by destruct w0.
Qed.

Lemma trigger_route_Queued args w : Queued w → Queued (trigger_route args w).
Proof.
  unfold trigger_route. generalize (routeListeners w). intros l. revert w.
  induction l as [|g l IH]; intros w HQ; simpl; [done|].
  apply IH. unfold resetLoader. destruct (bool_decide _); [|done].
  eapply Queued_stable; [|exact HQ]. apply finalizer_stable.
Qed.

Lemma apply_op_Queued w op : Queued w → Queued (apply_op w op).
Proof.
  intros HQ. destruct op; simpl.
  - eapply Queued_same; [..|exact HQ]; by destruct w.
  - by apply fetch_Queued.
  - by apply load_Queued.
  - by apply call_transport_Queued.
  - by apply trigger_route_Queued.
  - eapply Queued_same; [..|exact HQ]; by destruct w.
Qed.

Lemma run_Queued ops : ∀ w, Queued w → Queued (run ops w).
Proof.
  unfold run. induction ops as [|op ops IH]; intros w HQ; simpl; [done|].
  by apply IH, apply_op_Queued.
Qed.

Lemma init_Queued p f : Queued (init p f).
Proof. unfold Queued, init. simpl. split_and!; try done. Qed.


(** ** A guard listens exactly while it is pending *)

Lemma Guarded_same w w' :
  guards w' = guards w → routeListeners w' = routeListeners w → Guarded w → Guarded w'.
Proof. unfold Guarded. by intros -> ->. Qed.

Lemma Guarded_frame w w' : frame w w' → Guarded w → Guarded w'.
Proof. intros (_ & _ & _ & _ & _ & H1 & H2 & _). by apply Guarded_same. Qed.

Lemma finalize_Guarded g w : Guarded w → Guarded (finalize g w).
Proof.
  intros [HN HG]. unfold finalize. destruct (guards w !! g) as [gd|] eqn:Hg; [|done].
  assert (Hlt : g < length (guards w)) by (by eapply lookup_lt_Some).
  destruct w as [p q r a qs os gs ls fr fw rs n l]. unfold Guarded. simpl in *. split.
  - by apply NoDup_filter.
  - intros g'. rewrite list_elem_of_filter. destruct (decide (g' = g)) as [->|Hne].
    + rewrite list_lookup_insert_eq by done. simpl. split; [by intros [? _] | done].
    + rewrite list_lookup_insert_ne by done. rewrite <- HG.
      split; [by intros [_ ?] | by intros ?].
Qed.

Lemma finalizer_Guarded g c args w : Guarded w → Guarded (finalizer g c args w).
Proof.
  intros HG. destruct (guards w !! g) as [gd|] eqn:Hg.
  2:{ unfold finalizer. by rewrite Hg. }
  destruct (completed gd) eqn:Hc.
  { by rewrite (finalizer_completed g gd c args w Hg Hc). }
  rewrite (finalizer_pending g gd c args w Hg Hc). cbv zeta.
  pose proof (finalize_Guarded g w HG) as HF.
  destruct (c && _); [done|]. destruct (negb c && _).
  - eapply Guarded_frame; [apply call_fn_frame | done].
  - destruct (failback gd) as [fb|]; simpl; [|done].
    eapply Guarded_frame; [apply call_fn_frame | done].
Qed.

Lemma call_slot_Guarded s : ∀ args w, Guarded w → Guarded (call_slot s args w).
Proof.
  induction s as [f|g| |c IH] using Slot_induction; intros args w HG; simpl.
  - eapply Guarded_frame; [apply call_fn_frame | done].
  - by apply finalizer_Guarded.
  - eapply Guarded_same; [..|exact HG]; by destruct w.
  - specialize (IH args w HG). eapply Guarded_same; [..|exact IH];
      by destruct (call_slot c args w).
Qed.

Lemma replay_all_Guarded h args os : ∀ w, Guarded w → Guarded (foldl (replay h args) w os).
Proof.
  induction os as [|o os IH]; intros w HG; simpl; [done|].
  apply IH. unfold replay. destruct (handler_of h (deref w o)); [|done].
  by apply call_slot_Guarded.
Qed.

Lemma flushQueue_Guarded q h args w : Guarded w → Guarded (flushQueue q h args w).
Proof.
  intros HG. unfold flushQueue.
  pose proof (replay_all_Guarded h args (default [] (queues w !! q)) w HG) as H.
  destruct (bool_decide _); [|done].
  eapply Guarded_same; [..|exact H]; by destruct (foldl _ _ _).
Qed.

Lemma call_transport_Guarded t : ∀ args w, Guarded w → Guarded (call_transport t args w).
Proof.
  induction t as [q h| |c IH] using Transport_induction; intros args w HG; simpl.
  - by apply flushQueue_Guarded.
  - eapply Guarded_same; [..|exact HG]; by destruct w.
  - apply IH. eapply Guarded_same; [..|exact HG]; by destruct w.
Qed.

Lemma fetch_Guarded options w : Guarded w → Guarded (fetch options w).
Proof.
  intros HG. destruct options as [o|].
  - destruct (fetch_some o w) as (_ & H1 & H2 & _). by eapply Guarded_same.
  - unfold fetch, alloc.
    match goal with |- context [fetchQueue ?o (loadStart ?m ?b ?w1)] =>
      destruct (fetchQueue_kept o (loadStart m b w1)) as (_ & _ & _ & H1 & H2 & _);
      destruct (loadStart_kept m b w1) as (_ & _ & _ & K1 & K2 & _) end.
    eapply Guarded_same; [..|exact HG].
    + rewrite H1, K1. by destruct w.
    + rewrite H2, K2. by destruct w.
Qed.

Lemma bindToRoute_Guarded cb fb w : Guarded w → Guarded (bindToRoute cb fb w).2.
Proof.
  intros [HN HG]. unfold bindToRoute. destruct w as [p q r a qs os gs ls fr fw rs n l].
  unfold Guarded. simpl in *.
  assert (Hfresh : length gs ∉ ls).
  { intros Hin. apply HG in Hin. rewrite lookup_ge_None_2 in Hin by lia. done. }
  split.
  - apply NoDup_app. split; [done|]. split; [|apply NoDup_singleton].
    intros x Hx Hx'. apply list_elem_of_singleton in Hx'. by subst.
  - intros g. rewrite elem_of_app, list_elem_of_singleton.
    destruct (decide (g = length gs)) as [->|Hne].
    + rewrite lookup_app_r by lia. rewrite Nat.sub_diag. simpl.
      split; [done | by right].
    + rewrite HG. split.
      * intros [Hg|?]; [|done]. rewrite lookup_app_l; [done|].
        destruct (gs !! g) eqn:E; [by eapply lookup_lt_Some | done].
      * intros Hg. left. destruct (decide (g < length gs)).
        -- by rewrite lookup_app_l in Hg.
        -- rewrite lookup_app_r in Hg by lia.
           destruct (g - length gs) as [|k] eqn:Hk; [lia|]. simpl in Hg. done.
Qed.

Lemma loadData_Guarded cb fb o w : Guarded w → Guarded (loadData cb fb o w).
Proof.
  intros HG. unfold loadData. destruct (isPopulated w).
  { eapply Guarded_frame; [apply call_fn_frame | done]. }
  pose proof (bindToRoute_Guarded cb ((λ f, Bound f false) <$> fb) w HG) as HB.
  destruct (bindToRoute cb _ w) as [trigger w1]. simpl in HB. unfold alloc.
  apply fetch_Guarded. eapply Guarded_same; [..|exact HB]; by destruct w1.
Qed.

Lemma load_Guarded cb fb options w : Guarded w → Guarded (load cb fb options w).
Proof.
  intros HG. unfold load.
  destruct (match options with Some o => (o, w) | None => alloc emptyOptions w end)
    as [o w0] eqn:Ho.
  apply loadData_Guarded.
  assert (H0 : Guarded w0).
  { eapply Guarded_same; [..|exact HG]; destruct options; injection Ho as <- <-; by destruct w. }
  destruct (negb _ && negb _); [|done].
  eapply Guarded_same; [..|exact H0]; by destruct w0.
Qed.

Lemma trigger_route_Guarded args w : Guarded w → Guarded (trigger_route args w).
Proof.
  unfold trigger_route. generalize (routeListeners w). intros l. revert w.
  induction l as [|g l IH]; intros w HG; simpl; [done|].
  apply IH. unfold resetLoader. destruct (bool_decide _); [|done].
  by apply finalizer_Guarded.
Qed.

Lemma apply_op_Guarded w op : Guarded w → Guarded (apply_op w op).
Proof.
  intros HG. destruct op; simpl.
  - eapply Guarded_same; [..|exact HG]; by destruct w.
  - by apply fetch_Guarded.
  - by apply load_Guarded.
  - by apply call_transport_Guarded.
  - by apply trigger_route_Guarded.
  - eapply Guarded_same; [..|exact HG]; by destruct w.
Qed.

Lemma run_Guarded ops : ∀ w, Guarded w → Guarded (run ops w).
Proof.
  unfold run. induction ops as [|op ops IH]; intros w HG; simpl; [done|].
  by apply IH, apply_op_Guarded.
Qed.

Lemma init_Guarded p f : Guarded (init p f).
Proof.
  unfold Guarded, init. simpl. split; [apply NoDup_nil_2|].
  intros g. split; [by intros ?%elem_of_nil | done].
Qed.


(** X18. Whatever sequence of options objects being made, [fetch] and
    [load] calls, transport handlers being run, route events and fragment
    changes happens to a fresh data object: there is exactly one request
    per queue, request number [i] carries the success, error and complete
    flushers of queue [i], the active queue (if any) is the newest one,
    and no queue is empty. *)
Theorem one_request_per_queue (populated : bool) (fragment : string) (ops : list Op) :
  let w := run ops (init populated fragment) in
  length (requests w) = length (queues w) ∧
  (∀ i r, requests w !! i = Some r →
     rsuccess r = Some (TFlush i OnSuccess) ∧ rerror r = Some (TFlush i OnError) ∧
     rcomplete r = Some (TSync (Some (TFlush i OnComplete)))) ∧
  (∀ q, this_fetchQueue w = Some q → S q = length (queues w)) ∧
  (∀ q l, queues w !! q = Some l → l ≠ []).
Proof. apply (run_Queued ops), init_Queued. Qed.

(** X19. Whatever sequence of options objects being made, [fetch] and
    [load] calls, transport handlers being run, route events and fragment
    changes happens to a fresh data object: no guard is bound to [route]
    twice, and a guard is bound to [route] exactly while it has not
    completed. *)
Theorem guard_listens_exactly_while_pending
    (populated : bool) (fragment : string) (ops : list Op) :
  let w := run ops (init populated fragment) in
  NoDup (routeListeners w) ∧
  ∀ g, g ∈ routeListeners w ↔ (completed <$> (guards w !! g)) = Some false.
Proof. apply (run_Guarded ops), init_Guarded. Qed.

(** ** One guard, resolved once *)









(** ** Callers sharing one request *)

Lemma alloc_fields x w :
  let w1 := (alloc x w).2 in
  (alloc x w).1 = length (objects w) ∧ objects w1 = objects w ++ [x] ∧
  this_fetchQueue w1 = this_fetchQueue w ∧ queues w1 = queues w ∧
  requests w1 = requests w ∧ nextRequest w1 = nextRequest w ∧ log w1 = log w.
Proof. by destruct w. Qed.

Lemma fetch_requests o w :
  (∃ q, this_fetchQueue w = Some q) → resetQueue (deref w o) = false →
  requests (fetch (Some o) w) = requests w.
Proof.
  intros [q Hq] Hr. unfold fetch.
  match goal with |- context [fetchQueue o ?w1] =>
    assert (H1 : this_fetchQueue w1 = Some q ∧ resetQueue (deref w1 o) = false ∧
                 requests w1 = requests w) end.
  { unfold deref in *. destruct w as [p q0 r a qs os gs ls fr fw rs n l]. simpl in *.
    split; [done|]. split; [|done].
    destruct (os !! o) as [x|] eqn:Hx; simpl in *.
    - rewrite list_lookup_insert_eq by (by eapply lookup_lt_Some). done.
    - rewrite list_insert_ge by (by apply lookup_ge_None). by rewrite Hx. }
  destruct H1 as (H1 & H2 & H3).
  destruct (fetchQueue_join o _ q H1 H2) as (_ & _ & J3 & _). by rewrite J3.
Qed.

Lemma fetch_with_first c w :
  this_fetchQueue w = None → fetched w [c] (fetch_with c w).
Proof.
  intros Hq. unfold fetch_with.
  destruct (alloc_fields (options_of c) w) as (A1 & A2 & A3 & A4 & A5 & A6 & A7).
  destruct (alloc (options_of c) w) as [o w1]. simpl in *. subst o.
  assert (Hx : objects w1 !! length (objects w) = Some (options_of c))
    by (rewrite A2; apply lookup_snoc).
  rewrite (fetch_start _ _ w1 Hx) by (right; congruence). cbv zeta.
  unfold fetched. cbn [objects this_fetchQueue queues requests log].
  rewrite A2, A4, A5, A6, A7, insert_snoc. split; [done|]. split; [done|].
  split; [apply lookup_snoc|]. split; [done|].
  rewrite !count_if_cons, count_if_app, count_if_cons. cbn [is_Requested].
  assert (Hfw : ∀ fw : list bool, count_if is_Requested
            ((λ _ : bool, Triggered Exports "load:start"
                [VUndefined; background (options_of c); VThis]) <$> fw) = 0).
  { intros fw. unfold count_if. induction fw as [|b fw IH]; [done|].
    rewrite fmap_cons, filter_cons_False; [done|]. simpl. done. }
  rewrite Hfw. done.
Qed.

Lemma fetch_with_join c cs w w' :
  fetched w cs w' → fetched w (cs ++ [c]) (fetch_with c w').
Proof.
  intros (H1 & H2 & H3 & H4 & H5). unfold fetch_with.
  destruct (alloc_fields (options_of c) w') as (A1 & A2 & A3 & A4 & A5 & A6 & A7).
  destruct (alloc (options_of c) w') as [o w1]. simpl in *. subst o.
  assert (Hx : objects w1 !! length (objects w') = Some (options_of c))
    by (rewrite A2; apply lookup_snoc).
  destruct (fetch_queue_fields _ _ w1 Hx eq_refl) as (F1 & _ & _ & F4).
  rewrite A3, H2 in F4. destruct F4 as (F4 & F5 & F6).
  assert (Hreq : requests (fetch (Some (length (objects w'))) w1) = requests w1).
  { apply fetch_requests; [exists (length (queues w)); congruence|].
    unfold deref. by rewrite Hx. }
  unfold fetched. rewrite F1, F4, F5, F6, Hreq, A2, A4, A5, A7, H3, H4, H5, insert_snoc.
  cbn [default from_option id].
  split; [by rewrite H1, fmap_app, app_assoc|]. split; [done|].
  split; [|done].
  rewrite list_lookup_insert_eq by (by eapply lookup_lt_Some).
  rewrite H1, !length_app, length_fmap. simpl. by rewrite seq_app.
Qed.

Lemma fetch_with_all cs' : ∀ cs w',
  ∀ w, fetched w cs w' → fetched w (cs ++ cs') (foldl (λ w0 c, fetch_with c w0) w' cs').
Proof.
  induction cs' as [|c cs' IH]; intros cs w' w H; simpl.
  - by rewrite app_nil_r.
  - replace (cs ++ c :: cs') with ((cs ++ [c]) ++ cs') by (by rewrite <- app_assoc).
    apply IH. by apply fetch_with_join.
Qed.

Lemma lookup_fmap_seq {A B} (f : A → B) (cs : list A) : ∀ pre : list B,
  Forall2 (λ o c, (pre ++ (f <$> cs)) !! o = Some (f c)) (seq (length pre) (length cs)) cs.
Proof.
  induction cs as [|c cs IH]; intros pre; simpl; [constructor|].
  constructor; [apply list_lookup_middle; done|].
  specialize (IH (pre ++ [f c])). rewrite length_app, Nat.add_1_r in IH.
  eapply Forall2_impl; [exact IH|]. intros o c'. simpl. by rewrite <- app_assoc.
Qed.

Lemma replay_callers h args cs : ∀ refs w,
  Forall2 (λ o c, objects w !! o = Some (wrapped (options_of c))) refs cs →
  let w' := foldl (replay h args) w refs in
  stable w w' ∧ _request w' = _request w ∧ _aborted w' = _aborted w ∧
  log w' = rev (concat ((λ c, match h with
                             | OnSuccess => called (on_success c) args
                             | OnError => called (on_error c) args
                             | OnComplete => completed_call c args
                             end) <$> cs)) ++ log w.
Proof.
  induction cs as [|c cs IH]; intros refs w Hall; inversion Hall as [|o c' refs' cs'' Ho Hrest];
    subst; simpl.
  - split; [apply stable_refl | done].
  - set (w1 := replay h args w o).
    assert (H1 : stable w w1 ∧ _request w1 = _request w ∧ _aborted w1 = _aborted w ∧
                 log w1 = rev (match h with
                               | OnSuccess => called (on_success c) args
                               | OnError => called (on_error c) args
                               | OnComplete => completed_call c args
                               end) ++ log w).
    { subst w1. unfold replay, deref. rewrite Ho. unfold completed_call, called.
      destruct h; simpl.
      - destruct (on_success c); simpl; [by destruct w | split; [apply stable_refl | done]].
      - destruct (on_error c); simpl; [by destruct w | split; [apply stable_refl | done]].
      - destruct (on_complete c); simpl; by destruct w. }
    destruct H1 as (S1 & R1 & A1 & L1).
    destruct (IH refs' w1) as (S2 & R2 & A2 & L2).
    { eapply Forall2_impl; [exact Hrest|]. intros o' c'. simpl.
      destruct S1 as (_ & _ & -> & _). done. }
    split; [by eapply stable_trans|]. split; [congruence|]. split; [congruence|].
    rewrite L2, L1, rev_app_distr, <- app_assoc. done.
Qed.

(** C2. On an object with no queue active, any number of callers call
    [fetch], each with options of its own and no [resetQueue]. One request
    is made, by the first call, with the flushers of one queue as its
    handlers; the queue holds the callers' options in call order. When the
    transport runs the [success] (or [error]) flusher, the [success] (or
    [error]) function of every caller that gave one is called once, with
    the transport's arguments, in call order, and nothing else happens but
    [this.fetchQueue] being cleared. [complete] afterwards calls every
    caller's [complete] function, each followed by the [load:end] of that
    caller's [fetch], in call order, and leaves no queue and no request. In
    general a flusher clears [this.fetchQueue] exactly when it still is the
    array the flusher closed over. *)
Theorem concurrent_fetches_replay_every_caller
    (w : World) (c1 : Caller) (cs : list Caller) :
  this_fetchQueue w = None →
  let q := length (queues w) in
  let callers := c1 :: cs in
  let w1 := foldl (λ w0 c, fetch_with c w0) w callers in
  let complete := TSync (Some (TFlush q OnComplete)) in
  (requests w1 = requests w ++
     [mkRequest (nextRequest w) (Some (TFlush q OnSuccess)) (Some (TFlush q OnError))
        (Some complete)] ∧
   count_if is_Requested (log w1) = 1 + count_if is_Requested (log w) ∧
   this_fetchQueue w1 = Some q ∧
   queues w1 !! q = Some (seq (length (objects w)) (length callers))) ∧
  (∀ args,
     let w2 := call_transport (TFlush q OnSuccess) args w1 in
     log w2 = rev (concat ((λ c, called (on_success c) args) <$> callers)) ++ log w1 ∧
     this_fetchQueue w2 = None) ∧
  (∀ args,
     let w2 := call_transport (TFlush q OnError) args w1 in
     log w2 = rev (concat ((λ c, called (on_error c) args) <$> callers)) ++ log w1 ∧
     this_fetchQueue w2 = None) ∧
  (∀ h args cargs,
     let w2 := call_transport (TFlush q h) args w1 in
     let w3 := call_transport complete cargs w2 in
     log w3 = rev (concat ((λ c, completed_call c cargs) <$> callers)) ++ log w2 ∧
     this_fetchQueue w3 = None ∧ _request w3 = None) ∧
  (∀ w0 q' h args,
     this_fetchQueue (call_transport (TFlush q' h) args w0)
     = if bool_decide (this_fetchQueue w0 = Some q') then None else this_fetchQueue w0).
Proof.
  intros Hq q callers w1 complete.
  assert (Hf : fetched w callers w1).
  { subst w1 callers. cbn [foldl]. apply (fetch_with_all cs [c1]).
    by apply fetch_with_first. }
  destruct Hf as (H1 & H2 & H3 & H4 & H5). fold q in H2, H3, H4.
  assert (Hall : ∀ w2, objects w2 = objects w1 →
            Forall2 (λ o c, objects w2 !! o = Some (wrapped (options_of c)))
              (seq (length (objects w)) (length callers)) callers).
  { intros w2 ->. rewrite H1. apply lookup_fmap_seq. }
  assert (Hflush : ∀ h args w2,
            objects w2 = objects w1 → queues w2 = queues w1 →
            let w3 := flushQueue q h args w2 in
            log w3 = log (foldl (replay h args) w2
                            (seq (length (objects w)) (length callers))) ∧
            objects w3 = objects w1 ∧ queues w3 = queues w1 ∧
            _request w3 = _request w2 ∧
            this_fetchQueue w3 = if bool_decide (this_fetchQueue w2 = Some q)
                                 then None else this_fetchQueue w2).
  { intros h args w2 Ho Hqs. cbv zeta. rewrite flushQueue_identity.
    unfold flushQueue. rewrite Hqs, H3. cbn [default from_option id].
    destruct (replay_callers h args callers _ w2 (Hall w2 Ho)) as (S1 & R1 & _).
    destruct S1 as (S1 & S2 & S3 & _).
    set (wr := foldl _ w2 _) in *.
    assert (E : ∀ wz : World, log (if bool_decide (this_fetchQueue wz = Some q)
                                   then set_fetchQueue None wz else wz) = log wz ∧
                objects (if bool_decide (this_fetchQueue wz = Some q)
                         then set_fetchQueue None wz else wz) = objects wz ∧
                queues (if bool_decide (this_fetchQueue wz = Some q)
                        then set_fetchQueue None wz else wz) = queues wz ∧
                _request (if bool_decide (this_fetchQueue wz = Some q)
                          then set_fetchQueue None wz else wz) = _request wz).
    { intros wz. destruct (bool_decide _); [by destruct wz | done]. }
    destruct (E wr) as (-> & -> & -> & ->). rewrite S2, S3, R1, Ho, Hqs. done. }
  split; [done|]. split; [|split; [|split]].
  - intros args w2. subst w2. cbn [call_transport].
    destruct (Hflush OnSuccess args w1 eq_refl eq_refl) as (L & _ & _ & _ & Q).
    rewrite L, Q, H2, bool_decide_true by done.
    destruct (replay_callers OnSuccess args callers _ w1 (Hall w1 eq_refl)) as (_ & _ & _ & ->).
    done.
  - intros args w2. subst w2. cbn [call_transport].
    destruct (Hflush OnError args w1 eq_refl eq_refl) as (L & _ & _ & _ & Q).
    rewrite L, Q, H2, bool_decide_true by done.
    destruct (replay_callers OnError args callers _ w1 (Hall w1 eq_refl)) as (_ & _ & _ & ->).
    done.
  - intros h args cargs w2 w3.
    destruct (Hflush h args w1 eq_refl eq_refl) as (_ & O2 & Q2 & _ & T2).
    cbn [call_transport] in w2. fold w2 in O2, Q2, T2.
    rewrite H2, bool_decide_true in T2 by done.
    destruct (settle_fields w2) as (T1 & _ & T3 & T4 & T5 & T6 & _).
    set (w2' := set_aborted (Some false) (set_request None w2)) in *.
    assert (E3 : w3 = flushQueue q OnComplete cargs w2') by done.
    destruct (Hflush OnComplete cargs w2') as (L & _ & _ & R & Q).
    { by rewrite T4. } { by rewrite T3. }
    rewrite E3, L, R, Q, T1, T5, T2.
    assert (O2' : objects w2' = objects w1) by (by rewrite T4).
    destruct (replay_callers OnComplete cargs callers _ w2' (Hall w2' O2'))
      as (_ & _ & _ & ->).
    rewrite T6. by rewrite bool_decide_false.
  - intros w0 q' h args. apply flushQueue_identity.
Qed.

Lemma concurrent_fetches_replay_every_caller_witness :
  let c1 := mkCaller (Some "s1") None (Some "c1") VUndefined in
  let c2 := mkCaller (Some "s2") (Some "e2") None (VBool true) in
  let w1 := foldl (λ w0 c, fetch_with c w0) (init false "home") [c1; c2] in
  let w2 := call_transport (TFlush 0 OnSuccess) [VThis; VData 7] w1 in
  let w3 := call_transport (TSync (Some (TFlush 0 OnComplete))) [VData 8] w2 in
  length (requests w1) = 1 ∧
  log w2 = Called "s2" [VThis; VData 7] :: Called "s1" [VThis; VData 7] :: log w1 ∧
  log w3 = Triggered This "load:end" [VThis] :: Triggered This "load:end" [VThis] ::
           Called "c1" [VData 8] :: log w2 ∧
  this_fetchQueue w3 = None.
Proof.
  intros c1 c2 w1 w2 w3.
  destruct (concurrent_fetches_replay_every_caller (init false "home") c1 [c2] eq_refl)
    as ((R & _) & S & _ & C & _).
  destruct (S [VThis; VData 7]) as [S1 _].
  destruct (C OnSuccess [VThis; VData 7] [VData 8]) as (C1 & C2 & _).
  split; [refine (eq_trans (f_equal length R) _); reflexivity|].
  split; [exact S1|]. split; [exact C1 | exact C2].
Defined.

End DataLoadMoreFacts.

(* ===================================================================== *)
(** * Properties of a view bound to a data object *)
(* ===================================================================== *)

Module ViewModelFacts.
Import LoadHandler LoadHandlerFacts LoadHandlerMore LoadHandlerMoreFacts.
Import DataLoadMore ViewModel.

(** X20. A view bound to a data object on which a fetch and then a fetch
    with [resetQueue] are made, so that two requests are in flight: when
    the first request completes, the one [load:end] the object triggers
    reaches both [endCallback]s the view's handler bound to it, nothing is
    pending for the view any more, and once the end delay has passed the
    view's episode is over, while the second request is still in flight
    with its queue active. *)
Theorem view_episode_ends_with_request_in_flight
    (wm : DataLoad.World) (o1 o2 : nat) (x1 x2 : DataLoad.Options) (args : list DataLoad.Val)
    (m : Obj) (d e : option nat) (ms : nat) :
  DataLoad.this_fetchQueue wm = None →
  DataLoad.objects wm !! o1 = Some x1 → DataLoad.objects wm !! o2 = Some x2 → o1 ≠ o2 →
  DataLoad.resetQueue x1 = false → DataLoad.resetQueue x2 = true →
  DataLoad.complete x1 = None →
  default View_loadingTimeoutEndDuration e ≤ ms →
  let q := length (DataLoad.queues wm) in
  let wm2 := DataLoad.fetch (Some o2) (DataLoad.fetch (Some o1) wm) in
  let wm3 := DataLoad.call_transport
               (DataLoad.TSync (Some (DataLoad.TFlush q DataLoad.OnComplete))) args wm2 in
  ∃ new,
    DataLoad.log wm3 = new ++ DataLoad.log wm ∧
    view_inputs m new =
      [LoadStart None (DataLoad.truthy (DataLoad.background x1)) m;
       LoadStart None (DataLoad.truthy (DataLoad.background x2)) m;
       LoadEnd m] ∧
    (DataLoad.this_fetchQueue wm3 = Some (S q) ∧
     DataLoad.queues wm3 !! S q = Some [o2] ∧
     length (DataLoad.requests wm3) = 2 + length (DataLoad.requests wm)) ∧
    ∃ wv,
      exec (view_inputs m new ++ [Elapse ms]) (init d e) = Some wv ∧
      _loadStart wv = None ∧ timers wv = [] ∧ bound wv = [].
Proof.
  intros Hq H1 H2 Hne Hr1 Hr2 Hc1 Hms q wm2 wm3.
  destruct (DataLoadMoreFacts.two_requests_one_end wm o1 o2 x1 x2 args
              Hq H1 H2 Hne Hr1 Hr2 Hc1) as (new & Hl & Hev & Hf & Hq2 & Hn).
  exists new. split; [exact Hl|].
  assert (Hin : view_inputs m new =
      [LoadStart None (DataLoad.truthy (DataLoad.background x1)) m;
       LoadStart None (DataLoad.truthy (DataLoad.background x2)) m;
       LoadEnd m]).
  { unfold view_inputs. rewrite Hev. reflexivity. }
  split; [exact Hin|]. split; [done|]. rewrite Hin.
  apply (one_source_end_closes d e m _ _ ms Hms).
Qed.

Lemma view_episode_ends_with_request_in_flight_witness :
  let x1 := DataLoad.mkOptions None None None DataLoad.VUndefined false in
  let x2 := DataLoad.mkOptions None None None DataLoad.VUndefined true in
  let wm := DataLoad.set_objects [x1; x2] (DataLoad.init false "home") in
  let wm2 := DataLoad.fetch (Some 1) (DataLoad.fetch (Some 0) wm) in
  let wm3 := DataLoad.call_transport
               (DataLoad.TSync (Some (DataLoad.TFlush 0 DataLoad.OnComplete)))
               [DataLoad.VData 1] wm2 in
  view_inputs 7 (DataLoad.log wm3) = [LoadStart None false 7; LoadStart None false 7; LoadEnd 7] ∧
  DataLoad.this_fetchQueue wm3 = Some 1 ∧
  ∃ wv,
    exec (view_inputs 7 (DataLoad.log wm3) ++ [Elapse 100]) (init None None) = Some wv ∧
    _loadStart wv = None.
Proof.
  intros x1 x2 wm wm2 wm3.
  assert (Hne : 0 ≠ 1) by lia.
  assert (Hms : default View_loadingTimeoutEndDuration None ≤ 100) by (vm_compute; lia).
  destruct (view_episode_ends_with_request_in_flight wm 0 1 x1 x2 [DataLoad.VData 1]
              7 None None 100 eq_refl eq_refl eq_refl Hne eq_refl eq_refl eq_refl Hms)
    as (new & Hl & Hin & (Hq & _) & wv & Hv & Hs & _).
  assert (Hnew : DataLoad.log wm3 = new).
  { refine (eq_trans Hl _). apply app_nil_r. }
  rewrite Hnew. split; [exact Hin|]. split; [exact Hq|]. exists wv. split; [exact Hv | exact Hs].
Defined.

End ViewModelFacts.
